(** * dso-url-parameter-redactor: a shallow embedding of [main.py]

    The program scans lines of text for URL-shaped substrings and rewrites
    the values of selected query parameters.  Its two functions,
    [redact_url_parameters] and [process_line], are thin compositions of
    calls into CPython's [urllib.parse] and [re]; the embedding therefore
    carries executable models of the library routines they call
    (CPython 3.11: [urlparse], [parse_qs], [urlencode], [urlunparse], the
    UTF-8 codec behind percent-coding, and the backtracking matcher behind
    [re.sub]).

    A Python [str] is a sequence of Unicode code points, modelled as a list
    of [N].  The parts of the library that consult the Unicode character
    database or the [ipaddress] module are taken as parameters (record
    [Platform]). *)

From Stdlib Require Import NArith ZArith Lia Bool String Ascii List.
Import ListNotations.

Local Open Scope N_scope.

(** ** Python strings *)

Definition char := N.
Definition str := list char.
Definition bytes := list N.

Definition ch (a : ascii) : char := N_of_ascii a.
Definition py (s : string) : str := map N_of_ascii (list_ascii_of_string s).

Module Str.

Definition eqb (a b : str) : bool :=
  (fix go (a b : str) : bool :=
     match a, b with
     | [], [] => true
     | x :: a', y :: b' => (x =? y) && go a' b'
     | _, _ => false
     end) a b.

(** [c in s] *)
Definition elem (c : char) (s : str) : bool := existsb (N.eqb c) s.

(** [s.find(c)]: [None] stands for Python's [-1]. *)
Fixpoint find (c : char) (s : str) : option nat :=
  match s with
  | [] => None
  | x :: s' => if x =? c then Some O
               else match find c s' with
                    | Some i => Some (S i)
                    | None => None
                    end
  end.

(** [s.find(c, start)] *)
Definition find_from (c : char) (s : str) (start : nat) : option nat :=
  match find c (skipn start s) with
  | Some i => Some (start + i)%nat
  | None => None
  end.

(** [s.rfind(c)] *)
Fixpoint rfind (c : char) (s : str) : option nat :=
  match s with
  | [] => None
  | x :: s' => match rfind c s' with
               | Some i => Some (S i)
               | None => if x =? c then Some O else None
               end
  end.

(** [s.split(c, 1)] for a separator known to occur, and [s.partition(c)] *)
Definition partition (c : char) (s : str) : str * bool * str :=
  match find c s with
  | Some i => (firstn i s, true, skipn (S i) s)
  | None => (s, false, [])
  end.

(** [s.rpartition(c)[2]] *)
Definition rpartition_tail (c : char) (s : str) : str :=
  match rfind c s with
  | Some i => skipn (S i) s
  | None => s
  end.

(** [s.split(c)]: always at least one piece. *)
Fixpoint split (c : char) (s : str) : list str :=
  match s with
  | [] => [[]]
  | x :: s' =>
      if x =? c then [] :: split c s'
      else match split c s' with
           | p :: ps => (x :: p) :: ps
           | [] => [[x]]
           end
  end.

(** [sep.join(l)] *)
Fixpoint join (sep : str) (l : list str) : str :=
  match l with
  | [] => []
  | [p] => p
  | p :: l' => p ++ sep ++ join sep l'
  end.

(** [s.replace(c, d)] for one-character arguments *)
Definition replace (c d : char) (s : str) : str :=
  map (fun x => if x =? c then d else x) s.

(** [s.replace(c, "")] *)
Definition remove (c : char) (s : str) : str :=
  filter (fun x => negb (x =? c)) s.

(** [s.lstrip(chars)], the set given as a predicate *)
Fixpoint lstrip (p : char -> bool) (s : str) : str :=
  match s with
  | [] => []
  | x :: s' => if p x then lstrip p s' else s
  end.

Definition is_upper (c : char) : bool := (65 <=? c) && (c <=? 90).
Definition is_lower (c : char) : bool := (97 <=? c) && (c <=? 122).
Definition is_digit (c : char) : bool := (48 <=? c) && (c <=? 57).
Definition is_ascii (c : char) : bool := c <? 128.
Definition is_ascii_alpha (c : char) : bool := is_upper c || is_lower c.

(** [s.lower()] on ASCII text *)
Definition lower_char (c : char) : char := if is_upper c then c + 32 else c.
Definition lower (s : str) : str := map lower_char s.

(** [s.isascii()] *)
Definition isascii (s : str) : bool := forallb is_ascii s.

(** [s.startswith(c)] *)
Definition startswith (c : char) (s : str) : bool :=
  match s with
  | x :: _ => x =? c
  | [] => false
  end.

(** [p in l] for a list of strings *)
Definition mem (p : str) (l : list str) : bool := existsb (eqb p) l.

(** [c.isspace()] *)
Definition isspace (c : char) : bool :=
  ((9 <=? c) && (c <=? 13)) || ((28 <=? c) && (c <=? 32))
  || (c =? 133) || (c =? 160) || (c =? 5760)
  || ((8192 <=? c) && (c <=? 8202))
  || (c =? 8232) || (c =? 8233) || (c =? 8239) || (c =? 8287) || (c =? 12288).

(** [s.strip()] *)
Definition strip (s : str) : str :=
  rev (lstrip isspace (rev (lstrip isspace s))).

End Str.

(** ** Exceptions

    The exceptions of the program.  [ValueError] and [UnicodeEncodeError]
    are what the library calls of [redact_url_parameters] raise on a
    [str]; [SystemExit] is what [sys.exit] raises in [main]. *)

Inductive exn : Type :=
| ValueError (msg : string)
| UnicodeEncodeError (c : char)
| SystemExit (code : Z).

(** [isinstance(e, Exception)].  [UnicodeEncodeError] is a [UnicodeError],
    which is a [ValueError], which is an [Exception]; [SystemExit] derives
    from [BaseException] alone. *)
Definition is_Exception (e : exn) : bool :=
  match e with
  | ValueError _ | UnicodeEncodeError _ => true
  | SystemExit _ => false
  end.

Inductive result (A : Type) : Type :=
| Ok (a : A)
| Raise (e : exn).
Arguments Ok {A} a.
Arguments Raise {A} e.

Definition bind {A B : Type} (r : result A) (k : A -> result B) : result B :=
  match r with
  | Ok a => k a
  | Raise e => Raise e
  end.

(** [try: body  except Exception as e: handler]: the clause takes the
    exceptions that are instances of [Exception]; any other one leaves
    the statement. *)
Definition try_except_Exception {A : Type} (body : result A) (handler : exn -> result A)
  : result A :=
  match body with
  | Ok a => Ok a
  | Raise e => if is_Exception e then handler e else Raise e
  end.

Notation "x <- e ;; k" := (bind e (fun x => k))
  (at level 61, e at next level, right associativity).
Notation "e ;;; k" := (bind e (fun _ => k))
  (at level 61, right associativity).

(** [mapM] over a list, left to right, stopping at the first exception. *)
Fixpoint mapM {A B : Type} (f : A -> result B) (l : list A) : result (list B) :=
  match l with
  | [] => Ok []
  | a :: l' => b <- f a ;; bs <- mapM f l' ;; Ok (b :: bs)
  end.

(** ** The UTF-8 codec

    [str.encode('utf-8', 'strict')] and [bytes.decode('utf-8', 'replace')],
    after CPython's [stringlib/codecs.h]. *)

Module Utf8.

Definition is_surrogate (c : char) : bool := (55296 <=? c) && (c <=? 57343).

Definition encode_char (c : char) : result bytes :=
  if c <? 128 then Ok [c]
  else if c <? 2048 then Ok [192 + c / 64; 128 + c mod 64]
  else if c <? 65536 then
    if is_surrogate c then Raise (UnicodeEncodeError c)
    else Ok [224 + c / 4096; 128 + (c / 64) mod 64; 128 + c mod 64]
  else if c <? 1114112 then
    Ok [240 + c / 262144; 128 + (c / 4096) mod 64;
        128 + (c / 64) mod 64; 128 + c mod 64]
  else Raise (UnicodeEncodeError c).

Fixpoint encode (s : str) : result bytes :=
  match s with
  | [] => Ok []
  | c :: s' => b <- encode_char c ;; bs <- encode s' ;; Ok (b ++ bs)
  end.

Definition is_cont (b : N) : bool := (128 <=? b) && (b <? 192).

Definition replacement : char := 65533.

(** One U+FFFD replaces the maximal ill-formed prefix; decoding resumes
    right after it. *)
Fixpoint decode (bs : bytes) : str :=
  match bs with
  | [] => []
  | b0 :: r =>
      if b0 <? 128 then b0 :: decode r
      else if b0 <? 194 then replacement :: decode r
      else if b0 <? 224 then
        match r with
        | [] => [replacement]
        | b1 :: r1 =>
            if is_cont b1 then (b0 * 64 + b1 - 12416) :: decode r1
            else replacement :: decode r
        end
      else if b0 <? 240 then
        match r with
        | [] => [replacement]
        | b1 :: r1 =>
            if negb (is_cont b1)
               || (if b1 <? 160 then b0 =? 224 else b0 =? 237)
            then replacement :: decode r
            else
              match r1 with
              | [] => [replacement]
              | b2 :: r2 =>
                  if is_cont b2
                  then (b0 * 4096 + b1 * 64 + b2 - 925824) :: decode r2
                  else replacement :: decode r1
              end
        end
      else if b0 <? 245 then
        match r with
        | [] => [replacement]
        | b1 :: r1 =>
            if negb (is_cont b1)
               || (if b1 <? 144 then b0 =? 240 else b0 =? 244)
            then replacement :: decode r
            else
              match r1 with
              | [] => [replacement]
              | b2 :: r2 =>
                  if negb (is_cont b2) then replacement :: decode r1
                  else
                    match r2 with
                    | [] => [replacement]
                    | b3 :: r3 =>
                        if is_cont b3
                        then (b0 * 262144 + b1 * 4096 + b2 * 64 + b3
                              - 63447168) :: decode r3
                        else replacement :: decode r2
                    end
              end
        end
      else replacement :: decode r
  end.

End Utf8.

(** ** What the embedding takes from the platform

    Three library services depend on data that is not part of the program:
    the Unicode character database (which non-ASCII code points count as
    alphanumeric for [\b], and NFKC normalisation in [_checknetloc]) and
    the [ipaddress] module (validation of a bracketed host).  They are
    parameters; on ASCII text without brackets none of them is consulted. *)

Inductive ip_version : Type := IPv4 | IPv6.

Record Platform : Type := {
  (** [str.isalnum] on a code point above 127 *)
  unicode_isalnum : char -> bool;
  (** [unicodedata.normalize('NFKC', _)] *)
  normalize_NFKC : str -> str;
  (** [ipaddress.ip_address]; [None] when it raises [ValueError] *)
  ip_address : str -> option ip_version
}.

(** A platform that knows nothing beyond ASCII, for closed examples. *)
Definition ascii_platform : Platform :=
  {| unicode_isalnum := fun _ => false;
     normalize_NFKC := fun s => s;
     ip_address := fun _ => None |}.

(** ** Regular expressions: the backtracking matcher of [re] *)

Module Re.

Inductive regex : Type :=
| Eps
| Lit (c : char)
| Class (ranges : list (char * char))
| AnyChar
| WordBoundary
| AtEnd
| Seq (r1 r2 : regex)
| Alt (r1 r2 : regex)
| Star (r : regex)
| Plus (r : regex)
| Opt (r : regex).

Definition in_ranges (ranges : list (char * char)) (c : char) : bool :=
  existsb (fun '(lo, hi) => (lo <=? c) && (c <=? hi)) ranges.

(** Juxtaposition of several items, and a literal string *)
Fixpoint seq (rs : list regex) : regex :=
  match rs with
  | [] => Eps
  | [r] => r
  | r :: rs' => Seq r (seq rs')
  end.

Definition lits (s : str) : regex := seq (map Lit s).

(** [\w] on a [str] pattern *)
Definition is_word (plat : Platform) (c : char) : bool :=
  if c <? 128
  then Str.is_ascii_alpha c || Str.is_digit c || (c =? 95)
  else unicode_isalnum plat c.

Definition at_boundary (plat : Platform) (prev : option char) (s : str) : bool :=
  xorb (match prev with Some c => is_word plat c | None => false end)
       (match s with c :: _ => is_word plat c | [] => false end).

(** A matcher reads the input left of the cursor only through the
    character just before it ([prev]); [k] is what remains of the
    pattern.  Alternatives are tried in priority order and the first
    success wins. *)
Definition cont (A : Type) : Type := option char -> str -> option A.
Definition matcher (A : Type) : Type := option char -> str -> cont A -> option A.

Definition orelse {A : Type} (a b : option A) : option A :=
  match a with
  | Some x => Some x
  | None => b
  end.

(** Greedy repetition: one more round of [body] is preferred to leaving
    the loop; a round must consume input. *)
Fixpoint star_loop {A : Type} (body : matcher A) (fuel : nat) (k : cont A)
         (prev : option char) (s : str) : option A :=
  match fuel with
  | O => k prev s
  | S fuel' =>
      orelse
        (body prev s
           (fun prev' s' =>
              if (List.length s' <? List.length s)%nat
              then star_loop body fuel' k prev' s'
              else None))
        (k prev s)
  end.

Fixpoint run {A : Type} (plat : Platform) (r : regex) : matcher A :=
  match r with
  | Eps => fun prev s k => k prev s
  | Lit c => fun prev s k =>
      match s with
      | x :: s' => if x =? c then k (Some x) s' else None
      | [] => None
      end
  | Class ranges => fun prev s k =>
      match s with
      | x :: s' => if in_ranges ranges x then k (Some x) s' else None
      | [] => None
      end
  | AnyChar => fun prev s k =>
      match s with
      | x :: s' => if x =? 10 then None else k (Some x) s'
      | [] => None
      end
  | WordBoundary => fun prev s k =>
      if at_boundary plat prev s then k prev s else None
  | AtEnd => fun prev s k =>
      match s with
      | [] => k prev s
      | _ :: _ => None
      end
  | Seq r1 r2 => fun prev s k =>
      run plat r1 prev s (fun prev' s' => run plat r2 prev' s' k)
  | Alt r1 r2 => fun prev s k =>
      orelse (run plat r1 prev s k) (run plat r2 prev s k)
  | Star r1 => fun prev s k =>
      star_loop (run plat r1) (S (List.length s)) k prev s
  | Plus r1 => fun prev s k =>
      run plat r1 prev s
        (fun prev' s' => star_loop (run plat r1) (S (List.length s')) k prev' s')
  | Opt r1 => fun prev s k =>
      orelse (run plat r1 prev s k) (k prev s)
  end.

(** The length of the match that starts at the cursor, if there is one. *)
Definition match_here (plat : Platform) (r : regex) (prev : option char) (s : str)
  : option nat :=
  run plat r prev s (fun _ s' => Some (List.length s - List.length s')%nat).

(** Is there a way to match exactly the next [n] characters? *)
Definition matches_span (plat : Platform) (r : regex) (prev : option char) (s : str)
           (n : nat) : bool :=
  match run plat r prev s
          (fun _ s' => if (List.length s - List.length s' =? n)%nat
                       then Some tt else None) with
  | Some _ => true
  | None => false
  end.

(** [re.match(r, s)] with the pattern anchored at both ends *)
Definition fullmatch (plat : Platform) (r : regex) (s : str) : bool :=
  match run plat (Seq r AtEnd) None s (fun _ _ => Some tt) with
  | Some _ => true
  | None => false
  end.

(** [pattern.sub(repl, line)] with a callable [repl].  [skip] counts the
    characters of the current match that are still to be passed over.
    After an empty match the scan moves on by one character, as [re]
    does when no match that consumes input starts at the same place;
    the pattern of [process_line] has no empty match at all (lemma
    [url_pattern_scheme]), so that branch is never taken for it. *)
Fixpoint sub_from (plat : Platform) (r : regex) (repl : str -> str)
         (skip : nat) (prev : option char) (s : str) : str :=
  match skip with
  | S skip' =>
      match s with
      | [] => []
      | c :: s' => sub_from plat r repl skip' (Some c) s'
      end
  | O =>
      match match_here plat r prev s with
      | Some n =>
          repl (firstn n s) ++
          match s with
          | [] => []
          | c :: s' =>
              match n with
              | O => c :: sub_from plat r repl O (Some c) s'
              | S n' => sub_from plat r repl n' (Some c) s'
              end
          end
      | None =>
          match s with
          | [] => []
          | c :: s' => c :: sub_from plat r repl O (Some c) s'
          end
      end
  end.

Definition sub (plat : Platform) (r : regex) (repl : str -> str) (line : str) : str :=
  sub_from plat r repl O None line.

(** [pattern.finditer(line)] as spans [(start, end)]; [pos] is the index
    of the cursor. *)
Fixpoint spans_from (plat : Platform) (r : regex)
         (skip : nat) (pos : nat) (prev : option char) (s : str) : list (nat * nat) :=
  match skip with
  | S skip' =>
      match s with
      | [] => []
      | c :: s' => spans_from plat r skip' (S pos) (Some c) s'
      end
  | O =>
      match match_here plat r prev s with
      | Some n =>
          (pos, (pos + n)%nat) ::
          match s with
          | [] => []
          | c :: s' => spans_from plat r (Nat.pred n) (S pos) (Some c) s'
          end
      | None =>
          match s with
          | [] => []
          | c :: s' => spans_from plat r O (S pos) (Some c) s'
          end
      end
  end.

Definition finditer (plat : Platform) (r : regex) (line : str) : list (nat * nat) :=
  spans_from plat r O O None line.

End Re.

(** ** [urllib.parse]: percent-coding *)

Module Urllib.

(** [_ALWAYS_SAFE]: letters, digits and [_.-~] *)
Definition always_safe (b : N) : bool :=
  Str.is_ascii_alpha b || Str.is_digit b
  || (b =? ch "_") || (b =? ch ".") || (b =? ch "-") || (b =? ch "~").

Definition hexdigit (n : N) : char := if n <? 10 then 48 + n else 55 + n.

(** [_Quoter.__missing__]: [chr(b)] when safe, else ['%{:02X}'.format(b)] *)
Definition quoter (safe : char -> bool) (b : N) : str :=
  if always_safe b || safe b then [b]
  else [ch "%"; hexdigit (b / 16); hexdigit (b mod 16)].

(** [quote_from_bytes] *)
Definition quote_from_bytes (safe : char -> bool) (bs : bytes) : str :=
  flat_map (quoter safe) bs.

(** [quote(string, safe, 'utf-8', 'strict')] *)
Definition quote (safe : char -> bool) (s : str) : result str :=
  match s with
  | [] => Ok s
  | _ :: _ => bs <- Utf8.encode s ;; Ok (quote_from_bytes safe bs)
  end.

(** [quote_plus(string, '')] *)
Definition quote_plus (s : str) : result str :=
  if negb (Str.elem (ch " ") s) then quote (fun _ => false) s
  else q <- quote (fun c => c =? ch " ") s ;; Ok (Str.replace (ch " ") (ch "+") q).

Definition hexval (c : char) : option N :=
  if Str.is_digit c then Some (c - 48)
  else if (65 <=? c) && (c <=? 70) then Some (c - 55)
  else if (97 <=? c) && (c <=? 102) then Some (c - 87)
  else None.

(** One piece after a [%]: [_hextobyte[item[:2]] + item[2:]], or the
    [KeyError] branch that puts the [%] back. *)
Definition unquote_item (item : str) : bytes :=
  match item with
  | h1 :: h2 :: rest =>
      match hexval h1, hexval h2 with
      | Some a, Some b => (16 * a + b) :: rest
      | _, _ => ch "%" :: item
      end
  | _ => ch "%" :: item
  end.

(** [unquote_to_bytes], called by [unquote] on runs of ASCII text (whose
    UTF-8 encoding is the text itself). *)
Definition unquote_to_bytes (s : str) : bytes :=
  match Str.split (ch "%") s with
  | [] => []
  | first :: items => first ++ flat_map unquote_item items
  end.

(** The loop of [unquote] over [_asciire.split(string)]: text outside
    ASCII is copied, each maximal ASCII run is unquoted and decoded.
    [run] is the ASCII run read so far. *)
Fixpoint unquote_runs (run : str) (s : str) : str :=
  match s with
  | [] => Utf8.decode (unquote_to_bytes run)
  | c :: s' =>
      if Str.is_ascii c then unquote_runs (run ++ [c]) s'
      else Utf8.decode (unquote_to_bytes run) ++ c :: unquote_runs [] s'
  end.

(** [unquote(string, 'utf-8', 'replace')] *)
Definition unquote (s : str) : str :=
  if negb (Str.elem (ch "%") s) then s else unquote_runs [] s.

(** ** Query strings *)

(** [parse_qsl(qs)] with its defaults: blank values are dropped, fields
    are separated by [&] only. *)
Definition parse_field (name_value : str) : list (str * str) :=
  match name_value with
  | [] => []
  | _ :: _ =>
      match Str.partition (ch "=") name_value with
      | (name, true, (_ :: _) as value) =>
          [(unquote (Str.replace (ch "+") (ch " ") name),
            unquote (Str.replace (ch "+") (ch " ") value))]
      | _ => []
      end
  end.

Definition parse_qsl (qs : str) : list (str * str) :=
  match qs with
  | [] => []
  | _ :: _ => flat_map parse_field (Str.split (ch "&") qs)
  end.

(** A [dict] from names to lists of values, in insertion order. *)
Definition dict : Type := list (str * list str).

Fixpoint dict_mem (k : str) (d : dict) : bool :=
  match d with
  | [] => false
  | (k', _) :: d' => Str.eqb k k' || dict_mem k d'
  end.

Fixpoint dict_get (k : str) (d : dict) : option (list str) :=
  match d with
  | [] => None
  | (k', vs) :: d' => if Str.eqb k k' then Some vs else dict_get k d'
  end.

(** [d[k] = vs]: an existing key keeps its place, a new one goes last. *)
Fixpoint dict_set (k : str) (vs : list str) (d : dict) : dict :=
  match d with
  | [] => [(k, vs)]
  | (k', vs') :: d' =>
      if Str.eqb k k' then (k', vs) :: d' else (k', vs') :: dict_set k vs d'
  end.

(** The body of the loop of [parse_qs]:
    [d[name].append(value)] or [d[name] = [value]]. *)
Definition dict_add (d : dict) (nv : str * str) : dict :=
  let '(name, value) := nv in
  match dict_get name d with
  | Some vs => dict_set name (vs ++ [value]) d
  | None => dict_set name [value] d
  end.

Definition parse_qs (qs : str) : dict := fold_left dict_add (parse_qsl qs) [].

(** [urlencode(query, doseq=True)] on a [dict] of lists of strings *)
Definition encode_item (kv : str * list str) : result (list str) :=
  let '(k, vs) := kv in
  k' <- quote_plus k ;;
  mapM (fun elt => elt' <- quote_plus elt ;; Ok (k' ++ ch "=" :: elt')) vs.

Definition urlencode (query : dict) : result str :=
  l <- mapM encode_item query ;;
  Ok (Str.join [ch "&"] (concat l)).

(** ** Splitting and joining URLs *)

Record SplitResult : Type := mkSplit {
  split_scheme : str;
  split_netloc : str;
  split_path : str;
  split_query : str;
  split_fragment : str
}.

Record ParseResult : Type := mkParse {
  scheme : str;
  netloc : str;
  path : str;
  params : str;
  query : str;
  fragment : str
}.

Definition uses_netloc : list str :=
  map py [""; "ftp"; "http"; "gopher"; "nntp"; "telnet"; "imap"; "wais";
          "file"; "mms"; "https"; "shttp"; "snews"; "prospero"; "rtsp";
          "rtspu"; "rsync"; "svn"; "svn+ssh"; "sftp"; "nfs"; "git";
          "git+ssh"; "ws"; "wss"]%string.

Definition uses_params : list str :=
  map py [""; "ftp"; "hdl"; "prospero"; "http"; "imap"; "https"; "shttp";
          "rtsp"; "rtspu"; "sip"; "sips"; "mms"; "sftp"; "tel"]%string.

Definition scheme_char (c : char) : bool :=
  Str.is_ascii_alpha c || Str.is_digit c
  || (c =? ch "+") || (c =? ch "-") || (c =? ch ".").

(** [_WHATWG_C0_CONTROL_OR_SPACE] and [_UNSAFE_URL_BYTES_TO_REMOVE] *)
Definition c0_control_or_space (c : char) : bool := c <=? 32.
Definition unsafe_url_bytes_to_remove : list char := [9; 13; 10].

Definition nonempty (s : str) : bool :=
  match s with
  | [] => false
  | _ :: _ => true
  end.

(** [_splitnetloc(url, start)] *)
Definition splitnetloc (url : str) (start : nat) : str * str :=
  let delim :=
    fold_left
      (fun delim c =>
         match Str.find_from c url start with
         | Some wdelim => Nat.min delim wdelim
         | None => delim
         end)
      [ch "/"; ch "?"; ch "#"] (List.length url) in
  (firstn (delim - start) (skipn start url), skipn delim url).

Definition hex_ranges : list (char * char) := [(97, 102); (65, 70); (48, 57)].

(** [r"\Av[a-fA-F0-9]+\..+\Z"] *)
Definition ipvfuture : Re.regex :=
  Re.seq [Re.Lit (ch "v"); Re.Plus (Re.Class hex_ranges); Re.Lit (ch ".");
          Re.Plus Re.AnyChar].

(** [_check_bracketed_host].  The [ValueError] of [ipaddress.ip_address]
    carries its message without the [repr] of the address that the
    library puts before it. *)
Definition check_bracketed_host (plat : Platform) (hostname : str) : result unit :=
  if Str.startswith (ch "v") hostname then
    if Re.fullmatch plat ipvfuture hostname then Ok tt
    else Raise (ValueError "IPvFuture address is invalid")
  else
    match ip_address plat hostname with
    | None => Raise (ValueError "does not appear to be an IPv4 or IPv6 address")
    | Some IPv4 => Raise (ValueError "An IPv4 address cannot be in brackets")
    | Some IPv6 => Ok tt
    end.

(** [_check_bracketed_netloc] *)
Definition check_bracketed_netloc (plat : Platform) (netloc : str) : result unit :=
  let hostname_and_port := Str.rpartition_tail (ch "@") netloc in
  let '(before_bracket, have_open_br, bracketed) :=
    Str.partition (ch "[") hostname_and_port in
  if have_open_br then
    if nonempty before_bracket then Raise (ValueError "Invalid IPv6 URL")
    else
      let '(hostname, _, port) := Str.partition (ch "]") bracketed in
      if nonempty port && negb (Str.startswith (ch ":") port)
      then Raise (ValueError "Invalid IPv6 URL")
      else check_bracketed_host plat hostname
  else
    let '(hostname, _, _) := Str.partition (ch ":") hostname_and_port in
    check_bracketed_host plat hostname.

(** [_checknetloc].  The message of the [ValueError] stands without the
    [repr] of the netloc that the library puts in it. *)
Definition checknetloc (plat : Platform) (netloc : str) : result unit :=
  if negb (nonempty netloc) || Str.isascii netloc then Ok tt
  else
    let n := Str.remove (ch "?") (Str.remove (ch "#")
               (Str.remove (ch ":") (Str.remove (ch "@") netloc))) in
    let netloc2 := normalize_NFKC plat n in
    if Str.eqb n netloc2 then Ok tt
    else if existsb (fun c => Str.elem c netloc2)
              [ch "/"; ch "?"; ch "#"; ch "@"; ch ":"]
         then Raise (ValueError "netloc contains invalid characters under NFKC normalization")
         else Ok tt.

(** [url.split(c, 1)], taken when [c in url] *)
Definition split_once (c : char) (url : str) : str * str :=
  if Str.elem c url
  then let '(before, _, after) := Str.partition c url in (before, after)
  else (url, []).

(** The scheme test of [urlsplit]: the text up to the first [:], when it
    starts with an ASCII letter and consists of scheme characters. *)
Definition split_scheme_off (url : str) : str * str :=
  match Str.find (ch ":") url, url with
  | Some (S i), c0 :: _ =>
      if Str.is_ascii c0 && Str.is_ascii_alpha c0
      then if forallb scheme_char (firstn (S i) url)
           then (Str.lower (firstn (S i) url), skipn (S (S i)) url)
           else ([], url)
      else ([], url)
  | _, _ => ([], url)
  end.

(** [urlsplit(url)] *)
Definition urlsplit (plat : Platform) (url : str) : result SplitResult :=
  let url := Str.lstrip c0_control_or_space url in
  let url := fold_left (fun u b => Str.remove b u) unsafe_url_bytes_to_remove url in
  let '(scheme, url) := split_scheme_off url in
  nu <- (if Str.eqb (firstn 2 url) (py "//") then
           let '(netloc, url) := splitnetloc url 2 in
           if (Str.elem (ch "[") netloc && negb (Str.elem (ch "]") netloc))
              || (Str.elem (ch "]") netloc && negb (Str.elem (ch "[") netloc))
           then Raise (ValueError "Invalid IPv6 URL")
           else
             (if Str.elem (ch "[") netloc && Str.elem (ch "]") netloc
              then check_bracketed_netloc plat netloc else Ok tt) ;;;
             Ok (netloc, url)
         else Ok ([], url)) ;;
  let '(netloc, url) := nu in
  let '(url, fragment) := split_once (ch "#") url in
  let '(url, query) := split_once (ch "?") url in
  checknetloc plat netloc ;;;
  Ok (mkSplit scheme netloc url query fragment).

(** [_splitparams] *)
Definition splitparams (url : str) : str * str :=
  if Str.elem (ch "/") url then
    match Str.rfind (ch "/") url with
    | Some r =>
        match Str.find_from (ch ";") url r with
        | Some i => (firstn i url, skipn (S i) url)
        | None => (url, [])
        end
    | None => (url, [])
    end
  else
    match Str.find (ch ";") url with
    | Some i => (firstn i url, skipn (S i) url)
    | None => (removelast url, url)
    end.

(** [urlparse(url)] *)
Definition urlparse (plat : Platform) (url : str) : result ParseResult :=
  sr <- urlsplit plat url ;;
  let '(url, params) :=
    if Str.mem (split_scheme sr) uses_params && Str.elem (ch ";") (split_path sr)
    then splitparams (split_path sr)
    else (split_path sr, []) in
  Ok (mkParse (split_scheme sr) (split_netloc sr) url params
              (split_query sr) (split_fragment sr)).

(** [urlunsplit((scheme, netloc, url, query, fragment))] *)
Definition urlunsplit (scheme netloc url query fragment : str) : str :=
  let url :=
    if nonempty netloc
       || (nonempty scheme && Str.mem scheme uses_netloc
           && negb (Str.eqb (firstn 2 url) (py "//")))
    then
      let url := if nonempty url && negb (Str.eqb (firstn 1 url) (py "/"))
                 then ch "/" :: url else url in
      py "//" ++ netloc ++ url
    else url in
  let url := if nonempty scheme then scheme ++ ch ":" :: url else url in
  let url := if nonempty query then url ++ ch "?" :: query else url in
  let url := if nonempty fragment then url ++ ch "#" :: fragment else url in
  url.

(** [urlunparse((scheme, netloc, url, params, query, fragment))] *)
Definition urlunparse (scheme netloc url params query fragment : str) : str :=
  let url := if nonempty params then url ++ ch ";" :: params else url in
  urlunsplit scheme netloc url query fragment.

End Urllib.

(** ** [main.py] *)

Import Urllib.

Inductive log_level : Type := DEBUG | INFO | WARNING | ERROR | CRITICAL.

(** What [logging.error(f"Error redacting URL {url}: {e}")] emits. *)
Record log_record : Type := mkLog {
  level : log_level;
  log_url : str;
  log_exn : exn
}.

(** The loop of [redact_url_parameters]:
    [for param in params_to_redact: if param in query_params:
       query_params[param] = [redaction_string]]. *)
Definition redact_params (params_to_redact : list str) (redaction_string : str)
           (query_params : dict) : dict :=
  fold_left
    (fun qp param =>
       if dict_mem param qp then dict_set param [redaction_string] qp else qp)
    params_to_redact query_params.

(** The body of the [try] block. *)
Definition redact_try (plat : Platform) (url : str) (params_to_redact : list str)
           (redaction_string : str) : result str :=
  parsed_url <- urlparse plat url ;;
  let query_params := parse_qs (query parsed_url) in
  let query_params := redact_params params_to_redact redaction_string query_params in
  redacted_query <- urlencode query_params ;;
  Ok (urlunparse (scheme parsed_url) (netloc parsed_url) (path parsed_url)
                 (params parsed_url) redacted_query (fragment parsed_url)).

(** [redact_url_parameters] with what it logs: the [except Exception]
    clause logs one record and returns the original [url]. *)
Definition redact_url_parameters_logged (plat : Platform) (url : str)
           (params_to_redact : list str) (redaction_string : str)
  : str * list log_record :=
  match redact_try plat url params_to_redact redaction_string with
  | Ok redacted_url => (redacted_url, [])
  | Raise e => (url, [mkLog ERROR url e])
  end.

Definition redact_url_parameters (plat : Platform) (url : str)
           (params_to_redact : list str) (redaction_string : str) : str :=
  fst (redact_url_parameters_logged plat url params_to_redact redaction_string).

(** The [try] statement of [redact_url_parameters] as Python runs it: an
    exception of the block that is no instance of [Exception] would leave
    the function (none does: the two definitions above say all there
    is, as shown below). *)
Definition redact_url_parameters_result (plat : Platform) (url : str)
           (params_to_redact : list str) (redaction_string : str)
  : result (str * list log_record) :=
  try_except_Exception
    (redacted_url <- redact_try plat url params_to_redact redaction_string ;;
     Ok (redacted_url, []))
    (fun e => Ok (url, [mkLog ERROR url e])).

(** The character classes of [url_pattern]. *)
Definition host_chars : list (char * char) :=
  [(97, 122); (65, 90); (48, 57); (46, 46); (45, 45)].
Definition ipv6_chars : list (char * char) :=
  [(97, 102); (65, 70); (48, 57); (58, 58)].
Definition digit_chars : list (char * char) := [(48, 57)].
Definition path_chars : list (char * char) :=
  [(97, 122); (65, 90); (48, 57); (95, 95); (64, 64); (37, 37); (43, 43); (45, 45)].
Definition query_chars : list (char * char) :=
  [(97, 122); (65, 90); (48, 57); (95, 95); (64, 64); (37, 37); (38, 38);
   (43, 43); (61, 61); (59, 59); (45, 45)].

(** [url_pattern], read under [re.VERBOSE]: white space and the [#]
    comments of the pattern are dropped, [\#] is a literal, and the [.] of
    the path component is the unescaped wildcard.  Group 1 spans the whole
    match, the two [\b] being of width zero. *)
Definition url_pattern : Re.regex :=
  Re.seq
    [ Re.WordBoundary;
      Re.lits (py "http"); Re.Opt (Re.Lit (ch "s")); Re.lits (py "://");
      Re.Alt (Re.Plus (Re.Class host_chars))
             (Re.seq [Re.Lit (ch "["); Re.Plus (Re.Class ipv6_chars); Re.Lit (ch "]")]);
      Re.Opt (Re.seq [Re.Lit (ch ":"); Re.Plus (Re.Class digit_chars)]);
      Re.Star (Re.seq [Re.Lit (ch "/"); Re.Star (Re.Class path_chars);
                       Re.AnyChar; Re.Star (Re.Class path_chars)]);
      Re.Opt (Re.seq [Re.Lit (ch "?"); Re.Star (Re.Class query_chars);
                      Re.Star (Re.Class query_chars)]);
      Re.Opt (Re.seq [Re.Lit (ch "#"); Re.Star (Re.Class query_chars);
                      Re.Star (Re.Class query_chars)]);
      Re.WordBoundary ].

(** [replace_url] and [process_line] *)
Definition replace_url (plat : Platform) (params_to_redact : list str)
           (redaction_string : str) (url : str) : str :=
  redact_url_parameters plat url params_to_redact redaction_string.

Definition process_line (plat : Platform) (line : str) (params_to_redact : list str)
           (redaction_string : str) : str :=
  Re.sub plat url_pattern (replace_url plat params_to_redact redaction_string) line.

(** The URL candidates of a line: the spans [url_pattern.sub] visits. *)
Definition candidates (plat : Platform) (line : str) : list (nat * nat) :=
  Re.finditer plat url_pattern line.

(** [main]: [params_to_redact = [p.strip() for p in args.parameters.split(",")]] *)
Definition main_params_to_redact (parameters : str) : list str :=
  map Str.strip (Str.split (ch ",") parameters).

(** The loop of [main], inside its [try]:
    [for line in input_stream:
       redacted_line = process_line(line, params_to_redact, redaction_string)
       output_stream.write(redacted_line)].
    The input stream is what its iterator gives at each step, a line or
    an exception; [write] says whether the output stream, after the texts
    in [written], takes one more.  The result is what has been written
    and the exception that ended the loop (the [except Exception] clause
    logs it). *)
Fixpoint main_loop (plat : Platform) (write : list str -> str -> result unit)
         (written : list str) (input_stream : list (result str))
         (params_to_redact : list str) (redaction_string : str)
  : list str * option exn :=
  match input_stream with
  | [] => (written, None)
  | Raise e :: _ => (written, Some e)
  | Ok line :: rest =>
      let redacted_line := process_line plat line params_to_redact redaction_string in
      match write written redacted_line with
      | Raise e => (written, Some e)
      | Ok _ =>
          main_loop plat write (written ++ [redacted_line]) rest
                    params_to_redact redaction_string
      end
  end.

(** The lines of a text that holds line feeds as its only line ends, each
    with the line feed that ends it (the last one may have none): what
    [readline] cuts out of the text that the stream delivers. *)
Fixpoint readlines (text : str) : list str :=
  match text with
  | [] => []
  | c :: text' =>
      if c =? 10 then [10] :: readlines text'
      else match readlines text' with
           | l :: ls => (c :: l) :: ls
           | [] => [[c]]
           end
  end.

(** The [newline] argument with which a text stream is read.  [None],
    universal newlines, is the default of [open], which the file branch
    of [main] takes: [input_stream = open(args.input, "r",
    encoding=encoding)].  ['\n'] is what [sys.stdin] has on POSIX (on
    Windows it has [None]). *)
Inductive newline : Type := newline_None | newline_LF.

(** Universal newlines ([io.IncrementalNewlineDecoder] with
    [translate=True]): in the decoded text a carriage return with the
    line feed that follows it, or alone, becomes a line feed. *)
Fixpoint translate_newlines (text : str) : str :=
  match text with
  | [] => []
  | c :: text' =>
      if c =? 13 then
        10 :: match text' with
              | d :: text'' =>
                  if d =? 10 then translate_newlines text'' else translate_newlines text'
              | [] => []
              end
      else c :: translate_newlines text'
  end.

(** What the stream delivers of the decoded text of its file. *)
Definition delivered (nl : newline) (text : str) : str :=
  match nl with
  | newline_None => translate_newlines text
  | newline_LF => text
  end.

(** [for line in input_stream], for a stream that reads [text] without
    an error. *)
Definition stream_lines (nl : newline) (text : str) : list str :=
  readlines (delivered nl text).

(** ** Vocabulary of the properties *)

(** [s.startswith(p)] and [p in s] for a string [p] *)
Fixpoint prefixb (p s : str) : bool :=
  match p, s with
  | [], _ => true
  | x :: p', y :: s' => (x =? y) && prefixb p' s'
  | _ :: _, [] => false
  end.

Fixpoint contains (p s : str) : bool :=
  prefixb p s ||
  match s with
  | [] => false
  | _ :: s' => contains p s'
  end.

(** The character just before index [i] of [line]. *)
Definition prev_at (line : str) (i : nat) : option char :=
  match i with
  | O => None
  | S j => nth_error line j
  end.

(** The matcher started at index [i] of [line]. *)
Definition match_at (plat : Platform) (r : Re.regex) (line : str) (i : nat) : option nat :=
  Re.match_here plat r (prev_at line i) (skipn i line).

(** [spans] is what a left-to-right scan from [pos] finds: each span starts
    at the first index from the cursor where the matcher succeeds, covers
    the match found there, and the scan resumes at its end; after the last
    span the matcher succeeds nowhere. *)
Fixpoint scan_spans (plat : Platform) (r : Re.regex) (line : str) (pos : nat)
         (spans : list (nat * nat)) : Prop :=
  match spans with
  | [] => forall i, (pos <= i <= List.length line)%nat -> match_at plat r line i = None
  | (a, b) :: rest =>
      (pos <= a /\ a < b /\ b <= List.length line)%nat /\
      (forall i, (pos <= i < a)%nat -> match_at plat r line i = None) /\
      match_at plat r line a = Some (b - a)%nat /\
      scan_spans plat r line b rest
  end.

(** The line rebuilt from its spans: [s] is the text from index [pos] on;
    the text outside the spans is copied and each span is replaced by
    [repl] of its text. *)
Fixpoint splice (repl : str -> str) (s : str) (pos : nat) (spans : list (nat * nat))
  : str :=
  match spans with
  | [] => s
  | (a, b) :: rest =>
      firstn (a - pos) s ++
      repl (firstn (b - a) (skipn (a - pos) s)) ++
      splice repl (skipn (b - pos) s) b rest
  end.

(** The [name=value] fields of a query string, the name of a field as it
    is written, and as [parse_qsl] decodes it. *)
Definition query_fields (qs : str) : list str :=
  match qs with
  | [] => []
  | _ :: _ => Str.split (ch "&") qs
  end.

Definition field_name (field : str) : str :=
  let '(name, _, _) := Str.partition (ch "=") field in name.

Definition field_value (field : str) : str :=
  let '(_, _, value) := Str.partition (ch "=") field in value.

Definition unquote_plus (s : str) : str := unquote (Str.replace (ch "+") (ch " ") s).

(** The distinct elements of a list of names in the order of their first
    occurrence. *)
Fixpoint first_occurrences_from (seen : list str) (l : list str) : list str :=
  match l with
  | [] => []
  | x :: l' =>
      if Str.mem x seen then first_occurrences_from seen l'
      else x :: first_occurrences_from (x :: seen) l'
  end.

Definition first_occurrences (l : list str) : list str := first_occurrences_from [] l.

(** *** Vocabulary of the proofs *)

(** A matcher hands to its continuation a suffix no longer than its input. *)
Definition consuming {A : Type} (m : Re.matcher A) : Prop :=
  forall prev s k a, m prev s k = Some a ->
    exists prev' s', k prev' s' = Some a /\ (List.length s' <= List.length s)%nat.

(** The characters [quote_from_bytes] writes. *)
Definition quoted_char (safe : char -> bool) (x : char) : bool :=
  always_safe x || safe x || (x =? ch "%").

(** The characters [quote_plus] writes: letters, digits, [_.-~], [+] and
    the [%] of an escape. *)
Definition urlenc_char (x : char) : bool :=
  always_safe x || (x =? ch "+") || (x =? ch "%").

(** [list(d.keys())] *)
Definition keys (d : dict) : list str := map fst d.

(** The [(name, value)] pairs of a dictionary, in the order [urlencode]
    writes them. *)
Definition flatten (d : dict) : list (str * str) :=
  flat_map (fun kv => map (pair (fst kv)) (snd kv)) d.

(** The values given to [k] in a list of pairs, in order. *)
Definition values_of (k : str) (prs : list (str * str)) : list str :=
  map snd (filter (fun kv => Str.eqb k (fst kv)) prs).

(** [f] is the field [urlencode] writes for the pair [kv]. *)
Definition encoded_pair (kv : str * str) (f : str) : Prop :=
  exists k' v', quote_plus (fst kv) = Ok k' /\ quote_plus (snd kv) = Ok v' /\
                f = k' ++ ch "=" :: v'.

(** An entry as [parse_qs] builds it: some value, and no empty one. *)
Definition good_entry (kv : str * list str) : Prop :=
  snd kv <> [] /\ Forall (fun v => v <> []) (snd kv).

(** A dictionary as [parse_qs] builds it: no key twice, and every entry
    as above. *)
Definition well_formed (d : dict) : Prop := NoDup (keys d) /\ Forall good_entry d.

(** No character of [s] is one of [cs]. *)
Definition avoids (cs : list char) (s : str) : bool :=
  forallb (fun x => negb (Str.elem x cs)) s.

(** The characters [urlsplit] removes from its argument. *)
Definition ctl : list char := unsafe_url_bytes_to_remove.

(** The first lines of [urlsplit]: the stripped URL without the
    characters above. *)
Definition cleaned (url : str) : str :=
  fold_left (fun u b => Str.remove b u) unsafe_url_bytes_to_remove
            (Str.lstrip c0_control_or_space url).

(** The delimiters that end a netloc, ['/?#'] in [_splitnetloc] *)
Definition is_delim (c : char) : bool :=
  (c =? ch "/") || (c =? ch "?") || (c =? ch "#").

Definition delims : list char := [ch "/"; ch "?"; ch "#"].

(** The text before the first character that satisfies [p], and the
    rest from that character on. *)
Fixpoint break (p : char -> bool) (s : str) : str * str :=
  match s with
  | [] => ([], [])
  | x :: s' => if p x then ([], s) else let '(a, b) := break p s' in (x :: a, b)
  end.

(** The index [_splitnetloc] computes: the position of the first
    delimiter of [w], or its length. *)
Definition first_delim (w : str) : nat :=
  fold_left
    (fun delim c => match Str.find c w with
                    | Some wdelim => Nat.min delim wdelim
                    | None => delim
                    end)
    delims (List.length w).

(** What the host of a candidate starts with: a character of the domain
    class or the bracket of an IPv6 literal. *)
Definition host_start (h : char) : bool :=
  Re.in_ranges host_chars h || (h =? ch "[").

(** What [urlsplit] leaves in the scheme field. *)
Definition scheme_ok (sch : str) : Prop :=
  sch = [] \/
  (exists c0 rest, sch = c0 :: rest /\ Str.is_ascii_alpha c0 = true) /\
  forallb scheme_char sch = true /\ Str.lower sch = sch.

(** The test on brackets that [urlsplit] makes on the netloc. *)
Definition bracket_check (plat : Platform) (net : str) : result unit :=
  if (Str.elem (ch "[") net && negb (Str.elem (ch "]") net))
     || (Str.elem (ch "]") net && negb (Str.elem (ch "[") net))
  then Raise (ValueError "Invalid IPv6 URL")
  else if Str.elem (ch "[") net && Str.elem (ch "]") net
       then check_bracketed_netloc plat net else Ok tt.

(** The end of [urlsplit], once scheme and netloc are known: fragment
    and query are cut off and the netloc is checked. *)
Definition split_rest (plat : Platform) (sch net rest : str) : result SplitResult :=
  let '(u3, f) := split_once (ch "#") rest in
  let '(pf, q) := split_once (ch "?") u3 in
  checknetloc plat net ;;; Ok (mkSplit sch net pf q f).

(** The text [urlunsplit] writes when there is a netloc. *)
Definition opt_part (sep : char) (s : str) : str :=
  if nonempty s then sep :: s else [].

(** The scheme test of [urlsplit] finds no scheme in [s]. *)
Definition schemeless (s : str) : bool :=
  match Str.find (ch ":") s, s with
  | Some (S i), c0 :: _ =>
      negb (Str.is_ascii c0 && Str.is_ascii_alpha c0
            && forallb scheme_char (firstn (S i) s))
  | _, _ => true
  end.

(** What may follow the path in a URL: nothing, a query or a fragment. *)
Definition after_path (tl : str) : Prop :=
  match tl with
  | [] => True
  | x :: _ => x = ch "?" \/ x = ch "#"
  end.

(** The path [urlunsplit] writes after the two slashes. *)
Definition rooted (url : str) : str :=
  if nonempty url && negb (Str.eqb (firstn 1 url) (py "/")) then ch "/" :: url else url.

(** [urlunsplit] writes the two slashes of an empty authority. *)
Definition writes_slashes (sch url : str) : bool :=
  nonempty sch && Str.mem sch uses_netloc && negb (Str.eqb (firstn 2 url) (py "//")).

(** Every field of the query [qs] whose name decodes to [k] has an empty
    value (a field without [=] counts as one). *)
Definition blank_only (k : str) (qs : str) : bool :=
  forallb (fun f => negb (Str.eqb k (unquote_plus (field_name f)))
                    || negb (nonempty (field_value f)))
          (query_fields qs).

(** The characters a pattern can consume. *)
Fixpoint takes (r : Re.regex) (c : char) : bool :=
  match r with
  | Re.Eps | Re.WordBoundary | Re.AtEnd => false
  | Re.Lit x => c =? x
  | Re.Class ranges => Re.in_ranges ranges c
  | Re.AnyChar => negb (c =? 10)
  | Re.Seq r1 r2 | Re.Alt r1 r2 => takes r1 c || takes r2 c
  | Re.Star r1 | Re.Plus r1 | Re.Opt r1 => takes r1 c
  end.

(** A pattern without [\Z]. *)
Fixpoint no_at_end (r : Re.regex) : bool :=
  match r with
  | Re.AtEnd => false
  | Re.Eps | Re.WordBoundary | Re.Lit _ | Re.Class _ | Re.AnyChar => true
  | Re.Seq r1 r2 | Re.Alt r1 r2 => no_at_end r1 && no_at_end r2
  | Re.Star r1 | Re.Plus r1 | Re.Opt r1 => no_at_end r1
  end.

(** The character before the cursor once [pre] has been read. *)
Definition prev_after (prev : option char) (pre : str) : option char :=
  match pre with
  | [] => prev
  | _ :: _ => Some (last pre 0)
  end.

(** What a matcher has read when it calls its continuation: a prefix of
    the input made of characters that satisfy [P]. *)
Definition reads {A : Type} (P : char -> bool) (m : Re.matcher A) : Prop :=
  forall prev s k a, m prev s k = Some a ->
    exists pre s', s = pre ++ s' /\ forallb P pre = true /\
                   k (prev_after prev pre) s' = Some a.

(** Two characters before the cursor that no pattern tells apart: the
    same one, or a line feed and the start of the text. *)
Definition same_prev (p p' : option char) : Prop :=
  p = p' \/ (p = Some 10 /\ p' = None).

(** Continuations that give the same result on related characters, and
    matchers that do so when their continuations do. *)
Definition agree (R : option char -> option char -> Prop) {A : Type}
           (k k' : Re.cont A) : Prop :=
  forall q q' s', R q q' -> k q s' = k' q' s'.

Definition related (R : option char -> option char -> Prop) {A : Type}
           (m : Re.matcher A) : Prop :=
  forall p p' s k k', R p p' -> agree R k k' -> m p s k = m p' s k'.

(** On a text that goes on after a line feed the matcher does what it
    does on the text before the line feed. *)
Definition cut {A : Type} (t : str) (m : Re.matcher A) : Prop :=
  forall p s (k k' : Re.cont A),
    (forall q s', k q (s' ++ 10 :: t) = k' q s') ->
    m p (s ++ 10 :: t) k = m p s k'.

(** A pattern [r1 r2 ... rn] as what comes before its last item, and
    that item. *)
Fixpoint split_last (r : Re.regex) : Re.regex * Re.regex :=
  match r with
  | Re.Seq r1 r2 => let '(i, l) := split_last r2 in (Re.Seq r1 i, l)
  | _ => (Re.Eps, r)
  end.

(** A name without white space at either end. *)
Definition stripped (n : str) : bool :=
  match n with
  | [] => true
  | c :: _ => negb (Str.isspace c) && negb (Str.isspace (last n 0))
  end.

(** The number of occurrences of [c] in [s], [s.count(c)]. *)
Definition count (c : char) (s : str) : nat :=
  List.length (filter (N.eqb c) s).

(** The lines an input stream yields without an error. *)
Fixpoint lines_read (input_stream : list (result str)) : list str :=
  match input_stream with
  | Ok line :: rest => line :: lines_read rest
  | _ => []
  end.

(** What the loop of [redact_url_parameters] does to one entry. *)
Definition redact_entry (params_to_redact : list str) (redaction_string : str)
           (kv : str * list str) : str * list str :=
  if Str.mem (fst kv) params_to_redact then (fst kv, [redaction_string]) else kv.

(** A code point that UTF-8 encodes: below U+110000 and no surrogate. *)
Definition scalar (c : char) : bool :=
  (c <? 1114112) && negb (Utf8.is_surrogate c).

(** A dictionary whose names and values all satisfy [P]. *)
Definition dict_all (P : str -> Prop) (d : dict) : Prop :=
  Forall (fun kv => P (fst kv) /\ Forall P (snd kv)) d.

(** A candidate whose host is a bracketed literal. *)
Definition bracketed_host (url : str) : bool :=
  prefixb (py "http://[") url || prefixb (py "https://[") url.

(** The items of [url_pattern] for the port, the path, the query and the
    fragment. *)
Definition port_item : Re.regex :=
  Re.Opt (Re.seq [Re.Lit (ch ":"); Re.Plus (Re.Class digit_chars)]).
Definition path_item : Re.regex :=
  Re.Star (Re.seq [Re.Lit (ch "/"); Re.Star (Re.Class path_chars);
                   Re.AnyChar; Re.Star (Re.Class path_chars)]).
Definition query_item : Re.regex :=
  Re.Opt (Re.seq [Re.Lit (ch "?"); Re.Star (Re.Class query_chars);
                  Re.Star (Re.Class query_chars)]).
Definition fragment_item : Re.regex :=
  Re.Opt (Re.seq [Re.Lit (ch "#"); Re.Star (Re.Class query_chars);
                  Re.Star (Re.Class query_chars)]).

(** The three removals of [urlsplit], [url.replace(b, "")] for each of
    tab, carriage return and line feed. *)
Definition strip_ctl (u : str) : str :=
  fold_left (fun u b => Str.remove b u) unsafe_url_bytes_to_remove u.

(** A character of a port as [url_pattern] has it: the colon or a digit. *)
Definition port_char (c : char) : bool :=
  (c =? ch ":") || Re.in_ranges digit_chars c.

(** A character of a netloc made of a domain name and a port: one of
    [[a-zA-Z0-9.-]] or the colon. *)
Definition net_char (c : char) : bool :=
  Re.in_ranges host_chars c || (c =? ch ":").

(** The line of the examples. *)
Definition example_line : str :=
  py "see http://example.com:8080/x/?api_key=S&y=2 now".

(** * Properties *)

(** ** Strings *)

Lemma eqb_eq : forall a b : str, Str.eqb a b = true <-> a = b.
Proof.
  unfold Str.eqb. induction a as [|x a IH]; destruct b as [|y b]; simpl; split;
    intro H; try reflexivity; try discriminate.
  - apply andb_true_iff in H. destruct H as [H1 H2].
    apply N.eqb_eq in H1. apply IH in H2. subst. reflexivity.
  - inversion H; subst. apply andb_true_iff. split.
    + apply N.eqb_refl.
    + apply IH. reflexivity.
Qed.

Lemma eqb_refl : forall a : str, Str.eqb a a = true.
Proof. intro a. apply eqb_eq. reflexivity. Qed.

Lemma eqb_neq : forall a b : str, Str.eqb a b = false <-> a <> b.
Proof.
  intros a b. split.
  - intros H E. apply eqb_eq in E. congruence.
  - intro H. destruct (Str.eqb a b) eqn:E; [|reflexivity].
    apply eqb_eq in E. contradiction.
Qed.

Lemma eqb_sym : forall a b : str, Str.eqb a b = Str.eqb b a.
Proof.
  intros a b. destruct (Str.eqb a b) eqn:E.
  - apply eqb_eq in E. subst. symmetry. apply eqb_refl.
  - symmetry. apply eqb_neq. apply eqb_neq in E. congruence.
Qed.

(** ** The matcher *)

Section MatcherFacts.

Variable plat : Platform.

Lemma orelse_some : forall (A : Type) (a b : option A) (x : A),
  Re.orelse a b = Some x -> a = Some x \/ (a = None /\ b = Some x).
Proof. intros A [y|] b x H; simpl in H; auto. Qed.

Lemma star_loop_consuming : forall (A : Type) (body : Re.matcher A),
  consuming body ->
  forall fuel k prev s a,
    Re.star_loop body fuel k prev s = Some a ->
    exists prev' s', k prev' s' = Some a /\ (List.length s' <= List.length s)%nat.
Proof.
  intros A body Hb. induction fuel as [|fuel IH]; intros k prev s a H; simpl in H.
  - exists prev, s. auto.
  - apply orelse_some in H. destruct H as [H|[_ H]].
    + apply Hb in H. destruct H as (p1 & s1 & H & Hlen).
      destruct (Nat.ltb_spec (List.length s1) (List.length s)) as [Hlt|]; [|discriminate].
      apply IH in H. destruct H as (p2 & s2 & H & Hlen2).
      exists p2, s2. split; [exact H|lia].
    + exists prev, s. auto.
Qed.

Lemma run_consuming : forall (A : Type) (r : Re.regex), consuming (@Re.run A plat r).
Proof.
  intros A. induction r; intros prev s k a H; cbn [Re.run] in H.
  - exists prev, s. auto.
  - destruct s as [|x s']; [discriminate|]. destruct (x =? c); [|discriminate].
    exists (Some x), s'. simpl. auto.
  - destruct s as [|x s']; [discriminate|]. destruct (Re.in_ranges ranges x); [|discriminate].
    exists (Some x), s'. simpl. auto.
  - destruct s as [|x s']; [discriminate|]. destruct (x =? 10); [discriminate|].
    exists (Some x), s'. simpl. auto.
  - destruct (Re.at_boundary plat prev s); [|discriminate]. exists prev, s. auto.
  - destruct s; [|discriminate]. exists prev, []. auto.
  - apply IHr1 in H. destruct H as (p1 & s1 & H & L1).
    apply IHr2 in H. destruct H as (p2 & s2 & H & L2).
    exists p2, s2. split; [exact H|lia].
  - apply orelse_some in H. destruct H as [H|[_ H]]; [apply IHr1 in H|apply IHr2 in H]; exact H.
  - apply (star_loop_consuming _ _ IHr) in H. exact H.
  - apply IHr in H. destruct H as (p1 & s1 & H & L1).
    apply (star_loop_consuming _ _ IHr) in H. destruct H as (p2 & s2 & H & L2).
    exists p2, s2. split; [exact H|lia].
  - apply orelse_some in H. destruct H as [H|[_ H]].
    + apply IHr in H. exact H.
    + exists prev, s. auto.
Qed.

Lemma run_seq_cons : forall (A : Type) r r' rs prev s (k : Re.cont A),
  Re.run plat (Re.seq (r :: r' :: rs)) prev s k =
  Re.run plat r prev s (fun p s' => Re.run plat (Re.seq (r' :: rs)) p s' k).
Proof. reflexivity. Qed.

(** A literal string matches itself and nothing else. *)
Lemma run_lits : forall (A : Type) (w : str) prev s (k : Re.cont A) a,
  w <> [] ->
  Re.run plat (Re.lits w) prev s k = Some a ->
  exists s', s = w ++ s' /\ k (Some (last w 0)) s' = Some a.
Proof.
  intros A w. unfold Re.lits. induction w as [|c w IH]; intros prev s k a Hne H; [congruence|].
  destruct w as [|c' w].
  - simpl in H. destruct s as [|x s']; [discriminate|].
    destruct (N.eqb_spec x c); [|discriminate]. subst. exists s'. auto.
  - change (map Re.Lit (c :: c' :: w)) with (Re.Lit c :: Re.Lit c' :: map Re.Lit w) in H.
    rewrite run_seq_cons in H. simpl Re.run at 1 in H.
    destruct s as [|x s']; [discriminate|].
    destruct (N.eqb_spec x c); [|discriminate]. subst.
    apply IH in H; [|discriminate]. destruct H as (s'' & -> & H).
    exists s''. split; [reflexivity|exact H].
Qed.

(** Every match of [url_pattern] starts with the scheme and is not empty. *)
Lemma url_pattern_scheme : forall prev s n,
  Re.match_here plat url_pattern prev s = Some n ->
  (prefixb (py "http://") s = true \/ prefixb (py "https://") s = true) /\ (0 < n)%nat.
Proof.
  intros prev s n H. unfold Re.match_here, url_pattern in H.
  rewrite run_seq_cons in H. cbn [Re.run] in H.
  destruct (Re.at_boundary plat prev s); [|discriminate].
  rewrite run_seq_cons in H.
  apply run_lits in H; [|discriminate]. destruct H as (s1 & -> & H).
  rewrite run_seq_cons in H. cbn [Re.run] in H.
  apply orelse_some in H.
  assert (Hrest : forall p s2,
    Re.run plat (Re.seq (Re.lits (py "://") :: 
       Re.Alt (Re.Plus (Re.Class host_chars))
           (Re.seq [Re.Lit (ch "["); Re.Plus (Re.Class ipv6_chars); Re.Lit (ch "]")]) ::
       Re.Opt (Re.seq [Re.Lit (ch ":"); Re.Plus (Re.Class digit_chars)]) ::
       Re.Star (Re.seq [Re.Lit (ch "/"); Re.Star (Re.Class path_chars);
                     Re.AnyChar; Re.Star (Re.Class path_chars)]) ::
       Re.Opt (Re.seq [Re.Lit (ch "?"); Re.Star (Re.Class query_chars);
                    Re.Star (Re.Class query_chars)]) ::
       Re.Opt (Re.seq [Re.Lit (ch "#"); Re.Star (Re.Class query_chars);
                    Re.Star (Re.Class query_chars)]) ::
       [Re.WordBoundary])) p s2
      (fun (_ : option char) (s' : str) =>
         Some (List.length (py "http" ++ s1) - List.length s')%nat) = Some n ->
    (exists s3, s2 = py "://" ++ s3) /\ (List.length s2 <= List.length s1 -> 0 < n)%nat).
  { clear H. intros p s2 H2. rewrite run_seq_cons in H2.
    apply run_lits in H2; [|discriminate]. destruct H2 as (s3 & -> & H2).
    split; [eauto|]. intro Hl.
    apply run_consuming in H2. destruct H2 as (p' & s' & H2 & L).
    assert (Hn : n = (List.length (py "http" ++ s1) - List.length s')%nat) by congruence.
    rewrite Hn. rewrite length_app in Hl. rewrite length_app.
    change (List.length (py "://")) with 3%nat in Hl.
    change (List.length (py "http")) with 4%nat. lia. }
  destruct H as [H|[_ H]].
  - destruct s1 as [|x s2]; [discriminate|].
    destruct (N.eqb_spec x (ch "s")); [|discriminate]. subst x.
    apply Hrest in H. destruct H as [(s3 & ->) Hn]. split.
    + right. reflexivity.
    + apply Hn. simpl. lia.
  - apply Hrest in H. destruct H as [(s3 & ->) Hn]. split.
    + left. reflexivity.
    + apply Hn. lia.
Qed.

End MatcherFacts.

(** ** Scanning a line: [sub] against [finditer] *)

Lemma skipn_cons_inv : forall (A : Type) (pos : nat) (line : list A) (c : A) (s' : list A),
  skipn pos line = c :: s' ->
  skipn (S pos) line = s' /\ nth_error line pos = Some c /\ (pos < List.length line)%nat.
Proof.
  intros A. induction pos as [|pos IH]; intros line c s' H.
  - destruct line as [|x line]; [discriminate|]. simpl in H. injection H as -> ->.
    simpl. repeat split. lia.
  - destruct line as [|x line]; [discriminate|]. simpl in H. apply IH in H.
    destruct H as (H1 & H2 & H3). simpl. repeat split; auto. lia.
Qed.

Lemma skipn_nil_inv : forall (A : Type) (pos : nat) (line : list A),
  skipn pos line = [] -> (List.length line <= pos)%nat.
Proof.
  intros A. induction pos as [|pos IH]; intros [|x line] H; simpl in *; try lia.
  - discriminate.
  - apply IH in H. lia.
Qed.

Section ScanFacts.

Variable plat : Platform.
Variable r : Re.regex.
Variable repl : str -> str.

Lemma match_here_le : forall prev s n,
  Re.match_here plat r prev s = Some n -> (n <= List.length s)%nat.
Proof.
  intros prev s n H. unfold Re.match_here in H. apply run_consuming in H.
  destruct H as (p' & s' & H & L). injection H as <-. lia.
Qed.

Lemma spans_from_head : forall s skip pos prev,
  match Re.spans_from plat r skip pos prev s with
  | [] => True
  | (a, b) :: _ => (pos + skip <= a /\ a <= b)%nat
  end.
Proof.
  induction s as [|c s IH]; intros skip pos prev.
  - destruct skip; simpl; [|exact I].
    destruct (Re.match_here plat r prev []); [lia|exact I].
  - destruct skip as [|skip]; simpl.
    + destruct (Re.match_here plat r prev (c :: s)); [lia|].
      specialize (IH O (S pos) (Some c)).
      destruct (Re.spans_from plat r 0 (S pos) (Some c) s) as [|[a b] l]; [exact I|lia].
    + specialize (IH skip (S pos) (Some c)).
      destruct (Re.spans_from plat r skip (S pos) (Some c) s) as [|[a b] l]; [exact I|lia].
Qed.

Lemma splice_cons : forall c s pos spans,
  match spans with
  | [] => True
  | (a, b) :: _ => (S pos <= a /\ a <= b)%nat
  end ->
  splice repl (c :: s) pos spans = c :: splice repl s (S pos) spans.
Proof.
  intros c s pos [|[a b] rest] H; simpl splice; [reflexivity|].
  replace (a - pos)%nat with (S (a - S pos)) by lia.
  replace (b - pos)%nat with (S (b - S pos)) by lia.
  reflexivity.
Qed.

(** [sub] replaces exactly the spans [finditer] reports. *)
Lemma sub_from_splice : forall s skip pos prev,
  Re.sub_from plat r repl skip prev s =
  splice repl (skipn skip s) (pos + skip) (Re.spans_from plat r skip pos prev s).
Proof.
  induction s as [|c s IH]; intros skip pos prev.
  - destruct skip as [|skip]; simpl; [|reflexivity].
    destruct (Re.match_here plat r prev []) as [n|]; cbn [splice skipn]; [|reflexivity].
    rewrite !firstn_nil, !skipn_nil, !firstn_nil. reflexivity.
  - destruct skip as [|skip].
    + cbn [Re.sub_from Re.spans_from skipn].
      destruct (Re.match_here plat r prev (c :: s)) as [n|].
      * cbn [splice]. rewrite Nat.add_0_r, Nat.sub_diag. cbn [firstn skipn app].
        replace (pos + n - pos)%nat with n by lia. f_equal.
        destruct n as [|n].
        -- cbn [skipn Nat.pred]. rewrite (IH O (S pos) (Some c)).
           cbn [skipn]. rewrite Nat.add_0_r.
           rewrite splice_cons.
           ++ rewrite Nat.add_0_r. reflexivity.
           ++ pose proof (spans_from_head s O (S pos) (Some c)) as Hh.
              destruct (Re.spans_from plat r 0 (S pos) (Some c) s) as [|[a b] l]; [exact I|lia].
        -- cbn [skipn Nat.pred]. rewrite (IH n (S pos) (Some c)).
           replace (S pos + n)%nat with (pos + S n)%nat by lia. reflexivity.
      * rewrite (IH O (S pos) (Some c)). cbn [skipn]. rewrite !Nat.add_0_r.
        rewrite splice_cons; [reflexivity|].
        pose proof (spans_from_head s O (S pos) (Some c)) as Hh.
        destruct (Re.spans_from plat r 0 (S pos) (Some c) s) as [|[a b] l]; [exact I|lia].
    + cbn [Re.sub_from Re.spans_from skipn]. rewrite (IH skip (S pos) (Some c)).
      replace (S pos + skip)%nat with (pos + S skip)%nat by lia. reflexivity.
Qed.

Lemma sub_splice : forall line,
  Re.sub plat r repl line = splice repl line 0 (Re.finditer plat r line).
Proof.
  intro line. unfold Re.sub, Re.finditer.
  rewrite (sub_from_splice line O O None). reflexivity.
Qed.

(** No match is empty. *)
Hypothesis match_nonempty : forall prev s n,
  Re.match_here plat r prev s = Some n -> (0 < n)%nat.

Lemma scan_spans_step : forall line pos spans,
  match_at plat r line pos = None ->
  scan_spans plat r line (S pos) spans ->
  scan_spans plat r line pos spans.
Proof.
  intros line pos [|[a b] rest] Hnone H; simpl in *.
  - intros i Hi. destruct (Nat.eq_dec i pos) as [->|Hne]; [exact Hnone|].
    apply H. lia.
  - destruct H as (Hb & Hbefore & Hm & Hrest). repeat split; try lia; auto.
    intros i Hi. destruct (Nat.eq_dec i pos) as [->|Hne]; [exact Hnone|].
    apply Hbefore. lia.
Qed.

Lemma spans_from_scan : forall line s skip pos prev,
  skipn pos line = s ->
  prev = prev_at line pos ->
  scan_spans plat r line (pos + skip) (Re.spans_from plat r skip pos prev s).
Proof.
  intros line. induction s as [|c s IH]; intros skip pos prev Hs Hp.
  - apply skipn_nil_inv in Hs as Hlen.
    destruct skip as [|skip]; simpl.
    + destruct (Re.match_here plat r prev []) as [n|] eqn:Hm.
      * apply match_nonempty in Hm as Hn. apply match_here_le in Hm. simpl in Hm. lia.
      * simpl. intros i Hi. assert (i = pos) by lia. subst i.
        unfold match_at. rewrite Hs, <- Hp. exact Hm.
    + intros i Hi. lia.
  - apply skipn_cons_inv in Hs as Hc. destruct Hc as (Hs' & Hnth & Hlt).
    assert (Hp' : Some c = prev_at line (S pos)) by (simpl; auto).
    destruct skip as [|skip]; cbn [Re.spans_from].
    + destruct (Re.match_here plat r prev (c :: s)) as [n|] eqn:Hm.
      * apply match_nonempty in Hm as Hn. apply match_here_le in Hm as Hle.
        assert (Hlen : List.length (c :: s) = (List.length line - pos)%nat)
          by (rewrite <- Hs; apply length_skipn).
        cbn [scan_spans]. rewrite Nat.add_0_r. split; [lia|split; [|split]].
        -- intros i Hi. lia.
        -- unfold match_at. rewrite Hs, <- Hp, Hm. f_equal. lia.
        -- specialize (IH (Nat.pred n) (S pos) (Some c) Hs' Hp').
           replace (S pos + Nat.pred n)%nat with (pos + n)%nat in IH by lia. exact IH.
      * rewrite Nat.add_0_r. apply scan_spans_step.
        -- unfold match_at. rewrite Hs, <- Hp. exact Hm.
        -- specialize (IH O (S pos) (Some c) Hs' Hp'). rewrite Nat.add_0_r in IH. exact IH.
    + specialize (IH skip (S pos) (Some c) Hs' Hp').
      replace (pos + S skip)%nat with (S pos + skip)%nat by lia. exact IH.
Qed.

Lemma finditer_scan : forall line,
  scan_spans plat r line 0 (Re.finditer plat r line).
Proof.
  intro line. unfold Re.finditer.
  apply (spans_from_scan line line O O None); reflexivity.
Qed.

End ScanFacts.

(** A line without the text of a scheme has no candidate. *)
Lemma no_scheme_no_spans : forall plat s skip pos prev,
  contains (py "http://") s = false ->
  contains (py "https://") s = false ->
  Re.spans_from plat url_pattern skip pos prev s = [].
Proof.
  intros plat. induction s as [|c s IH]; intros skip pos prev H1 H2.
  - destruct skip; simpl; [|reflexivity].
    destruct (Re.match_here plat url_pattern prev []) as [n|] eqn:Hm; [|reflexivity].
    apply url_pattern_scheme in Hm. destruct Hm as [[Hm|Hm] _]; discriminate.
  - cbn [contains] in H1, H2. apply orb_false_iff in H1, H2.
    destruct H1 as [P1 C1], H2 as [P2 C2].
    destruct skip as [|skip]; cbn [Re.spans_from].
    + destruct (Re.match_here plat url_pattern prev (c :: s)) as [n|] eqn:Hm.
      * apply url_pattern_scheme in Hm. destruct Hm as [[Hm|Hm] _]; congruence.
      * apply IH; assumption.
    + apply IH; assumption.
Qed.

(** After the scheme a match holds [://] and the first character of a host. *)
Lemma run_host : forall (A : Type) plat r rs prev s (k : Re.cont A) a,
  Re.run plat
    (Re.seq (Re.lits (py "://") ::
             Re.Alt (Re.Plus (Re.Class host_chars))
                    (Re.seq [Re.Lit (ch "["); Re.Plus (Re.Class ipv6_chars);
                             Re.Lit (ch "]")]) :: r :: rs)) prev s k = Some a ->
  exists h s1 prev' s',
    s = py "://" ++ h :: s1 /\ host_start h = true /\
    k prev' s' = Some a /\ (List.length s' <= List.length s1)%nat.
Proof.
  intros A plat r rs prev s k a H. rewrite run_seq_cons in H.
  apply run_lits in H; [|discriminate]. destruct H as (s0 & -> & H).
  rewrite run_seq_cons in H. cbn [Re.run] in H.
  apply orelse_some in H. destruct H as [H|[_ H]].
  - destruct s0 as [|h s1]; [discriminate|].
    destruct (Re.in_ranges host_chars h) eqn:Eh; [|discriminate].
    apply (star_loop_consuming _ _ (run_consuming plat _ (Re.Class host_chars))) in H.
    destruct H as (p1 & t1 & H & L1).
    apply run_consuming in H. destruct H as (p2 & t2 & H & L2).
    exists h, s1, p2, t2. unfold host_start. rewrite Eh.
    split; [reflexivity|]. split; [reflexivity|]. split; [exact H|lia].
  - rewrite run_seq_cons in H. cbn [Re.run] in H.
    destruct s0 as [|h s1]; [discriminate|].
    destruct (N.eqb_spec h (ch "[")) as [->|]; [|discriminate].
    apply run_consuming in H. destruct H as (p1 & t1 & H & L1).
    apply run_consuming in H. destruct H as (p2 & t2 & H & L2).
    exists (ch "["), s1, p2, t2.
    split; [reflexivity|]. split; [reflexivity|]. split; [exact H|lia].
Qed.

(** Every match of [url_pattern] is a scheme, [://] and then a host
    character or an opening bracket. *)
Lemma url_pattern_host : forall plat prev s n,
  Re.match_here plat url_pattern prev s = Some n ->
  exists sch h rest,
    (sch = py "http" \/ sch = py "https") /\ host_start h = true /\
    firstn n s = sch ++ py "://" ++ h :: rest.
Proof.
  intros plat prev s n H. unfold Re.match_here, url_pattern in H.
  rewrite run_seq_cons in H. cbn [Re.run] in H.
  destruct (Re.at_boundary plat prev s); [|discriminate].
  rewrite run_seq_cons in H.
  apply run_lits in H; [|discriminate]. destruct H as (s1 & -> & H).
  rewrite run_seq_cons in H. cbn [Re.run] in H.
  apply orelse_some in H. destruct H as [H|[_ H]].
  - destruct s1 as [|x s2]; [discriminate|].
    destruct (N.eqb_spec x (ch "s")) as [->|]; [|discriminate].
    apply run_host in H. destruct H as (h & s3 & p' & s' & -> & Hh & H & L).
    exists (py "https"), h, (firstn (List.length s3 - List.length s') s3).
    split; [right; reflexivity|]. split; [exact Hh|].
    assert (Hn : n = (List.length (py "http" ++ ch "s" :: py "://" ++ h :: s3) - List.length s')%nat) by congruence. subst n. clear H.
    change (py "http" ++ ch "s" :: py "://" ++ h :: s3)
      with (py "https://" ++ h :: s3).
    change (py "https" ++ py "://" ++ h :: firstn (List.length s3 - List.length s') s3)
      with (py "https://" ++ h :: firstn (List.length s3 - List.length s') s3).
    rewrite length_app. cbn [List.length].
    change (List.length (py "https://")) with 8%nat.
    replace (8 + S (List.length s3) - List.length s')%nat
      with (8 + S (List.length s3 - List.length s'))%nat by lia.
    reflexivity.
  - apply run_host in H. destruct H as (h & s3 & p' & s' & -> & Hh & H & L).
    exists (py "http"), h, (firstn (List.length s3 - List.length s') s3).
    split; [left; reflexivity|]. split; [exact Hh|].
    assert (Hn : n = (List.length (py "http" ++ py "://" ++ h :: s3) - List.length s')%nat) by congruence. subst n. clear H.
    change (py "http" ++ py "://" ++ h :: s3) with (py "http://" ++ h :: s3).
    change (py "http" ++ py "://" ++ h :: firstn (List.length s3 - List.length s') s3)
      with (py "http://" ++ h :: firstn (List.length s3 - List.length s') s3).
    rewrite length_app. cbn [List.length].
    change (List.length (py "http://")) with 7%nat.
    replace (7 + S (List.length s3) - List.length s')%nat
      with (7 + S (List.length s3 - List.length s'))%nat by lia.
    reflexivity.
Qed.

Lemma scan_spans_In : forall plat r line spans pos a b,
  scan_spans plat r line pos spans -> In (a, b) spans ->
  match_at plat r line a = Some (b - a)%nat.
Proof.
  intros plat r line. induction spans as [|[a' b'] rest IH]; intros pos a b H Hin.
  - contradiction.
  - cbn [scan_spans] in H. destruct H as (_ & _ & Hm & Hrest).
    destruct Hin as [E|Hin].
    + injection E as -> ->. exact Hm.
    + apply (IH b' a b Hrest Hin).
Qed.

(** ** The locator and the substitution: claims C5, C6 and C7 *)

(** C6: a line in which the URL pattern matches nowhere, in particular a
    line that contains neither [http://] nor [https://], is returned by
    [process_line] character for character. *)
Theorem C6_line_without_url_unchanged : forall plat line params_to_redact redaction_string,
  candidates plat line = [] \/
  (contains (py "http://") line = false /\ contains (py "https://") line = false) ->
  process_line plat line params_to_redact redaction_string = line.
Proof.
  intros plat line P T H. unfold process_line. rewrite sub_splice.
  assert (Hc : Re.finditer plat url_pattern line = []).
  { destruct H as [H|[H1 H2]]; [exact H|].
    unfold Re.finditer. apply no_scheme_no_spans; assumption. }
  rewrite Hc. reflexivity.
Qed.

Lemma C6_witness :
  process_line ascii_platform (py "No links here.") [py "api_key"] (py "REDACTED")
  = py "No links here.".
Proof.
  apply (C6_line_without_url_unchanged ascii_platform (py "No links here.")).
  right. split; reflexivity.
Defined.

(** C7 fails on the code, on "maximal", through the same slip as C5: the
    unescaped [.] of the path component takes the [?], after which the
    path classes stop at [=].  In [http://a/b?c=d] the candidate is
    [http://a/b?c], although the pattern matches the whole line from the
    same start; so [c] is not redacted and the line comes out as
    [http://a/b=d], where redacting the whole line gives
    [http://a/b?c=REDACTED]. *)
Lemma C7_candidate_not_maximal :
  candidates ascii_platform (py "http://a/b?c=d") = [(0, 12)%nat] /\
  Re.matches_span ascii_platform url_pattern None (py "http://a/b?c=d") 14 = true /\
  process_line ascii_platform (py "http://a/b?c=d") [py "c"] (py "REDACTED")
  = py "http://a/b=d" /\
  redact_url_parameters ascii_platform (py "http://a/b?c=d") [py "c"] (py "REDACTED")
  = py "http://a/b?c=REDACTED".
Proof. repeat split; vm_compute; reflexivity. Qed.

(** C5 fails on the code: the [.] of the path component is the wildcard of
    [re], so a candidate's path takes in a character of any kind.  In
    [see http://example.com/x y] the candidate is [http://example.com/x y],
    whose path [/x y] holds a space; and in the first scenario of the
    specification the candidate stops inside the query, so that the secret
    stays in the line. *)
Lemma C5_path_takes_any_character :
  candidates ascii_platform (py "see http://example.com/x y") = [(4, 26)%nat] /\
  urlparse ascii_platform (py "http://example.com/x y")
  = Ok (mkParse (py "http") (py "example.com") (py "/x y") [] [] []) /\
  Re.in_ranges path_chars (ch " ") = false /\
  process_line ascii_platform
    (py "Visit https://example.com/path?api_key=SECRET123&x=1 now")
    [py "api_key"] (py "REDACTED")
  = py "Visit https://example.com/path=SECRET123&x=1 now".
Proof. repeat split; vm_compute; reflexivity. Qed.

(** ** The fallback of [redact_url_parameters]: claim C2 *)

(** C2: when [urlparse] raises, the original string is returned as it is,
    and one record is logged (through [logging.error]) and nothing else
    happens. *)
Theorem C2_parse_failure_returns_url : forall plat url params_to_redact redaction_string e,
  urlparse plat url = Raise e ->
  redact_url_parameters plat url params_to_redact redaction_string = url /\
  redact_url_parameters_logged plat url params_to_redact redaction_string
  = (url, [mkLog ERROR url e]).
Proof.
  intros plat url P T e H.
  unfold redact_url_parameters, redact_url_parameters_logged, redact_try.
  rewrite H. simpl. split; reflexivity.
Qed.

Lemma C2_witness :
  redact_url_parameters ascii_platform (py "https://bad]url?api_key=x")
    [py "api_key"] (py "REDACTED")
  = py "https://bad]url?api_key=x" /\
  redact_url_parameters_logged ascii_platform (py "https://bad]url?api_key=x")
    [py "api_key"] (py "REDACTED")
  = (py "https://bad]url?api_key=x",
     [mkLog ERROR (py "https://bad]url?api_key=x") (ValueError "Invalid IPv6 URL")]).
Proof.
  apply (C2_parse_failure_returns_url ascii_platform (py "https://bad]url?api_key=x")).
  reflexivity.
Defined.

(** ** More on strings: searching, splitting and joining *)

Lemma elem_In : forall c s, Str.elem c s = true <-> In c s.
Proof.
  intros c s. unfold Str.elem. rewrite existsb_exists. split.
  - intros (x & Hx & E). apply N.eqb_eq in E. subst. exact Hx.
  - intro H. exists c. split; [exact H|apply N.eqb_refl].
Qed.

Lemma elem_false : forall c s, Str.elem c s = false <-> ~ In c s.
Proof.
  intros c s. rewrite <- elem_In. destruct (Str.elem c s); split; intro H; congruence.
Qed.

Lemma elem_app : forall c a b, Str.elem c (a ++ b) = Str.elem c a || Str.elem c b.
Proof. intros. unfold Str.elem. apply existsb_app. Qed.

Lemma elem_cons : forall c x s, Str.elem c (x :: s) = (c =? x) || Str.elem c s.
Proof. reflexivity. Qed.

Lemma find_none : forall c s, Str.find c s = None <-> Str.elem c s = false.
Proof.
  intros c. induction s as [|x s IH]; simpl.
  - split; reflexivity.
  - rewrite (N.eqb_sym c x). destruct (x =? c); simpl.
    + split; discriminate.
    + destruct (Str.find c s); rewrite <- IH; split; congruence.
Qed.

Lemma find_app : forall c a b,
  Str.elem c a = false -> Str.find c (a ++ c :: b) = Some (List.length a).
Proof.
  intros c. induction a as [|x a IH]; intros b H; simpl.
  - rewrite N.eqb_refl. reflexivity.
  - rewrite elem_cons in H. apply orb_false_iff in H. destruct H as [H1 H2].
    rewrite N.eqb_sym in H1. rewrite H1, IH by exact H2. reflexivity.
Qed.

Lemma find_some : forall c s i,
  Str.find c s = Some i ->
  s = firstn i s ++ c :: skipn (S i) s /\ Str.elem c (firstn i s) = false
  /\ (i < List.length s)%nat.
Proof.
  intros c. induction s as [|x s IH]; intros i H; simpl in H; [discriminate|].
  destruct (N.eqb_spec x c) as [->|Hne].
  - injection H as <-. simpl. repeat split. lia.
  - destruct (Str.find c s) as [j|] eqn:Hf; [|discriminate]. injection H as <-.
    destruct (IH j eq_refl) as (E & Hn & Hl). simpl. split; [|split].
    + f_equal. exact E.
    + apply orb_false_iff. split; [|exact Hn]. apply N.eqb_neq. congruence.
    + lia.
Qed.

Lemma skipn_S_app : forall (A : Type) (a : list A) (c : A) (b : list A),
  skipn (S (List.length a)) (a ++ c :: b) = b.
Proof. intros A. induction a as [|x a IH]; intros c b; [reflexivity|apply IH]. Qed.

Lemma firstn_length_app : forall (A : Type) (a b : list A),
  firstn (List.length a) (a ++ b) = a.
Proof.
  intros A a b. rewrite firstn_app, Nat.sub_diag, firstn_all. simpl. apply app_nil_r.
Qed.

Lemma partition_app : forall c a b,
  Str.elem c a = false -> Str.partition c (a ++ c :: b) = (a, true, b).
Proof.
  intros c a b H. unfold Str.partition. rewrite find_app by exact H.
  rewrite firstn_length_app, skipn_S_app. reflexivity.
Qed.

Lemma partition_none : forall c s,
  Str.elem c s = false -> Str.partition c s = (s, false, []).
Proof.
  intros c s H. unfold Str.partition. apply find_none in H. rewrite H. reflexivity.
Qed.

Lemma split_once_app : forall c a b,
  Str.elem c a = false -> split_once c (a ++ c :: b) = (a, b).
Proof.
  intros c a b H. unfold split_once. rewrite elem_app, elem_cons, N.eqb_refl, orb_true_r.
  rewrite partition_app by exact H. reflexivity.
Qed.

Lemma split_once_none : forall c s,
  Str.elem c s = false -> split_once c s = (s, []).
Proof. intros c s H. unfold split_once. rewrite H. reflexivity. Qed.

(** The two pieces [split_once] returns, put back together. *)
Lemma split_once_spec : forall c s a b,
  split_once c s = (a, b) ->
  Str.elem c a = false /\
  ((Str.elem c s = true /\ s = a ++ c :: b) \/ (Str.elem c s = false /\ s = a /\ b = [])).
Proof.
  intros c s a b H. unfold split_once in H.
  destruct (Str.elem c s) eqn:E.
  - unfold Str.partition in H. destruct (Str.find c s) as [i|] eqn:F.
    + injection H as <- <-. apply find_some in F. destruct F as (F1 & F2 & _).
      split; [exact F2|]. left. split; [reflexivity|exact F1].
    + apply find_none in F. congruence.
  - injection H as <- <-. split; [exact E|]. right. auto.
Qed.

Lemma split_nonempty : forall c s, Str.split c s <> [].
Proof.
  intros c [|x s]; simpl; [discriminate|].
  destruct (x =? c); [discriminate|]. destruct (Str.split c s); discriminate.
Qed.

Lemma split_no_sep : forall c s, Str.elem c s = false -> Str.split c s = [s].
Proof.
  intros c. induction s as [|x s IH]; intro H; simpl; [reflexivity|].
  rewrite elem_cons in H. apply orb_false_iff in H. destruct H as [H1 H2].
  rewrite N.eqb_sym in H1. rewrite H1, IH by exact H2. reflexivity.
Qed.

Lemma split_app : forall c a b,
  Str.elem c a = false -> Str.split c (a ++ c :: b) = a :: Str.split c b.
Proof.
  intros c. induction a as [|x a IH]; intros b H; simpl.
  - rewrite N.eqb_refl. reflexivity.
  - rewrite elem_cons in H. apply orb_false_iff in H. destruct H as [H1 H2].
    rewrite N.eqb_sym in H1. rewrite H1, IH by exact H2. reflexivity.
Qed.

Lemma split_join : forall c l,
  l <> [] -> Forall (fun p => Str.elem c p = false) l ->
  Str.split c (Str.join [c] l) = l.
Proof.
  intros c. induction l as [|p l IH]; intros Hne H; [congruence|].
  inversion H as [|? ? Hp Hl]; subst.
  destruct l as [|p' l].
  - simpl. apply split_no_sep. exact Hp.
  - change (Str.join [c] (p :: p' :: l)) with (p ++ c :: Str.join [c] (p' :: l)).
    rewrite split_app by exact Hp. f_equal. apply IH; [discriminate|exact Hl].
Qed.

Lemma join_nil_inv : forall sep l,
  Forall (fun p => p <> []) l -> Str.join sep l = [] -> l = [].
Proof.
  intros sep [|p l] H E; [reflexivity|]. inversion H as [|? ? Hp Hl]; subst.
  destruct l; simpl in E.
  - congruence.
  - apply app_eq_nil in E. destruct E. congruence.
Qed.

Lemma mem_In : forall p l, Str.mem p l = true <-> In p l.
Proof.
  intros p l. unfold Str.mem. rewrite existsb_exists. split.
  - intros (x & Hx & E). apply eqb_eq in E. subst. exact Hx.
  - intro H. exists p. split; [exact H|apply eqb_refl].
Qed.

Lemma mem_false : forall p l, Str.mem p l = false <-> ~ In p l.
Proof.
  intros p l. rewrite <- mem_In. destruct (Str.mem p l); split; intro H; congruence.
Qed.

(** ** The UTF-8 codec: decoding undoes encoding *)

Ltac nlia := zify; Z.to_euclidean_division_equations; lia.

(** Settle the comparisons of a goal from the bounds in the context. *)
Ltac decide_tests :=
  repeat match goal with
    | |- context [?a <? ?b] =>
        first [ replace (a <? b) with true by (symmetry; apply N.ltb_lt; lia)
              | replace (a <? b) with false by (symmetry; apply N.ltb_ge; lia) ]
    | |- context [?a <=? ?b] =>
        first [ replace (a <=? b) with true by (symmetry; apply N.leb_le; lia)
              | replace (a <=? b) with false by (symmetry; apply N.leb_gt; lia) ]
    | |- context [?a =? ?b] =>
        first [ replace (a =? b) with true by (symmetry; apply N.eqb_eq; lia)
              | replace (a =? b) with false by (symmetry; apply N.eqb_neq; lia) ]
    end.

Lemma decode_1 : forall b r, b < 128 -> Utf8.decode (b :: r) = b :: Utf8.decode r.
Proof. intros b r H. cbn [Utf8.decode]. decide_tests. reflexivity. Qed.

Lemma decode_2 : forall b0 b1 r,
  194 <= b0 < 224 -> 128 <= b1 < 192 ->
  Utf8.decode (b0 :: b1 :: r) = (b0 * 64 + b1 - 12416) :: Utf8.decode r.
Proof.
  intros b0 b1 r H0 H1. cbn [Utf8.decode]. unfold Utf8.is_cont.
  decide_tests. reflexivity.
Qed.

Lemma decode_3 : forall b0 b1 b2 r,
  224 <= b0 < 240 -> 128 <= b1 < 192 -> 128 <= b2 < 192 ->
  (b0 = 224 -> 160 <= b1) -> (b0 = 237 -> b1 < 160) ->
  Utf8.decode (b0 :: b1 :: b2 :: r) = (b0 * 4096 + b1 * 64 + b2 - 925824) :: Utf8.decode r.
Proof.
  intros b0 b1 b2 r H0 H1 H2 Hlo Hhi.
  assert (T : (if b1 <? 160 then b0 =? 224 else b0 =? 237) = false).
  { destruct (N.ltb_spec b1 160); apply N.eqb_neq; intro E;
      [apply Hlo in E|apply Hhi in E]; lia. }
  cbn [Utf8.decode]. unfold Utf8.is_cont. rewrite T. clear T Hlo Hhi.
  decide_tests. reflexivity.
Qed.

Lemma decode_4 : forall b0 b1 b2 b3 r,
  240 <= b0 < 245 -> 128 <= b1 < 192 -> 128 <= b2 < 192 -> 128 <= b3 < 192 ->
  (b0 = 240 -> 144 <= b1) -> (b0 = 244 -> b1 < 144) ->
  Utf8.decode (b0 :: b1 :: b2 :: b3 :: r)
  = (b0 * 262144 + b1 * 4096 + b2 * 64 + b3 - 63447168) :: Utf8.decode r.
Proof.
  intros b0 b1 b2 b3 r H0 H1 H2 H3 Hlo Hhi.
  assert (T : (if b1 <? 144 then b0 =? 240 else b0 =? 244) = false).
  { destruct (N.ltb_spec b1 144); apply N.eqb_neq; intro E;
      [apply Hlo in E|apply Hhi in E]; lia. }
  cbn [Utf8.decode]. unfold Utf8.is_cont. rewrite T. clear T Hlo Hhi.
  decide_tests. reflexivity.
Qed.

Lemma Ok_inj : forall (A : Type) (a b : A), Ok a = Ok b -> a = b.
Proof. intros A a b H. congruence. Qed.

Lemma decode_encode_char : forall c bs rest,
  Utf8.encode_char c = Ok bs -> Utf8.decode (bs ++ rest) = c :: Utf8.decode rest.
Proof.
  intros c bs rest H. unfold Utf8.encode_char, Utf8.is_surrogate in H.
  destruct (N.ltb_spec c 128).
  { apply Ok_inj in H. subst bs. apply decode_1. assumption. }
  destruct (N.ltb_spec c 2048).
  { apply Ok_inj in H. subst bs. cbn [app]. rewrite decode_2 by nlia. f_equal. nlia. }
  destruct (N.ltb_spec c 65536).
  { destruct (N.leb_spec 55296 c); destruct (N.leb_spec c 57343); cbn [andb] in H;
      try discriminate; apply Ok_inj in H; subst bs; cbn [app];
      (rewrite decode_3 by nlia); f_equal; nlia. }
  destruct (N.ltb_spec c 1114112); [|discriminate].
  apply Ok_inj in H. subst bs. cbn [app]. rewrite decode_4 by nlia. f_equal. nlia.
Qed.

Lemma decode_encode : forall s bs, Utf8.encode s = Ok bs -> Utf8.decode bs = s.
Proof.
  induction s as [|c s IH]; intros bs H; simpl in H.
  - injection H as <-. reflexivity.
  - destruct (Utf8.encode_char c) as [b|] eqn:Hc; [|discriminate]. simpl in H.
    destruct (Utf8.encode s) as [bs'|] eqn:Hs; [|discriminate]. simpl in H.
    injection H as <-. rewrite (decode_encode_char _ _ _ Hc). f_equal. apply IH. reflexivity.
Qed.

Lemma encode_char_bytes : forall c bs,
  Utf8.encode_char c = Ok bs -> Forall (fun b => b < 256) bs /\ bs <> [].
Proof.
  intros c bs H. unfold Utf8.encode_char in H.
  destruct (N.ltb_spec c 128).
  { apply Ok_inj in H. subst bs. split; [|discriminate]. repeat constructor. lia. }
  destruct (N.ltb_spec c 2048).
  { apply Ok_inj in H. subst bs. split; [|discriminate]. repeat constructor; nlia. }
  destruct (N.ltb_spec c 65536).
  { destruct (Utf8.is_surrogate c); [discriminate|]. apply Ok_inj in H. subst bs.
    split; [|discriminate]. repeat constructor; nlia. }
  destruct (N.ltb_spec c 1114112); [|discriminate].
  apply Ok_inj in H. subst bs. split; [|discriminate]. repeat constructor; nlia.
Qed.

Lemma encode_bytes : forall s bs,
  Utf8.encode s = Ok bs -> Forall (fun b => b < 256) bs /\ (s <> [] -> bs <> []).
Proof.
  induction s as [|c s IH]; intros bs H; simpl in H.
  - injection H as <-. split; [constructor|congruence].
  - destruct (Utf8.encode_char c) as [b|] eqn:Hc; [|discriminate]. simpl in H.
    destruct (Utf8.encode s) as [bs'|] eqn:Hs; [|discriminate]. simpl in H.
    injection H as <-. apply encode_char_bytes in Hc. destruct Hc as [Hb Hne].
    destruct (IH bs' eq_refl) as [Hbs _]. split.
    + apply Forall_app. auto.
    + intros _ E. apply app_eq_nil in E. destruct E. congruence.
Qed.

Lemma decode_ascii : forall bs, Str.isascii bs = true -> Utf8.decode bs = bs.
Proof.
  induction bs as [|b bs IH]; intro H; [reflexivity|].
  simpl in H. apply andb_true_iff in H. destruct H as [H1 H2].
  apply N.ltb_lt in H1. rewrite decode_1 by exact H1. f_equal. apply IH. exact H2.
Qed.

(** ** Percent-coding: [unquote] undoes [quote_plus] *)

Lemma hexval_hexdigit : forall n, n < 16 -> hexval (hexdigit n) = Some n.
Proof.
  intros n H. unfold hexval, hexdigit, Str.is_digit.
  destruct (N.ltb_spec n 10).
  - replace (48 <=? 48 + n) with true by (symmetry; apply N.leb_le; lia).
    replace (48 + n <=? 57) with true by (symmetry; apply N.leb_le; lia).
    cbn [andb]. f_equal. lia.
  - replace (55 + n <=? 57) with false by (symmetry; apply N.leb_gt; lia).
    rewrite andb_false_r.
    replace (65 <=? 55 + n) with true by (symmetry; apply N.leb_le; lia).
    replace (55 + n <=? 70) with true by (symmetry; apply N.leb_le; lia).
    cbn [andb]. f_equal. lia.
Qed.

Lemma unquote_to_bytes_plain : forall c s,
  c <> ch "%" -> unquote_to_bytes (c :: s) = c :: unquote_to_bytes s.
Proof.
  intros c s H. unfold unquote_to_bytes. cbn [Str.split].
  apply N.eqb_neq in H. rewrite H.
  pose proof (split_nonempty (ch "%") s) as Hne.
  destruct (Str.split (ch "%") s) as [|p ps]; [congruence|]. reflexivity.
Qed.

Lemma unquote_to_bytes_pct : forall h1 h2 a b s,
  hexval h1 = Some a -> hexval h2 = Some b ->
  unquote_to_bytes (ch "%" :: h1 :: h2 :: s) = (16 * a + b) :: unquote_to_bytes s.
Proof.
  intros h1 h2 a b s H1 H2.
  assert (N1 : (h1 =? ch "%") = false).
  { apply N.eqb_neq. intros ->. discriminate. }
  assert (N2 : (h2 =? ch "%") = false).
  { apply N.eqb_neq. intros ->. discriminate. }
  unfold unquote_to_bytes. cbn [Str.split]. rewrite N.eqb_refl, N1, N2.
  pose proof (split_nonempty (ch "%") s) as Hne.
  destruct (Str.split (ch "%") s) as [|p ps]; [congruence|].
  cbn [flat_map app unquote_item]. rewrite H1, H2. reflexivity.
Qed.

Lemma unquote_to_bytes_no_pct : forall s,
  Str.elem (ch "%") s = false -> unquote_to_bytes s = s.
Proof.
  intros s H. unfold unquote_to_bytes. rewrite split_no_sep by exact H.
  simpl. apply app_nil_r.
Qed.

Lemma always_safe_ascii : forall b, always_safe b = true -> b < 128.
Proof.
  intros b H. unfold always_safe, Str.is_ascii_alpha, Str.is_upper, Str.is_lower, Str.is_digit in H.
  repeat (apply orb_true_iff in H; destruct H as [H|H]);
    try (apply andb_true_iff in H; destruct H as [H1 H2];
         apply N.leb_le in H1, H2; lia);
    apply N.eqb_eq in H; subst; reflexivity.
Qed.

Section Quoting.

Variable safe : char -> bool.
Hypothesis safe_space : forall c, safe c = true -> c = ch " ".

Lemma unquote_quoter : forall b s,
  b < 256 -> unquote_to_bytes (quoter safe b ++ s) = b :: unquote_to_bytes s.
Proof.
  intros b s H. unfold quoter.
  destruct (always_safe b || safe b) eqn:E.
  - cbn [app]. apply unquote_to_bytes_plain. intros ->.
    apply orb_true_iff in E. destruct E as [E|E]; [discriminate|].
    apply safe_space in E. discriminate.
  - cbn [app]. rewrite (unquote_to_bytes_pct _ _ (b / 16) (b mod 16)).
    + f_equal. nlia.
    + apply hexval_hexdigit. nlia.
    + apply hexval_hexdigit. nlia.
Qed.

Lemma unquote_quote_from_bytes : forall bs,
  Forall (fun b => b < 256) bs -> unquote_to_bytes (quote_from_bytes safe bs) = bs.
Proof.
  unfold quote_from_bytes. induction bs as [|b bs IH]; intro H; [reflexivity|].
  inversion H; subst. cbn [flat_map]. rewrite unquote_quoter by assumption.
  f_equal. apply IH. assumption.
Qed.

Lemma hexdigit_safe : forall n, n < 16 -> always_safe (hexdigit n) = true.
Proof.
  intros n H. unfold hexdigit.
  destruct (N.ltb_spec n 10).
  - unfold always_safe, Str.is_digit.
    replace (48 <=? 48 + n) with true by (symmetry; apply N.leb_le; lia).
    replace (48 + n <=? 57) with true by (symmetry; apply N.leb_le; lia).
    simpl. rewrite orb_true_r. reflexivity.
  - unfold always_safe, Str.is_ascii_alpha, Str.is_upper.
    replace (65 <=? 55 + n) with true by (symmetry; apply N.leb_le; lia).
    replace (55 + n <=? 90) with true by (symmetry; apply N.leb_le; lia).
    reflexivity.
Qed.

Lemma quoter_chars : forall b, b < 256 -> forallb (quoted_char safe) (quoter safe b) = true.
Proof.
  intros b H. unfold quoter.
  destruct (always_safe b) eqn:E1; cbn [orb].
  - simpl. unfold quoted_char. rewrite E1. reflexivity.
  - destruct (safe b) eqn:E2.
    + simpl. unfold quoted_char. rewrite E2, orb_true_r. reflexivity.
    + cbn [forallb]. unfold quoted_char. rewrite !hexdigit_safe by nlia.
      rewrite N.eqb_refl, orb_true_r. reflexivity.
Qed.

Lemma quote_from_bytes_chars : forall bs,
  Forall (fun b => b < 256) bs -> forallb (quoted_char safe) (quote_from_bytes safe bs) = true.
Proof.
  unfold quote_from_bytes. induction bs as [|b bs IH]; intro H; [reflexivity|].
  inversion H; subst. cbn [flat_map]. rewrite forallb_app, quoter_chars, IH by assumption.
  reflexivity.
Qed.

Lemma quote_from_bytes_nonempty : forall bs,
  bs <> [] -> quote_from_bytes safe bs <> [].
Proof.
  intros [|b bs] H; [congruence|]. unfold quote_from_bytes, quoter. cbn [flat_map].
  destruct (always_safe b || safe b); discriminate.
Qed.

End Quoting.

Lemma forallb_not_elem : forall (p : char -> bool) s c,
  forallb p s = true -> p c = false -> Str.elem c s = false.
Proof.
  intros p s c H Hc. apply elem_false. intro Hin.
  rewrite forallb_forall in H. apply H in Hin. congruence.
Qed.

Lemma replace_id : forall c d s, Str.elem c s = false -> Str.replace c d s = s.
Proof.
  intros c d. induction s as [|x s IH]; intro H; [reflexivity|].
  rewrite elem_cons in H. apply orb_false_iff in H. destruct H as [H1 H2].
  simpl. rewrite N.eqb_sym, H1. f_equal. apply IH. exact H2.
Qed.

Lemma replace_replace : forall c d s,
  Str.elem d s = false -> Str.replace d c (Str.replace c d s) = s.
Proof.
  intros c d. induction s as [|x s IH]; intro H; [reflexivity|].
  rewrite elem_cons in H. apply orb_false_iff in H. destruct H as [H1 H2].
  simpl. rewrite IH by exact H2. f_equal.
  destruct (N.eqb_spec x c) as [->|Hx].
  - rewrite N.eqb_refl. reflexivity.
  - rewrite N.eqb_sym, H1. reflexivity.
Qed.

Lemma unquote_runs_ascii : forall s run,
  Str.isascii s = true ->
  unquote_runs run s = Utf8.decode (unquote_to_bytes (run ++ s)).
Proof.
  induction s as [|c s IH]; intros run H; simpl.
  - rewrite app_nil_r. reflexivity.
  - simpl in H. apply andb_true_iff in H. destruct H as [H1 H2]. rewrite H1.
    rewrite IH by exact H2. rewrite <- app_assoc. reflexivity.
Qed.

Lemma urlenc_char_ascii : forall x, urlenc_char x = true -> Str.is_ascii x = true.
Proof.
  intros x H. unfold urlenc_char in H. unfold Str.is_ascii. apply N.ltb_lt.
  apply orb_true_iff in H. destruct H as [H|H].
  - apply orb_true_iff in H. destruct H as [H|H].
    + apply always_safe_ascii. exact H.
    + apply N.eqb_eq in H. subst. reflexivity.
  - apply N.eqb_eq in H. subst. reflexivity.
Qed.

Lemma forallb_impl : forall (A : Type) (p q : A -> bool) l,
  (forall x, p x = true -> q x = true) -> forallb p l = true -> forallb q l = true.
Proof.
  intros A p q l H. rewrite !forallb_forall. intros Hp x Hx. apply H, Hp, Hx.
Qed.

(** [urllib.parse.unquote_plus(quote_plus(s)) == s]: what [parse_qsl] does
    to a name or a value that [urlencode] wrote. *)
Lemma quote_plus_spec : forall s q,
  quote_plus s = Ok q ->
  unquote_plus q = s /\ forallb urlenc_char q = true /\ (q = [] <-> s = []).
Proof.
  intros s q H. unfold quote_plus in H.
  assert (Hq : forall safe x, (forall c, safe c = true -> c = ch " ") ->
            quote safe s = Ok x ->
            unquote x = s /\ forallb (quoted_char safe) x = true /\ (x = [] <-> s = [])).
  { intros safe x Hsafe Hx. unfold quote in Hx. destruct s as [|c s].
    - apply Ok_inj in Hx. subst x. repeat split; reflexivity.
    - destruct (Utf8.encode (c :: s)) as [bs|] eqn:He; [|discriminate].
      cbn [bind] in Hx. apply Ok_inj in Hx. subst x.
      pose proof (decode_encode _ _ He) as Hd.
      apply encode_bytes in He. destruct He as [Hb Hne].
      pose proof (quote_from_bytes_chars safe bs Hb) as Hc.
      pose proof (unquote_quote_from_bytes safe Hsafe bs Hb) as Hu.
      assert (Hascii : Str.isascii (quote_from_bytes safe bs) = true).
      { unfold Str.isascii. revert Hc. apply forallb_impl. intros y Hy.
        unfold quoted_char in Hy. unfold Str.is_ascii. apply N.ltb_lt.
        apply orb_true_iff in Hy. destruct Hy as [Hy|Hy].
        - apply orb_true_iff in Hy. destruct Hy as [Hy|Hy].
          + apply always_safe_ascii. exact Hy.
          + apply Hsafe in Hy. subst. reflexivity.
        - apply N.eqb_eq in Hy. subst. reflexivity. }
      split; [|split].
      + unfold unquote. destruct (Str.elem (ch "%") (quote_from_bytes safe bs)) eqn:E; cbn [negb].
        * rewrite unquote_runs_ascii by exact Hascii. cbn [app]. rewrite Hu. exact Hd.
        * rewrite unquote_to_bytes_no_pct in Hu by exact E.
          rewrite <- Hd. rewrite <- (decode_ascii _ Hascii). f_equal. exact Hu.
      + exact Hc.
      + split; [|discriminate]. intro E.
        exfalso. apply (quote_from_bytes_nonempty safe bs); [apply Hne; discriminate|exact E]. }
  destruct (Str.elem (ch " ") s) eqn:Esp; cbn [negb] in H.
  - destruct (quote (fun c => c =? ch " ") s) as [x|] eqn:Hx; [|discriminate].
    cbn [bind] in H. apply Ok_inj in H. subst q.
    apply Hq in Hx; [|intros c Hc; apply N.eqb_eq in Hc; exact Hc].
    destruct Hx as (Hu & Hc & Hne).
    assert (Hplus : Str.elem (ch "+") x = false).
    { apply (forallb_not_elem _ _ _ Hc). reflexivity. }
    split; [|split].
    + unfold unquote_plus. rewrite replace_replace by exact Hplus. exact Hu.
    + unfold Str.replace. rewrite forallb_forall. intros y Hy.
      apply in_map_iff in Hy. destruct Hy as (z & <- & Hz).
      rewrite forallb_forall in Hc. apply Hc in Hz.
      destruct (N.eqb_spec z (ch " ")); [reflexivity|].
      unfold quoted_char in Hz. unfold urlenc_char.
      apply N.eqb_neq in n. rewrite n, orb_false_r in Hz.
      apply orb_true_iff in Hz. destruct Hz as [Hz|Hz]; rewrite Hz;
        [reflexivity|apply orb_true_r].
    + rewrite <- Hne. unfold Str.replace. split; intro E.
      * apply map_eq_nil in E. exact E.
      * subst x. reflexivity.
  - apply Hq in H; [|discriminate]. destruct H as (Hu & Hc & Hne).
    assert (Hplus : Str.elem (ch "+") q = false).
    { apply (forallb_not_elem _ _ _ Hc). reflexivity. }
    split; [|split].
    + unfold unquote_plus. rewrite replace_id by exact Hplus. exact Hu.
    + revert Hc. apply forallb_impl. intros y Hy. unfold quoted_char in Hy.
      unfold urlenc_char. rewrite orb_false_r in Hy.
      apply orb_true_iff in Hy. destruct Hy as [Hy|Hy]; rewrite Hy;
        [reflexivity|apply orb_true_r].
    + exact Hne.
Qed.

(** ** Dictionaries in insertion order *)

Lemma dict_mem_get : forall k d,
  dict_mem k d = match dict_get k d with Some _ => true | None => false end.
Proof.
  intros k. induction d as [|[k' vs] d IH]; simpl; [reflexivity|].
  destruct (Str.eqb k k'); simpl; [reflexivity|exact IH].
Qed.

Lemma dict_mem_keys : forall k d, dict_mem k d = Str.mem k (keys d).
Proof.
  intros k. induction d as [|[k' vs] d IH]; simpl; [reflexivity|].
  rewrite IH. reflexivity.
Qed.

Lemma dict_get_app : forall k d1 d2,
  dict_get k (d1 ++ d2) =
  match dict_get k d1 with Some vs => Some vs | None => dict_get k d2 end.
Proof.
  intros k. induction d1 as [|[k' vs] d1 IH]; intro d2; simpl; [reflexivity|].
  destruct (Str.eqb k k'); [reflexivity|apply IH].
Qed.

Lemma dict_set_keys : forall k vs d,
  dict_mem k d = true -> keys (dict_set k vs d) = keys d.
Proof.
  intros k vs. induction d as [|[k' vs'] d IH]; intro H; simpl in *; [discriminate|].
  destruct (Str.eqb k k'); simpl; [reflexivity|]. f_equal. apply IH. exact H.
Qed.

Lemma dict_set_absent : forall k vs d,
  dict_mem k d = false -> dict_set k vs d = d ++ [(k, vs)].
Proof.
  intros k vs. induction d as [|[k' vs'] d IH]; intro H; simpl in *; [reflexivity|].
  apply orb_false_iff in H. destruct H as [H1 H2]. rewrite H1. f_equal. apply IH. exact H2.
Qed.

Lemma dict_get_set : forall k k' vs d,
  dict_mem k d = true ->
  dict_get k' (dict_set k vs d) = if Str.eqb k' k then Some vs else dict_get k' d.
Proof.
  intros k k' vs. induction d as [|[k0 vs0] d IH]; intro H; simpl in *; [discriminate|].
  destruct (Str.eqb k k0) eqn:E.
  - apply eqb_eq in E. subst k0. simpl. destruct (Str.eqb k' k); reflexivity.
  - simpl in H. simpl. destruct (Str.eqb k' k0) eqn:E0.
    + apply eqb_eq in E0. subst k0. rewrite eqb_sym, E. reflexivity.
    + apply IH. exact H.
Qed.

Lemma dict_set_same : forall k vs d, dict_get k d = Some vs -> dict_set k vs d = d.
Proof.
  intros k vs. induction d as [|[k' vs'] d IH]; intro H; simpl in *; [discriminate|].
  destruct (Str.eqb k k'); [congruence|]. f_equal. apply IH. exact H.
Qed.

(** *** The loop of [redact_url_parameters] *)

Lemma redact_params_keys : forall P T d, keys (redact_params P T d) = keys d.
Proof.
  unfold redact_params. induction P as [|p P IH]; intros T d; simpl; [reflexivity|].
  rewrite IH. destruct (dict_mem p d) eqn:E; [|reflexivity].
  apply dict_set_keys. exact E.
Qed.

Lemma redact_params_mem : forall P T d k,
  dict_mem k (redact_params P T d) = dict_mem k d.
Proof. intros. rewrite !dict_mem_keys, redact_params_keys. reflexivity. Qed.

Lemma redact_params_get : forall P T d k,
  dict_get k (redact_params P T d) =
  if Str.mem k P then (if dict_mem k d then Some [T] else None) else dict_get k d.
Proof.
  unfold redact_params. induction P as [|p P IH]; intros T d k; simpl; [reflexivity|].
  rewrite IH. destruct (dict_mem p d) eqn:Ep.
  - rewrite (dict_mem_keys k (dict_set p [T] d)), dict_set_keys, <- dict_mem_keys by exact Ep.
    rewrite dict_get_set by exact Ep.
    destruct (Str.eqb k p) eqn:E; simpl.
    + apply eqb_eq in E. subst p. rewrite Ep. destruct (Str.mem k P); reflexivity.
    + reflexivity.
  - destruct (Str.eqb k p) eqn:E; simpl; [|reflexivity].
    apply eqb_eq in E. subst p. rewrite Ep.
    rewrite (dict_mem_get k d) in Ep. destruct (dict_get k d); [discriminate|].
    destruct (Str.mem k P); reflexivity.
Qed.

Lemma redact_params_idem : forall P T d,
  redact_params P T (redact_params P T d) = redact_params P T d.
Proof.
  intros P T d.
  assert (H : forall P' d', (forall p, In p P' -> dict_mem p d' = true -> dict_get p d' = Some [T]) ->
            redact_params P' T d' = d').
  { unfold redact_params. induction P' as [|p P' IH]; intros d' Hd; simpl; [reflexivity|].
    destruct (dict_mem p d') eqn:E.
    - rewrite dict_set_same by (apply Hd; [left; reflexivity|exact E]).
      apply IH. intros q Hq. apply Hd. right. exact Hq.
    - apply IH. intros q Hq. apply Hd. right. exact Hq. }
  apply H. intros p Hp Hm. rewrite redact_params_get.
  apply mem_In in Hp. rewrite Hp. rewrite redact_params_mem in Hm. rewrite Hm. reflexivity.
Qed.

(** When no name of the list is a key, the loop changes nothing. *)
Lemma redact_params_none : forall P T d,
  (forall p, In p P -> dict_mem p d = false) -> redact_params P T d = d.
Proof.
  unfold redact_params. induction P as [|p P IH]; intros T d H; simpl; [reflexivity|].
  rewrite (H p) by (left; reflexivity). apply IH. intros q Hq. apply H. right. exact Hq.
Qed.

(** *** The loop of [parse_qs] *)

Lemma dict_add_keys : forall d k v,
  keys (dict_add d (k, v)) = if dict_mem k d then keys d else keys d ++ [k].
Proof.
  intros d k v. unfold dict_add. rewrite (dict_mem_get k d).
  destruct (dict_get k d) as [vs|] eqn:E.
  - apply dict_set_keys. rewrite dict_mem_get, E. reflexivity.
  - rewrite dict_set_absent by (rewrite dict_mem_get, E; reflexivity).
    unfold keys. rewrite map_app. reflexivity.
Qed.

Lemma dict_add_get : forall d k v k',
  dict_get k' (dict_add d (k, v)) =
  if Str.eqb k' k
  then Some (match dict_get k d with Some vs => vs ++ [v] | None => [v] end)
  else dict_get k' d.
Proof.
  intros d k v k'. unfold dict_add. destruct (dict_get k d) as [vs|] eqn:E.
  - apply dict_get_set. rewrite dict_mem_get, E. reflexivity.
  - rewrite dict_set_absent by (rewrite dict_mem_get, E; reflexivity).
    rewrite dict_get_app. simpl. destruct (Str.eqb k' k) eqn:E'.
    + apply eqb_eq in E'. subst k'. rewrite E. reflexivity.
    + destruct (dict_get k' d); reflexivity.
Qed.

Lemma fold_dict_add_get : forall prs d k,
  dict_get k (fold_left dict_add prs d) =
  match dict_get k d, values_of k prs with
  | Some vs, vals => Some (vs ++ vals)
  | None, [] => None
  | None, vals => Some vals
  end.
Proof.
  induction prs as [|[k0 v0] prs IH]; intros d k; cbn [fold_left].
  - unfold values_of. simpl. destruct (dict_get k d); [rewrite app_nil_r|]; reflexivity.
  - rewrite IH, dict_add_get. unfold values_of. cbn [filter fst].
    destruct (Str.eqb k k0) eqn:E.
    + apply eqb_eq in E. subst k0. simpl.
      destruct (dict_get k d) as [vs|]; [rewrite <- app_assoc|]; reflexivity.
    + reflexivity.
Qed.

Lemma mem_app : forall k l1 l2, Str.mem k (l1 ++ l2) = Str.mem k l1 || Str.mem k l2.
Proof. intros. unfold Str.mem. apply existsb_app. Qed.

Lemma first_occurrences_from_ext : forall l seen seen',
  (forall k, Str.mem k seen = Str.mem k seen') ->
  first_occurrences_from seen l = first_occurrences_from seen' l.
Proof.
  induction l as [|x l IH]; intros seen seen' H; simpl; [reflexivity|].
  rewrite (H x). destruct (Str.mem x seen').
  - apply IH. exact H.
  - f_equal. apply IH. intro k. simpl. rewrite H. reflexivity.
Qed.

Lemma fold_dict_add_keys : forall prs d,
  keys (fold_left dict_add prs d) = keys d ++ first_occurrences_from (keys d) (map fst prs).
Proof.
  induction prs as [|[k v] prs IH]; intro d; cbn [fold_left map fst first_occurrences_from].
  - rewrite app_nil_r. reflexivity.
  - rewrite IH, dict_add_keys, <- dict_mem_keys.
    destruct (dict_mem k d) eqn:E; [reflexivity|].
    rewrite <- app_assoc. simpl. do 2 f_equal.
    apply first_occurrences_from_ext. intro k'.
    rewrite mem_app. simpl. rewrite orb_false_r, orb_comm. reflexivity.
Qed.

Lemma parse_qs_keys : forall qs,
  keys (parse_qs qs) = first_occurrences (map fst (parse_qsl qs)).
Proof. intro qs. unfold parse_qs. rewrite fold_dict_add_keys. reflexivity. Qed.

Lemma parse_qs_get : forall qs k,
  dict_get k (parse_qs qs) =
  match values_of k (parse_qsl qs) with
  | [] => None
  | vals => Some vals
  end.
Proof. intros qs k. unfold parse_qs. rewrite fold_dict_add_get. reflexivity. Qed.

(** ** [parse_qsl] reads back what [urlencode] wrote *)

Lemma mapM_Forall2 : forall (A B : Type) (f : A -> result B) l l',
  mapM f l = Ok l' -> Forall2 (fun a b => f a = Ok b) l l'.
Proof.
  intros A B f. induction l as [|a l IH]; intros l' H; simpl in H.
  - apply Ok_inj in H. subst. constructor.
  - destruct (f a) as [b|] eqn:Ha; [|discriminate]. cbn [bind] in H.
    destruct (mapM f l) as [bs|]; [|discriminate]. cbn [bind] in H.
    apply Ok_inj in H. subst. constructor; [exact Ha|apply IH; reflexivity].
Qed.

Lemma encode_item_spec : forall k vs fs,
  encode_item (k, vs) = Ok fs -> Forall2 encoded_pair (map (pair k) vs) fs.
Proof.
  intros k vs fs H. unfold encode_item in H.
  destruct (quote_plus k) as [k'|] eqn:Hk; [|discriminate]. cbn [bind] in H.
  apply mapM_Forall2 in H. induction H as [|v f vs fs Hv _ IH]; simpl; constructor.
  - destruct (quote_plus v) as [v'|] eqn:Hv'; [|discriminate]. cbn [bind] in Hv.
    apply Ok_inj in Hv. subst f. exists k', v'. auto.
  - exact IH.
Qed.

Lemma urlencode_spec : forall d q,
  urlencode d = Ok q ->
  exists fields, q = Str.join [ch "&"] fields /\ Forall2 encoded_pair (flatten d) fields.
Proof.
  intros d q H. unfold urlencode in H.
  destruct (mapM encode_item d) as [l|] eqn:Hl; [|discriminate]. cbn [bind] in H.
  apply Ok_inj in H. subst q. exists (concat l). split; [reflexivity|].
  apply mapM_Forall2 in Hl. unfold flatten.
  induction Hl as [|[k vs] fs d l Hkv _ IH]; simpl; [constructor|].
  apply Forall2_app; [|exact IH]. apply encode_item_spec. exact Hkv.
Qed.

Lemma urlenc_char_not : forall q c,
  forallb urlenc_char q = true -> urlenc_char c = false -> Str.elem c q = false.
Proof. intros q c H Hc. apply (forallb_not_elem _ _ _ H Hc). Qed.

Lemma encoded_pair_field : forall k v f,
  encoded_pair (k, v) f ->
  parse_field f = (if nonempty v then [(k, v)] else []) /\
  unquote_plus (field_name f) = k /\
  forallb (fun x => urlenc_char x || (x =? ch "=")) f = true /\
  f <> [].
Proof.
  intros k v f (k' & v' & Hk & Hv & ->). simpl in Hk, Hv.
  apply quote_plus_spec in Hk, Hv.
  destruct Hk as (Hku & Hkc & Hke), Hv as (Hvu & Hvc & Hve).
  assert (Heq : Str.elem (ch "=") k' = false) by (apply urlenc_char_not; [exact Hkc|reflexivity]).
  assert (Hne : k' ++ ch "=" :: v' <> []) by (destruct k'; discriminate).
  split; [|split; [|split]].
  - unfold parse_field. destruct (k' ++ ch "=" :: v') as [|x l] eqn:E; [congruence|].
    rewrite <- E. rewrite partition_app by exact Heq.
    destruct v' as [|y v'].
    + destruct Hve as [Hve _]. rewrite (Hve eq_refl). reflexivity.
    + destruct v as [|z v]; [destruct Hve as [_ Hve]; discriminate (Hve eq_refl)|].
      simpl nonempty. cbv iota. fold (unquote_plus k'). fold (unquote_plus (y :: v')).
      rewrite Hku, Hvu. reflexivity.
  - unfold field_name. rewrite partition_app by exact Heq. exact Hku.
  - rewrite forallb_app. cbn [forallb]. rewrite N.eqb_refl, orb_true_r.
    rewrite andb_true_iff. split; [|cbn [andb]];
      eapply forallb_impl; try eassumption; intros x Hx; rewrite Hx; reflexivity.
  - exact Hne.
Qed.

Lemma Forall2_fields : forall prs fields,
  Forall2 encoded_pair prs fields ->
  flat_map parse_field fields = filter (fun kv => nonempty (snd kv)) prs /\
  map (fun f => unquote_plus (field_name f)) fields = map fst prs /\
  Forall (fun f => Str.elem (ch "&") f = false) fields /\
  Forall (fun f => f <> []) fields.
Proof.
  intros prs fields H. induction H as [|[k v] f prs fields Hf _ IH].
  - repeat split; constructor.
  - destruct IH as (I1 & I2 & I3 & I4).
    apply encoded_pair_field in Hf. destruct Hf as (F1 & F2 & F3 & F4).
    split; [|split; [|split]].
    + cbn [flat_map filter snd]. rewrite F1, I1. destruct (nonempty v); reflexivity.
    + simpl. rewrite F2, I2. reflexivity.
    + constructor; [|exact I3]. apply (forallb_not_elem _ _ _ F3). reflexivity.
    + constructor; assumption.
Qed.

Lemma query_fields_join : forall fields,
  Forall (fun f => Str.elem (ch "&") f = false) fields ->
  Forall (fun f => f <> []) fields ->
  query_fields (Str.join [ch "&"] fields) = fields.
Proof.
  intros fields H1 H2. unfold query_fields.
  destruct (Str.join [ch "&"] fields) as [|x l] eqn:E.
  - apply join_nil_inv in E; [|exact H2]. subst. reflexivity.
  - rewrite <- E. apply split_join; [|exact H1]. intros ->. discriminate.
Qed.

Lemma parse_qsl_fields : forall qs, parse_qsl qs = flat_map parse_field (query_fields qs).
Proof. intros [|x l]; reflexivity. Qed.

(** Reading back an encoded dictionary gives its pairs, the blank values
    dropped; and the fields of the query are, in order, those pairs. *)
Lemma urlencode_parse_qsl : forall d q,
  urlencode d = Ok q ->
  parse_qsl q = filter (fun kv => nonempty (snd kv)) (flatten d) /\
  map (fun f => unquote_plus (field_name f)) (query_fields q) = map fst (flatten d) /\
  forallb (fun x => urlenc_char x || (x =? ch "=") || (x =? ch "&")) q = true.
Proof.
  intros d q H. apply urlencode_spec in H. destruct H as (fields & -> & HF).
  pose proof (Forall2_fields _ _ HF) as (F1 & F2 & F3 & F4).
  rewrite parse_qsl_fields, query_fields_join by assumption.
  split; [exact F1|]. split; [exact F2|].
  clear F1 F2 F3 F4. induction HF as [|[k v] f prs fields Hf HF IH]; [reflexivity|].
  apply encoded_pair_field in Hf. destruct Hf as (_ & _ & F3 & _).
  assert (Hf' : forallb (fun x => urlenc_char x || (x =? ch "=") || (x =? ch "&")) f = true).
  { revert F3. apply forallb_impl. intros x Hx. rewrite Hx. reflexivity. }
  destruct fields as [|f' fields].
  - simpl. exact Hf'.
  - change (Str.join [ch "&"] (f :: f' :: fields))
      with (f ++ ch "&" :: Str.join [ch "&"] (f' :: fields)).
    rewrite forallb_app. cbn [forallb]. rewrite Hf', IH. reflexivity.
Qed.

(** ** What [parse_qs] returns, and reading back an encoded dictionary *)

Lemma decode_nonempty : forall bs, bs <> [] -> Utf8.decode bs <> [].
Proof.
  intros [|b0 r] H; [congruence|]. cbn [Utf8.decode].
  repeat match goal with
         | |- (if ?c then _ else _) <> [] => destruct c
         | |- match ?l with [] => _ | _ :: _ => _ end <> [] => destruct l
         end; discriminate.
Qed.

Lemma unquote_item_nonempty : forall item, unquote_item item <> [].
Proof.
  intros [|h1 [|h2 rest]]; simpl; try discriminate.
  destruct (hexval h1); [destruct (hexval h2)|]; discriminate.
Qed.

Lemma unquote_to_bytes_nonempty : forall s, s <> [] -> unquote_to_bytes s <> [].
Proof.
  intros [|c s] H; [congruence|].
  destruct (N.eq_dec c (ch "%")) as [->|Hc].
  - unfold unquote_to_bytes. cbn [Str.split]. rewrite N.eqb_refl.
    pose proof (split_nonempty (ch "%") s) as Hne.
    destruct (Str.split (ch "%") s) as [|p ps]; [congruence|].
    cbn [flat_map app]. pose proof (unquote_item_nonempty p).
    destruct (unquote_item p); [congruence|discriminate].
  - rewrite unquote_to_bytes_plain by exact Hc. discriminate.
Qed.

Lemma unquote_runs_nonempty : forall s run, run ++ s <> [] -> unquote_runs run s <> [].
Proof.
  induction s as [|c s IH]; intros run H; simpl.
  - rewrite app_nil_r in H. apply decode_nonempty, unquote_to_bytes_nonempty, H.
  - destruct (Str.is_ascii c).
    + apply IH. destruct run; discriminate.
    + destruct (Utf8.decode (unquote_to_bytes run)); discriminate.
Qed.

Lemma unquote_plus_nonempty : forall s, s <> [] -> unquote_plus s <> [].
Proof.
  intros s H. unfold unquote_plus, unquote.
  assert (Hr : Str.replace (ch "+") (ch " ") s <> []) by (destruct s; [congruence|discriminate]).
  destruct (negb (Str.elem (ch "%") (Str.replace (ch "+") (ch " ") s))); [exact Hr|].
  apply unquote_runs_nonempty. exact Hr.
Qed.

Lemma parse_field_value : forall f k v, In (k, v) (parse_field f) -> v <> [].
Proof.
  intros f k v H. unfold parse_field in H. destruct f as [|x f]; [contradiction|].
  destruct (Str.partition (ch "=") (x :: f)) as [[name b] value].
  destruct b; [|contradiction]. destruct value as [|y value]; [contradiction|].
  destruct H as [H|[]].
  assert (E : v = unquote_plus (y :: value)) by (unfold unquote_plus; congruence).
  subst v. apply unquote_plus_nonempty. discriminate.
Qed.

Lemma parse_qsl_value : forall qs k v, In (k, v) (parse_qsl qs) -> v <> [].
Proof.
  intros qs k v H. rewrite parse_qsl_fields in H. apply in_flat_map in H.
  destruct H as (f & _ & H). apply parse_field_value in H. exact H.
Qed.

Lemma dict_get_In : forall k d vs, dict_get k d = Some vs -> In (k, vs) d.
Proof.
  intros k. induction d as [|[k' vs'] d IH]; intros vs H; simpl in H; [discriminate|].
  destruct (Str.eqb k k') eqn:E.
  - apply eqb_eq in E. injection H as <-. subst. left. reflexivity.
  - right. apply IH. exact H.
Qed.

Lemma dict_set_Forall : forall (P : str * list str -> Prop) k vs d,
  Forall P d -> P (k, vs) -> Forall P (dict_set k vs d).
Proof.
  intros P k vs. induction d as [|[k' vs'] d IH]; intros H Hk; simpl.
  - constructor; [exact Hk|constructor].
  - inversion H; subst. destruct (Str.eqb k k') eqn:E.
    + apply eqb_eq in E. subst. constructor; assumption.
    + constructor; [assumption|]. apply IH; assumption.
Qed.

Lemma dict_add_wf : forall d k v, v <> [] -> well_formed d -> well_formed (dict_add d (k, v)).
Proof.
  intros d k v Hv [Hnd Hg]. split.
  - rewrite dict_add_keys. destruct (dict_mem k d) eqn:E; [exact Hnd|].
    rewrite dict_mem_keys in E. apply mem_false in E.
    apply NoDup_app; [exact Hnd|repeat constructor; intros []|].
    intros x Hx [<-|[]]. contradiction.
  - unfold dict_add. destruct (dict_get k d) as [vs|] eqn:E.
    + apply dict_set_Forall; [exact Hg|].
      apply dict_get_In in E. rewrite Forall_forall in Hg. apply Hg in E.
      destruct E as [E1 E2]. split; simpl in *.
      * destruct vs; discriminate.
      * apply Forall_app. split; [exact E2|]. constructor; [exact Hv|constructor].
    + apply dict_set_Forall; [exact Hg|]. split; simpl.
      * discriminate.
      * constructor; [exact Hv|constructor].
Qed.

Lemma parse_qs_wf : forall qs, well_formed (parse_qs qs).
Proof.
  intro qs. unfold parse_qs.
  assert (H : forall prs d, (forall k v, In (k, v) prs -> v <> []) -> well_formed d ->
            well_formed (fold_left dict_add prs d)).
  { induction prs as [|[k v] prs IH]; intros d Hp Hd; cbn [fold_left]; [exact Hd|].
    apply IH.
    - intros k' v' Hin. apply (Hp k' v'). right. exact Hin.
    - apply dict_add_wf; [|exact Hd]. apply (Hp k v). left. reflexivity. }
  apply H.
  - intros k v Hin. apply (parse_qsl_value qs k v Hin).
  - split; constructor.
Qed.

Lemma redact_params_wf : forall P T d,
  T <> [] -> well_formed d -> well_formed (redact_params P T d).
Proof.
  intros P T d HT [Hnd Hg]. split.
  - rewrite redact_params_keys. exact Hnd.
  - clear Hnd. revert d Hg. unfold redact_params.
    induction P as [|p P IH]; intros d Hg; cbn [fold_left]; [exact Hg|].
    apply IH. destruct (dict_mem p d); [|exact Hg].
    apply dict_set_Forall; [exact Hg|]. split; simpl.
    + discriminate.
    + constructor; [exact HT|constructor].
Qed.

Lemma dict_set_app_absent : forall k vs d0 d1,
  dict_mem k d0 = false -> dict_set k vs (d0 ++ d1) = d0 ++ dict_set k vs d1.
Proof.
  intros k vs. induction d0 as [|[k' vs'] d0 IH]; intros d1 H; simpl in *; [reflexivity|].
  apply orb_false_iff in H. destruct H as [H1 H2]. rewrite H1. f_equal. apply IH. exact H2.
Qed.

Lemma dict_get_absent : forall k d, dict_mem k d = false -> dict_get k d = None.
Proof.
  intros k d H. rewrite dict_mem_get in H. destruct (dict_get k d); [discriminate|reflexivity].
Qed.

Lemma fold_add_same_key : forall k vs d0 acc,
  dict_mem k d0 = false ->
  fold_left dict_add (map (pair k) vs) (d0 ++ [(k, acc)]) = d0 ++ [(k, acc ++ vs)].
Proof.
  intros k. induction vs as [|v vs IH]; intros d0 acc H; cbn [map fold_left].
  - rewrite app_nil_r. reflexivity.
  - assert (E : dict_add (d0 ++ [(k, acc)]) (k, v) = d0 ++ [(k, acc ++ [v])]).
    { unfold dict_add. rewrite dict_get_app, dict_get_absent by exact H.
      simpl dict_get. rewrite eqb_refl.
      rewrite dict_set_app_absent by exact H. simpl. rewrite eqb_refl. reflexivity. }
    rewrite E, IH by exact H. rewrite <- app_assoc. reflexivity.
Qed.

Lemma fold_add_new_key : forall k vs d0,
  dict_mem k d0 = false -> vs <> [] ->
  fold_left dict_add (map (pair k) vs) d0 = d0 ++ [(k, vs)].
Proof.
  intros k [|v vs] d0 H Hne; [congruence|]. cbn [map fold_left].
  assert (E : dict_add d0 (k, v) = d0 ++ [(k, [v])]).
  { unfold dict_add. rewrite dict_get_absent by exact H. apply dict_set_absent. exact H. }
  rewrite E. apply fold_add_same_key. exact H.
Qed.

Lemma group_flatten : forall d d0,
  NoDup (keys d0 ++ keys d) -> Forall (fun kv => snd kv <> []) d ->
  fold_left dict_add (flatten d) d0 = d0 ++ d.
Proof.
  induction d as [|[k vs] d IH]; intros d0 Hnd Hne.
  - simpl. rewrite app_nil_r. reflexivity.
  - inversion Hne as [|? ? Hvs Hne']; subst. simpl in Hvs.
    unfold flatten. cbn [flat_map fst snd]. rewrite fold_left_app.
    assert (Hk : dict_mem k d0 = false).
    { rewrite dict_mem_keys. apply mem_false. intro Hin.
      apply NoDup_remove_2 in Hnd. apply Hnd. apply in_or_app. left. exact Hin. }
    rewrite fold_add_new_key by assumption.
    fold (flatten d). rewrite IH.
    + rewrite <- app_assoc. reflexivity.
    + unfold keys in *. rewrite map_app, <- app_assoc. exact Hnd.
    + exact Hne'.
Qed.

Lemma filter_all : forall (A : Type) (p : A -> bool) l,
  (forall x, In x l -> p x = true) -> filter p l = l.
Proof.
  intros A p. induction l as [|x l IH]; intro H; simpl; [reflexivity|].
  rewrite (H x) by (left; reflexivity). f_equal. apply IH. intros y Hy. apply H. right. exact Hy.
Qed.

(** [parse_qs(urlencode(d, doseq=True)) == d] for a well-formed [d]. *)
Lemma parse_qs_urlencode : forall d q,
  well_formed d -> urlencode d = Ok q -> parse_qs q = d.
Proof.
  intros d q [Hnd Hg] H. unfold parse_qs.
  apply urlencode_parse_qsl in H. destruct H as (H & _). rewrite H.
  rewrite filter_all.
  - rewrite group_flatten; [reflexivity|exact Hnd|].
    revert Hg. apply Forall_impl. intros kv [Hkv _]. exact Hkv.
  - intros [k v] Hin. unfold flatten in Hin. apply in_flat_map in Hin.
    destruct Hin as ([k' vs] & Hd & Hin). simpl in Hin. apply in_map_iff in Hin.
    destruct Hin as (v' & E & Hv). assert (E' : v' = v) by congruence. subst v'.
    rewrite Forall_forall in Hg. apply Hg in Hd. destruct Hd as [_ Hd]. simpl in Hd.
    rewrite Forall_forall in Hd. apply Hd in Hv. simpl. destruct v; [congruence|reflexivity].
Qed.

(** ** Strings that avoid a set of characters *)

Lemma avoids_elem : forall cs s c,
  avoids cs s = true -> In c cs -> Str.elem c s = false.
Proof.
  intros cs s c H Hc. apply (forallb_not_elem _ _ _ H).
  apply negb_false_iff. apply elem_In. exact Hc.
Qed.

Lemma avoids_app : forall cs a b, avoids cs (a ++ b) = avoids cs a && avoids cs b.
Proof. intros. unfold avoids. apply forallb_app. Qed.

Lemma avoids_cons : forall cs x s,
  avoids cs (x :: s) = negb (Str.elem x cs) && avoids cs s.
Proof. reflexivity. Qed.

Lemma avoids_firstn : forall cs n s, avoids cs s = true -> avoids cs (firstn n s) = true.
Proof.
  intros cs n s H. rewrite <- (firstn_skipn n s), avoids_app in H.
  apply andb_true_iff in H. tauto.
Qed.

Lemma avoids_skipn : forall cs n s, avoids cs s = true -> avoids cs (skipn n s) = true.
Proof.
  intros cs n s H. rewrite <- (firstn_skipn n s), avoids_app in H.
  apply andb_true_iff in H. tauto.
Qed.

Lemma avoids_sub : forall cs cs' s,
  (forall c, In c cs' -> In c cs) -> avoids cs s = true -> avoids cs' s = true.
Proof.
  intros cs cs' s H. unfold avoids. apply forallb_impl. intros x Hx.
  apply negb_true_iff in Hx. apply negb_true_iff. apply elem_false.
  apply elem_false in Hx. auto.
Qed.

Lemma remove_id : forall c s, Str.elem c s = false -> Str.remove c s = s.
Proof.
  intros c. induction s as [|x s IH]; intro H; [reflexivity|].
  rewrite elem_cons in H. apply orb_false_iff in H. destruct H as [H1 H2].
  simpl. rewrite N.eqb_sym, H1. simpl. f_equal. apply IH. exact H2.
Qed.

Lemma cleaned_avoids : forall url, avoids ctl (cleaned url) = true.
Proof.
  intro url. unfold cleaned, avoids, ctl, unsafe_url_bytes_to_remove. cbn [fold_left].
  apply forallb_forall. intros x Hx. unfold Str.remove in Hx.
  apply filter_In in Hx. destruct Hx as [Hx H10].
  apply filter_In in Hx. destruct Hx as [Hx H13].
  apply filter_In in Hx. destruct Hx as [_ H9].
  apply negb_true_iff in H9, H13, H10. apply negb_true_iff.
  unfold Str.elem. cbn [existsb]. rewrite H9, H13, H10. reflexivity.
Qed.

Lemma lstrip_id : forall p x s, p x = false -> Str.lstrip p (x :: s) = x :: s.
Proof. intros p x s H. simpl. rewrite H. reflexivity. Qed.

Lemma cleaned_id : forall x s,
  c0_control_or_space x = false -> avoids ctl (x :: s) = true -> cleaned (x :: s) = x :: s.
Proof.
  intros x s Hx H. unfold cleaned. rewrite lstrip_id by exact Hx.
  unfold unsafe_url_bytes_to_remove. cbn [fold_left].
  assert (E : forall c, In c ctl -> Str.remove c (x :: s) = x :: s).
  { intros c Hc. apply remove_id. apply (avoids_elem ctl); assumption. }
  rewrite (E 9), (E 13), (E 10); try reflexivity;
    unfold ctl, unsafe_url_bytes_to_remove; simpl; auto.
Qed.

(** ** [_splitnetloc] cuts at the first delimiter *)

Lemma break_spec : forall p s a b,
  break p s = (a, b) ->
  s = a ++ b /\ forallb (fun x => negb (p x)) a = true /\
  match b with [] => True | x :: _ => p x = true end.
Proof.
  intros p. induction s as [|x s IH]; intros a b H; simpl in H.
  - injection H as <- <-. auto.
  - destruct (p x) eqn:E.
    + injection H as <- <-. simpl. auto.
    + destruct (break p s) as [a' b'] eqn:B. injection H as <- <-.
      destruct (IH a' b' eq_refl) as (H1 & H2 & H3). subst s. simpl. rewrite E, H2. auto.
Qed.

Lemma break_app : forall p a b,
  forallb (fun x => negb (p x)) a = true ->
  match b with [] => True | x :: _ => p x = true end ->
  break p (a ++ b) = (a, b).
Proof.
  intros p. induction a as [|x a IH]; intros b Ha Hb; simpl.
  - destruct b as [|y b]; [reflexivity|]. simpl. rewrite Hb. reflexivity.
  - simpl in Ha. apply andb_true_iff in Ha. destruct Ha as [Hx Ha].
    apply negb_true_iff in Hx. rewrite Hx, IH by assumption. reflexivity.
Qed.

Lemma first_delim_cons : forall x w,
  first_delim (x :: w) = if is_delim x then O else S (first_delim w).
Proof.
  intros x w. unfold first_delim, delims, is_delim. cbn [fold_left Str.find List.length].
  destruct (x =? ch "/"); destruct (x =? ch "?"); destruct (x =? ch "#");
    destruct (Str.find (ch "/") w); destruct (Str.find (ch "?") w);
    destruct (Str.find (ch "#") w); cbn [orb]; lia.
Qed.

Lemma first_delim_break : forall w,
  (firstn (first_delim w) w, skipn (first_delim w) w) = break is_delim w.
Proof.
  induction w as [|x w IH]; [reflexivity|].
  rewrite first_delim_cons. simpl. destruct (is_delim x); [reflexivity|].
  rewrite <- IH. reflexivity.
Qed.

Lemma splitnetloc_break : forall c1 c2 w,
  splitnetloc (c1 :: c2 :: w) 2 = break is_delim w.
Proof.
  intros c1 c2 w. rewrite <- first_delim_break. unfold splitnetloc.
  assert (E : fold_left
                (fun delim c => match Str.find_from c (c1 :: c2 :: w) 2 with
                                | Some wdelim => Nat.min delim wdelim
                                | None => delim
                                end)
                [ch "/"; ch "?"; ch "#"] (List.length (c1 :: c2 :: w))
              = S (S (first_delim w))).
  { unfold first_delim, delims, Str.find_from. cbn [fold_left skipn List.length].
    destruct (Str.find (ch "/") w); destruct (Str.find (ch "?") w);
      destruct (Str.find (ch "#") w); lia. }
  rewrite E. cbn [skipn Nat.sub]. rewrite Nat.sub_0_r. reflexivity.
Qed.

(** ** The scheme *)

Lemma lower_char_upper : forall c,
  Str.is_upper c = true -> Str.is_lower (c + 32) = true /\ Str.is_upper (c + 32) = false.
Proof.
  intros c H. unfold Str.is_upper, Str.is_lower in *.
  apply andb_true_iff in H. destruct H as [H1 H2]. apply N.leb_le in H1, H2. split.
  - apply andb_true_iff. split; apply N.leb_le; lia.
  - apply andb_false_iff. right. apply N.leb_gt. lia.
Qed.

Lemma lower_char_idem : forall c, Str.lower_char (Str.lower_char c) = Str.lower_char c.
Proof.
  intro c. unfold Str.lower_char. destruct (Str.is_upper c) eqn:E.
  - destruct (lower_char_upper c E) as [_ H]. rewrite H. reflexivity.
  - rewrite E. reflexivity.
Qed.

Lemma lower_idem : forall s, Str.lower (Str.lower s) = Str.lower s.
Proof.
  intro s. unfold Str.lower. rewrite map_map. apply map_ext. apply lower_char_idem.
Qed.

Lemma alpha_lower : forall c,
  Str.is_ascii_alpha c = true -> Str.is_ascii_alpha (Str.lower_char c) = true.
Proof.
  intros c H. unfold Str.lower_char. destruct (Str.is_upper c) eqn:E; [|exact H].
  unfold Str.is_ascii_alpha. destruct (lower_char_upper c E) as [H1 _].
  rewrite H1. apply orb_true_r.
Qed.

Lemma scheme_char_lower : forall c,
  scheme_char c = true -> scheme_char (Str.lower_char c) = true.
Proof.
  intros c H. unfold Str.lower_char. destruct (Str.is_upper c) eqn:E; [|exact H].
  unfold scheme_char, Str.is_ascii_alpha. destruct (lower_char_upper c E) as [H1 _].
  rewrite H1. rewrite orb_true_r. reflexivity.
Qed.

Lemma alpha_range : forall c, Str.is_ascii_alpha c = true -> 65 <= c <= 122.
Proof.
  intros c H. unfold Str.is_ascii_alpha, Str.is_upper, Str.is_lower in H.
  apply orb_true_iff in H. destruct H as [H|H]; apply andb_true_iff in H;
    destruct H as [H1 H2]; apply N.leb_le in H1, H2; lia.
Qed.

Lemma scheme_char_range : forall c,
  scheme_char c = true -> 43 <= c <= 122 /\ c <> 47 /\ c <> 58 /\ c <> 63.
Proof.
  intros c H.
  unfold scheme_char, Str.is_ascii_alpha, Str.is_upper, Str.is_lower, Str.is_digit in H.
  repeat (apply orb_true_iff in H; destruct H as [H|H]);
    try (apply andb_true_iff in H; destruct H as [H1 H2]; apply N.leb_le in H1, H2; lia);
    apply N.eqb_eq in H; subst; cbv; repeat split; discriminate.
Qed.

Lemma split_scheme_off_spec : forall u sch u1,
  split_scheme_off u = (sch, u1) ->
  scheme_ok sch /\ exists pre, u = pre ++ u1.
Proof.
  intros u sch u1 H. unfold split_scheme_off in H.
  assert (Hdef : (sch, u1) = ([], u) -> scheme_ok sch /\ exists pre, u = pre ++ u1).
  { intro E. injection E as -> ->. split; [left; reflexivity|exists []; reflexivity]. }
  destruct (Str.find (ch ":") u) as [[|i]|] eqn:F; try (apply Hdef; congruence).
  destruct u as [|c0 u']; try (apply Hdef; congruence).
  destruct (Str.is_ascii c0 && Str.is_ascii_alpha c0) eqn:A; try (apply Hdef; congruence).
  destruct (forallb scheme_char (firstn (S i) (c0 :: u'))) eqn:Hsc; try (apply Hdef; congruence).
  apply pair_equal_spec in H. destruct H as [<- <-]. split.
  - right. split; [|split].
    + cbn [firstn]. simpl Str.lower. eexists _, _. split; [reflexivity|].
      apply andb_true_iff in A. apply alpha_lower. tauto.
    + unfold Str.lower. rewrite forallb_forall. intros x Hx.
      apply in_map_iff in Hx. destruct Hx as (y & <- & Hy).
      rewrite forallb_forall in Hsc. apply scheme_char_lower, Hsc, Hy.
    + apply lower_idem.
  - exists (firstn (S (S i)) (c0 :: u')). symmetry. apply firstn_skipn.
Qed.

Lemma split_scheme_off_rebuild : forall sch rest,
  scheme_ok sch -> sch <> [] ->
  split_scheme_off (sch ++ ch ":" :: rest) = (sch, rest).
Proof.
  intros sch rest [->|((c0 & t & E & Ha) & Hs & Hl)] Hne; [congruence|].
  unfold split_scheme_off.
  assert (Hc : Str.elem (ch ":") sch = false).
  { apply (forallb_not_elem _ _ _ Hs). reflexivity. }
  rewrite find_app by exact Hc. subst sch. cbn [List.length app].
  assert (Hasc : Str.is_ascii c0 = true).
  { unfold Str.is_ascii. apply N.ltb_lt. apply alpha_range in Ha. lia. }
  rewrite Hasc, Ha. cbn [andb].
  assert (F : firstn (S (List.length t)) (c0 :: t ++ ch ":" :: rest) = c0 :: t).
  { cbn [firstn]. rewrite firstn_length_app. reflexivity. }
  assert (G : skipn (S (S (List.length t))) (c0 :: t ++ ch ":" :: rest) = rest).
  { exact (skipn_S_app _ t (ch ":") rest). }
  rewrite F, G, Hs, Hl. reflexivity.
Qed.

Lemma split_scheme_off_slash : forall rest,
  split_scheme_off (ch "/" :: rest) = ([], ch "/" :: rest).
Proof.
  intro rest. unfold split_scheme_off.
  destruct (Str.find (ch ":") (ch "/" :: rest)) as [[|i]|]; reflexivity.
Qed.

Lemma scheme_ok_avoids : forall sch, scheme_ok sch -> avoids ctl sch = true.
Proof.
  intros sch [->|(_ & Hs & _)]; [reflexivity|].
  revert Hs. apply forallb_impl. intros x Hx. apply scheme_char_range in Hx.
  apply negb_true_iff. apply elem_false. intros [E|[E|[E|[]]]]; subst x; lia.
Qed.

(** ** [urlsplit] on a URL with an authority *)

Lemma urlsplit_unfold : forall plat u,
  urlsplit plat u =
  let '(sch, u1) := split_scheme_off (cleaned u) in
  if Str.eqb (firstn 2 u1) (py "//")
  then let '(net, u2) := splitnetloc u1 2 in
       bracket_check plat net ;;; split_rest plat sch net u2
  else split_rest plat sch [] u1.
Proof.
  intros plat u. unfold urlsplit, bracket_check, split_rest. fold (cleaned u).
  destruct (split_scheme_off (cleaned u)) as [sch u1].
  destruct (Str.eqb (firstn 2 u1) (py "//")).
  - destruct (splitnetloc u1 2) as [net u2].
    destruct ((Str.elem (ch "[") net && negb (Str.elem (ch "]") net))
              || (Str.elem (ch "]") net && negb (Str.elem (ch "[") net))); [reflexivity|].
    destruct (Str.elem (ch "[") net && Str.elem (ch "]") net).
    + destruct (check_bracketed_netloc plat net) as [[]|]; reflexivity.
    + reflexivity.
  - reflexivity.
Qed.

Lemma split_rest_inv : forall plat sch net rest sr,
  split_rest plat sch net rest = Ok sr ->
  split_scheme sr = sch /\ split_netloc sr = net /\
  checknetloc plat net = Ok tt /\
  (exists tail, rest = split_path sr ++ tail) /\
  avoids [ch "?"; ch "#"] (split_path sr) = true /\
  (avoids ctl rest = true -> avoids ctl (split_fragment sr) = true).
Proof.
  intros plat sch net rest sr H. unfold split_rest in H.
  destruct (split_once (ch "#") rest) as [u3 f] eqn:E1.
  destruct (split_once (ch "?") u3) as [pf q] eqn:E2.
  destruct (checknetloc plat net) as [[]|] eqn:Ec; [|discriminate].
  cbn [bind] in H. apply Ok_inj in H. subst sr.
  cbn [split_scheme split_netloc split_path split_fragment split_query].
  apply split_once_spec in E1, E2. destruct E1 as [N1 E1], E2 as [N2 E2].
  assert (Hu3 : exists t, rest = u3 ++ t).
  { destruct E1 as [[_ ->]|[_ [-> _]]]; [eexists; reflexivity|exists []; symmetry; apply app_nil_r]. }
  assert (Hpf : exists t, u3 = pf ++ t).
  { destruct E2 as [[_ ->]|[_ [-> _]]]; [eexists; reflexivity|exists []; symmetry; apply app_nil_r]. }
  repeat split; try reflexivity.
  - destruct Hu3 as [t1 ->], Hpf as [t2 ->]. exists (t2 ++ t1). rewrite app_assoc. reflexivity.
  - destruct Hpf as [t2 ->]. rewrite elem_app in N1. apply orb_false_iff in N1.
    destruct N1 as [N1 _]. unfold avoids. rewrite forallb_forall. intros x Hx.
    apply negb_true_iff. apply elem_false. intros [E|[E|[]]]; subst x.
    + apply elem_false in N2. contradiction.
    + apply elem_false in N1. contradiction.
  - intro Hc. destruct E1 as [[_ ->]|[_ [_ ->]]]; [|reflexivity].
    rewrite avoids_app, avoids_cons in Hc.
    apply andb_true_iff in Hc. destruct Hc as [_ Hc].
    apply andb_true_iff in Hc. tauto.
Qed.

Lemma firstn_2_slashes : forall u,
  Str.eqb (firstn 2 u) (py "//") = true -> exists w, u = ch "/" :: ch "/" :: w.
Proof.
  intros u H. apply eqb_eq in H. destruct u as [|c1 [|c2 w]]; try discriminate.
  simpl in H. injection H as -> ->. exists w. reflexivity.
Qed.

(** What [urlsplit] guarantees about its result when the netloc is not
    empty. *)
Lemma urlsplit_inv : forall plat u sr,
  urlsplit plat u = Ok sr -> split_netloc sr <> [] ->
  scheme_ok (split_scheme sr) /\
  avoids ctl (split_netloc sr) = true /\ avoids ctl (split_path sr) = true /\
  avoids ctl (split_fragment sr) = true /\
  avoids delims (split_netloc sr) = true /\
  (split_path sr = [] \/ exists t, split_path sr = ch "/" :: t) /\
  avoids [ch "?"; ch "#"] (split_path sr) = true /\
  bracket_check plat (split_netloc sr) = Ok tt /\
  checknetloc plat (split_netloc sr) = Ok tt.
Proof.
  intros plat u sr H Hne. rewrite urlsplit_unfold in H.
  destruct (split_scheme_off (cleaned u)) as [sch u1] eqn:Es.
  apply split_scheme_off_spec in Es. destruct Es as [Hsch [pre Hpre]].
  pose proof (cleaned_avoids u) as Hclean. rewrite Hpre, avoids_app in Hclean.
  apply andb_true_iff in Hclean. destruct Hclean as [_ Hclean].
  destruct (Str.eqb (firstn 2 u1) (py "//")) eqn:E2.
  - apply firstn_2_slashes in E2. destruct E2 as [w ->].
    rewrite splitnetloc_break in H.
    destruct (break is_delim w) as [net u2] eqn:Eb.
    apply break_spec in Eb. destruct Eb as (Ew & Hnet & Hu2).
    destruct (bracket_check plat net) as [[]|] eqn:Ebc; [|discriminate].
    cbn [bind] in H. apply split_rest_inv in H.
    destruct H as (H1 & H2 & H3 & (tail & H4) & H5 & H6).
    rewrite !avoids_cons in Hclean.
    apply andb_true_iff in Hclean. destruct Hclean as [_ Hclean].
    apply andb_true_iff in Hclean. destruct Hclean as [_ Hclean].
    rewrite Ew, avoids_app in Hclean. apply andb_true_iff in Hclean.
    destruct Hclean as [Hcn Hcu2].
    rewrite H1, H2. repeat split; try assumption.
    + rewrite H4, avoids_app in Hcu2. apply andb_true_iff in Hcu2. tauto.
    + apply H6. exact Hcu2.
    + revert Hnet. apply forallb_impl. intros x Hx. apply negb_true_iff in Hx.
      apply negb_true_iff. unfold is_delim in Hx. unfold Str.elem, delims. cbn [existsb].
      rewrite orb_false_r, orb_assoc. exact Hx.
    + destruct (split_path sr) as [|x t] eqn:Ep; [left; reflexivity|right].
      exists t. f_equal. rewrite H4 in Hu2. cbn [app] in Hu2.
      rewrite avoids_cons in H5. apply andb_true_iff in H5. destruct H5 as [H5 _].
      apply negb_true_iff in H5. unfold Str.elem in H5. cbn [existsb] in H5.
      rewrite orb_false_r in H5. apply orb_false_iff in H5. destruct H5 as [Hq Hh].
      unfold is_delim in Hu2. rewrite Hq, Hh in Hu2. rewrite !orb_false_r in Hu2.
      apply N.eqb_eq in Hu2. exact Hu2.
  - apply split_rest_inv in H. destruct H as (_ & H2 & _). congruence.
Qed.

Lemma urlunsplit_netloc : forall sch net url1 q f,
  net <> [] -> (url1 = [] \/ exists t, url1 = ch "/" :: t) ->
  urlunsplit sch net url1 q f =
  (if nonempty sch then sch ++ [ch ":"] else []) ++
  ch "/" :: ch "/" :: net ++ (url1 ++ opt_part (ch "?") q) ++ opt_part (ch "#") f.
Proof.
  intros sch net url1 q f Hne Hu. unfold urlunsplit, opt_part.
  assert (E1 : nonempty net = true) by (destruct net; [congruence|reflexivity]).
  rewrite E1. cbn [orb].
  assert (E2 : (if nonempty url1 && negb (Str.eqb (firstn 1 url1) (py "/"))
                then ch "/" :: url1 else url1) = url1).
  { destruct Hu as [->|[t ->]]; reflexivity. }
  rewrite E2. change (py "//") with [ch "/"; ch "/"].
  destruct sch; destruct q; destruct f; cbn [nonempty app];
    rewrite <- ?app_assoc; cbn [app]; rewrite ?app_nil_r, <- ?app_assoc; cbn [app];
    rewrite <- ?app_assoc; reflexivity.
Qed.

Lemma split_once_part : forall c a b,
  Str.elem c a = false -> split_once c (a ++ opt_part c b) = (a, b).
Proof.
  intros c a b H. unfold opt_part. destruct b as [|y b]; cbn [nonempty].
  - rewrite app_nil_r. apply split_once_none. exact H.
  - apply split_once_app. exact H.
Qed.

Lemma opt_part_avoids : forall cs c s,
  Str.elem c cs = false -> avoids cs s = true -> avoids cs (opt_part c s) = true.
Proof.
  intros cs c s Hc H. unfold opt_part. destruct s; [reflexivity|].
  cbn [nonempty]. rewrite avoids_cons, Hc, H. reflexivity.
Qed.

(** The URL text with two slashes after the scheme. *)
Lemma urlsplit_slashes : forall plat sch net url1 q f,
  scheme_ok sch ->
  avoids ctl net = true -> avoids ctl url1 = true ->
  avoids ctl q = true -> avoids ctl f = true ->
  avoids delims net = true ->
  (url1 = [] \/ exists t, url1 = ch "/" :: t) ->
  avoids [ch "?"; ch "#"] url1 = true ->
  Str.elem (ch "#") q = false ->
  bracket_check plat net = Ok tt -> checknetloc plat net = Ok tt ->
  urlsplit plat ((if nonempty sch then sch ++ [ch ":"] else []) ++
                 ch "/" :: ch "/" :: net ++ (url1 ++ opt_part (ch "?") q) ++ opt_part (ch "#") f)
  = Ok (mkSplit sch net url1 q f).
Proof.
  intros plat sch net url1 q f Hsch Cn Cu Cq Cf Dn Hu Au Hq Hb Hc.
  set (tail := (url1 ++ opt_part (ch "?") q) ++ opt_part (ch "#") f).
  assert (Ctail : avoids ctl tail = true).
  { unfold tail. rewrite !avoids_app, Cu. cbn [andb].
    rewrite !opt_part_avoids by (try assumption; reflexivity). reflexivity. }
  assert (Crest : avoids ctl (ch "/" :: ch "/" :: net ++ tail) = true).
  { rewrite !avoids_cons, avoids_app, Cn, Ctail. reflexivity. }
  assert (Hscheme : split_scheme_off
            ((if nonempty sch then sch ++ [ch ":"] else []) ++ ch "/" :: ch "/" :: net ++ tail)
          = (sch, ch "/" :: ch "/" :: net ++ tail) /\
          cleaned ((if nonempty sch then sch ++ [ch ":"] else []) ++ ch "/" :: ch "/" :: net ++ tail)
          = (if nonempty sch then sch ++ [ch ":"] else []) ++ ch "/" :: ch "/" :: net ++ tail).
  { destruct sch as [|c0 t] eqn:Esch.
    - cbn [nonempty app]. split; [apply split_scheme_off_slash|].
      apply cleaned_id; [reflexivity|exact Crest].
    - cbn [nonempty]. rewrite <- app_assoc. cbn [app]. split.
      + rewrite (app_comm_cons t). apply split_scheme_off_rebuild; [exact Hsch|discriminate].
      + apply cleaned_id.
        * destruct Hsch as [Hsch|((c & r & E & Ha) & _)]; [discriminate|].
          injection E as <- <-. apply alpha_range in Ha.
          unfold c0_control_or_space. apply N.leb_gt. lia.
        * apply scheme_ok_avoids in Hsch. rewrite avoids_cons in Hsch.
          apply andb_true_iff in Hsch. destruct Hsch as [H1 H2].
          rewrite avoids_cons, avoids_app, H1, H2. cbn [andb].
          rewrite avoids_cons. exact Crest. }
  destruct Hscheme as [Hscheme Hclean].
  rewrite urlsplit_unfold, Hclean, Hscheme.
  change (Str.eqb (firstn 2 (ch "/" :: ch "/" :: net ++ tail)) (py "//")) with true.
  cbv iota. rewrite splitnetloc_break.
  assert (Hbreak : break is_delim (net ++ tail) = (net, tail)).
  { apply break_app.
    - revert Dn. apply forallb_impl. intros x Hx. apply negb_true_iff in Hx.
      apply negb_true_iff. unfold Str.elem, delims in Hx. cbn [existsb] in Hx.
      rewrite orb_false_r, orb_assoc in Hx. exact Hx.
    - unfold tail, opt_part. destruct Hu as [->|[t ->]]; [|reflexivity].
      destruct q; [|reflexivity]. destruct f; [exact I|reflexivity]. }
  rewrite Hbreak, Hb. cbn [bind]. unfold split_rest, tail.
  assert (A1 : Str.elem (ch "?") url1 = false).
  { apply (avoids_elem _ _ _ Au). simpl. auto. }
  assert (A2 : Str.elem (ch "#") url1 = false).
  { apply (avoids_elem _ _ _ Au). simpl. auto. }
  rewrite split_once_part.
  - rewrite split_once_part by exact A1. rewrite Hc. reflexivity.
  - rewrite elem_app, A2. unfold opt_part. destruct q as [|y q]; [reflexivity|].
    cbn [nonempty orb]. exact Hq.
Qed.

Lemma urlsplit_rebuild : forall plat sch net url1 q f,
  scheme_ok sch -> net <> [] ->
  avoids ctl net = true -> avoids ctl url1 = true ->
  avoids ctl q = true -> avoids ctl f = true ->
  avoids delims net = true ->
  (url1 = [] \/ exists t, url1 = ch "/" :: t) ->
  avoids [ch "?"; ch "#"] url1 = true ->
  Str.elem (ch "#") q = false ->
  bracket_check plat net = Ok tt -> checknetloc plat net = Ok tt ->
  urlsplit plat (urlunsplit sch net url1 q f) = Ok (mkSplit sch net url1 q f).
Proof.
  intros plat sch net url1 q f Hsch Hne Cn Cu Cq Cf Dn Hu Au Hq Hb Hc.
  rewrite urlunsplit_netloc by assumption. apply urlsplit_slashes; assumption.
Qed.

(** ** [_splitparams] and [urlparse] on a rebuilt URL *)

Lemma rfind_none : forall c s, Str.rfind c s = None <-> Str.elem c s = false.
Proof.
  intros c. induction s as [|x s IH]; simpl; [tauto|].
  rewrite (N.eqb_sym c x). destruct (Str.rfind c s) as [i|].
  - split; [discriminate|]. intro H. apply orb_false_iff in H. destruct H as [_ H].
    apply IH in H. discriminate.
  - destruct (x =? c); simpl; split; try discriminate; try reflexivity.
    + intros _. apply IH. reflexivity.
Qed.

Lemma rfind_some : forall c s r,
  Str.rfind c s = Some r ->
  exists P x, s = P ++ c :: x /\ List.length P = r /\ Str.elem c x = false.
Proof.
  intros c. induction s as [|y s IH]; intros r H; simpl in H; [discriminate|].
  destruct (Str.rfind c s) as [i|] eqn:E.
  - injection H as <-. destruct (IH i eq_refl) as (P & x & -> & HP & Hx).
    exists (y :: P), x. simpl. auto.
  - destruct (N.eqb_spec y c) as [->|]; [|discriminate]. injection H as <-.
    exists [], s. apply rfind_none in E. auto.
Qed.

Lemma rfind_app_last : forall c P x,
  Str.elem c x = false -> Str.rfind c (P ++ c :: x) = Some (List.length P).
Proof.
  intros c P x H. induction P as [|y P IH]; simpl.
  - apply rfind_none in H. rewrite H, N.eqb_refl. reflexivity.
  - rewrite IH. reflexivity.
Qed.

Lemma skipn_length_app : forall (A : Type) (a b : list A), skipn (List.length a) (a ++ b) = b.
Proof. intros A. induction a as [|x a IH]; intro b; [reflexivity|apply IH]. Qed.

Lemma find_cons_neq : forall c y x,
  y <> c -> Str.find c (y :: x) = match Str.find c x with Some j => Some (S j) | None => None end.
Proof. intros c y x H. simpl. apply N.eqb_neq in H. rewrite H. reflexivity. Qed.

Lemma splitparams_last_segment : forall P x,
  Str.elem (ch "/") x = false -> Str.elem (ch ";") x = false ->
  splitparams (P ++ ch "/" :: x) = (P ++ ch "/" :: x, []).
Proof.
  intros P x H1 H2. unfold splitparams.
  rewrite elem_app, elem_cons, N.eqb_refl, orb_true_r.
  rewrite rfind_app_last by exact H1. unfold Str.find_from.
  rewrite skipn_length_app, find_cons_neq by discriminate.
  apply find_none in H2. rewrite H2. reflexivity.
Qed.

Lemma splitparams_cases : forall s a b,
  Str.elem (ch ";") s = true -> splitparams s = (a, b) ->
  (a = s /\ b = [] /\
   exists P x, s = P ++ ch "/" :: x /\ Str.elem (ch "/") x = false /\ Str.elem (ch ";") x = false)
  \/
  (s = a ++ ch ";" :: b /\
   ((exists P x, a = P ++ ch "/" :: x /\ Str.elem (ch "/") x = false /\ Str.elem (ch ";") x = false)
    \/ Str.elem (ch ";") a = false)).
Proof.
  intros s a b Hsc H. unfold splitparams in H.
  destruct (Str.elem (ch "/") s) eqn:Hsl.
  - destruct (Str.rfind (ch "/") s) as [r|] eqn:Er.
    + apply rfind_some in Er. destruct Er as (P & x & -> & <- & Hx).
      unfold Str.find_from in H. rewrite skipn_length_app, find_cons_neq in H by discriminate.
      destruct (Str.find (ch ";") x) as [j|] eqn:Ef.
      * apply find_some in Ef. destruct Ef as (Ex & Hx1 & Hlt).
        set (x1 := firstn j x) in *. set (x2 := skipn (S j) x) in *.
        assert (Hj : List.length x1 = j) by (unfold x1; apply firstn_length_le; lia).
        assert (Es : P ++ ch "/" :: x = (P ++ ch "/" :: x1) ++ ch ";" :: x2).
        { rewrite Ex at 1. rewrite <- app_assoc. reflexivity. }
        assert (El : (List.length P + S j)%nat = List.length (P ++ ch "/" :: x1)).
        { rewrite length_app. simpl. lia. }
        rewrite Es, El in H. rewrite firstn_length_app, skipn_S_app in H.
        apply pair_equal_spec in H. destruct H as [<- <-].
        right. split; [exact Es|]. left. exists P, x1. split; [reflexivity|]. split; [|exact Hx1].
        rewrite Ex, elem_app in Hx. apply orb_false_iff in Hx. tauto.
      * apply pair_equal_spec in H. destruct H as [<- <-]. left.
        split; [reflexivity|]. split; [reflexivity|].
        exists P, x. apply find_none in Ef. auto.
    + apply rfind_none in Er. congruence.
  - destruct (Str.find (ch ";") s) as [i|] eqn:Ef.
    + apply find_some in Ef. destruct Ef as (Es & Ha & _).
      apply pair_equal_spec in H. destruct H as [<- <-]. right. split; [exact Es|]. right. exact Ha.
    + apply find_none in Ef. congruence.
Qed.

(** Splitting the path again after [urlunparse] put the parameters back. *)
Lemma splitparams_rejoin : forall s a b,
  Str.elem (ch ";") s = true -> splitparams s = (a, b) ->
  (exists t, s = (a ++ opt_part (ch ";") b) ++ t) /\
  (if Str.elem (ch ";") (a ++ opt_part (ch ";") b)
   then splitparams (a ++ opt_part (ch ";") b)
   else (a ++ opt_part (ch ";") b, [])) = (a, b).
Proof.
  intros s a b Hsc H. pose proof (splitparams_cases s a b Hsc H) as C.
  destruct C as [(-> & -> & _)|(Es & C)].
  - unfold opt_part. cbn [nonempty]. rewrite app_nil_r. split.
    + exists []. symmetry. apply app_nil_r.
    + rewrite Hsc. exact H.
  - destruct b as [|y b].
    + unfold opt_part. cbn [nonempty]. rewrite app_nil_r. split.
      * exists [ch ";"]. exact Es.
      * destruct (Str.elem (ch ";") a) eqn:Ea; [|reflexivity].
        destruct C as [(P & x & -> & H1 & H2)|C]; [|congruence].
        apply splitparams_last_segment; assumption.
    + unfold opt_part. cbn [nonempty]. rewrite <- Es. split.
      * exists []. symmetry. apply app_nil_r.
      * rewrite Hsc. exact H.
Qed.

Lemma urlunparse_unsplit : forall sch net pth prm q f,
  urlunparse sch net pth prm q f = urlunsplit sch net (pth ++ opt_part (ch ";") prm) q f.
Proof.
  intros. unfold urlunparse, opt_part. destruct prm; cbn [nonempty]; [rewrite app_nil_r|]; reflexivity.
Qed.

(** Parsing the URL that [urlunparse] writes from the components of a
    parsed URL with an authority, with another query in the place of the
    original one, gives those components back. *)
Lemma urlparse_urlunparse : forall plat u p q,
  urlparse plat u = Ok p -> netloc p <> [] ->
  avoids ctl q = true -> Str.elem (ch "#") q = false ->
  urlparse plat (urlunparse (scheme p) (netloc p) (path p) (params p) q (fragment p))
  = Ok (mkParse (scheme p) (netloc p) (path p) (params p) q (fragment p)).
Proof.
  intros plat u p q H Hne Cq Hq. unfold urlparse in H.
  destruct (urlsplit plat u) as [sr|] eqn:Es; [|discriminate]. cbn [bind] in H.
  destruct (if Str.mem (split_scheme sr) uses_params && Str.elem (ch ";") (split_path sr)
            then splitparams (split_path sr) else (split_path sr, [])) as [pth prm] eqn:Ep.
  apply Ok_inj in H. subst p. cbn [scheme netloc path params query fragment] in *.
  apply urlsplit_inv in Es; [|exact Hne].
  destruct Es as (Hsch & Cn & Cp & Cf & Dn & Hp & Ap & Hb & Hc).
  assert (Hpre : (exists t, split_path sr = (pth ++ opt_part (ch ";") prm) ++ t) /\
                 (if Str.mem (split_scheme sr) uses_params
                     && Str.elem (ch ";") (pth ++ opt_part (ch ";") prm)
                  then splitparams (pth ++ opt_part (ch ";") prm)
                  else (pth ++ opt_part (ch ";") prm, [])) = (pth, prm)).
  { destruct (Str.mem (split_scheme sr) uses_params) eqn:Em; cbn [andb] in Ep |- *.
    - destruct (Str.elem (ch ";") (split_path sr)) eqn:Esc.
      + apply splitparams_rejoin; assumption.
      + apply pair_equal_spec in Ep. destruct Ep as [<- <-].
        unfold opt_part. cbn [nonempty]. rewrite app_nil_r, Esc. split; [|reflexivity].
        exists []. symmetry. apply app_nil_r.
    - apply pair_equal_spec in Ep. destruct Ep as [<- <-].
      unfold opt_part. cbn [nonempty]. rewrite app_nil_r. split; [|reflexivity].
      exists []. symmetry. apply app_nil_r. }
  destruct Hpre as [[t Ht] Hsplit].
  set (url1 := pth ++ opt_part (ch ";") prm) in *.
  rewrite urlunparse_unsplit. fold url1. unfold urlparse.
  rewrite urlsplit_rebuild; try assumption.
  - cbn [bind split_scheme split_netloc split_path split_query split_fragment].
    match goal with
    | |- context [if ?c then ?a else ?b] =>
        replace (if c then a else b) with (pth, prm) by (symmetry; exact Hsplit)
    end.
    reflexivity.
  - rewrite Ht, avoids_app in Cp. apply andb_true_iff in Cp. tauto.
  - destruct url1 as [|x url1']; [left; reflexivity|right].
    destruct Hp as [Hp|[t0 Hp]]; rewrite Hp in Ht; [discriminate|].
    cbn [app] in Ht. injection Ht as <- _. eexists. reflexivity.
  - rewrite Ht, avoids_app in Ap. apply andb_true_iff in Ap. tauto.
Qed.

(** ** A URL without an authority *)

Lemma split_scheme_off_schemeless : forall s,
  schemeless s = true -> split_scheme_off s = ([], s).
Proof.
  intros s H. unfold schemeless in H. unfold split_scheme_off.
  destruct (Str.find (ch ":") s) as [[|i]|]; try reflexivity.
  destruct s as [|c0 s']; [reflexivity|].
  destruct (Str.is_ascii c0 && Str.is_ascii_alpha c0); [|reflexivity].
  cbn [andb] in H. apply negb_true_iff in H. rewrite H. reflexivity.
Qed.

Lemma schemeless_split : forall s u1,
  split_scheme_off s = ([], u1) -> schemeless s = true /\ u1 = s.
Proof.
  intros s u1 H. unfold split_scheme_off in H. unfold schemeless.
  destruct (Str.find (ch ":") s) as [[|i]|]; try (injection H as <-; auto).
  destruct s as [|c0 s']; [injection H as <-; auto|].
  destruct (Str.is_ascii c0 && Str.is_ascii_alpha c0); [|injection H as <-; auto].
  destruct (forallb scheme_char (firstn (S i) (c0 :: s'))); [|injection H as <-; auto].
  cbn [firstn Str.lower map] in H. discriminate.
Qed.

Lemma find_app_l : forall c a b,
  Str.elem c a = true -> Str.find c (a ++ b) = Str.find c a.
Proof.
  intros c. induction a as [|x a IH]; intros b H; [discriminate|].
  rewrite elem_cons in H. simpl. rewrite (N.eqb_sym x c).
  destruct (c =? x) eqn:E; [reflexivity|]. cbn [orb] in H. rewrite IH by exact H. reflexivity.
Qed.

Lemma find_app_r : forall c a b,
  Str.elem c a = false ->
  Str.find c (a ++ b) = match Str.find c b with
                        | Some j => Some (List.length a + j)%nat
                        | None => None
                        end.
Proof.
  intros c. induction a as [|x a IH]; intros b H.
  - simpl. destruct (Str.find c b); reflexivity.
  - rewrite elem_cons in H. apply orb_false_iff in H. destruct H as [E H].
    simpl. rewrite (N.eqb_sym x c), E, IH by exact H.
    destruct (Str.find c b); reflexivity.
Qed.

Lemma firstn_app_le : forall (A : Type) n (a b : list A),
  (n <= List.length a)%nat -> firstn n (a ++ b) = firstn n a.
Proof.
  intros A n a b H. rewrite firstn_app.
  replace (n - List.length a)%nat with O by lia. simpl. apply app_nil_r.
Qed.

(** The scheme test reads the text up to the first colon only: another
    tail after [a], starting with a character that no scheme holds, does
    not bring a scheme in. *)
Lemma schemeless_tail : forall a b b',
  schemeless (a ++ b) = true ->
  match b' with [] => True | x :: _ => scheme_char x = false /\ x <> ch ":" end ->
  schemeless (a ++ b') = true.
Proof.
  intros a b b' H Hb. unfold schemeless in *.
  destruct (Str.elem (ch ":") a) eqn:Ea.
  - rewrite find_app_l in H |- * by exact Ea.
    destruct (Str.find (ch ":") a) as [[|i]|] eqn:F; try reflexivity.
    apply find_some in F. destruct F as (_ & _ & Hlt).
    destruct a as [|c0 a']; [discriminate|].
    rewrite firstn_app_le in H |- * by lia. exact H.
  - rewrite find_app_r by exact Ea.
    destruct (Str.find (ch ":") b') as [j|] eqn:F; [|reflexivity].
    destruct b' as [|x t]; [discriminate|]. destruct Hb as [Hx Hn].
    rewrite find_cons_neq in F by exact Hn.
    destruct (Str.find (ch ":") t) as [j'|]; [|discriminate]. injection F as <-.
    replace (List.length a + S j')%nat with (S (List.length a + j')) by lia.
    destruct (a ++ x :: t) as [|c0 r] eqn:E; [reflexivity|]. rewrite <- E.
    assert (Hf : forallb scheme_char (firstn (S (List.length a + j')) (a ++ x :: t)) = false).
    { rewrite firstn_app. rewrite firstn_all2 by lia.
      replace (S (List.length a + j') - List.length a)%nat with (S j') by lia.
      cbn [firstn]. rewrite forallb_app. cbn [forallb]. rewrite Hx.
      rewrite andb_false_r. reflexivity. }
    rewrite Hf, andb_false_r. reflexivity.
Qed.

Lemma schemeless_head : forall x s,
  Str.is_ascii_alpha x = false -> schemeless (x :: s) = true.
Proof.
  intros x s H. unfold schemeless.
  destruct (Str.find (ch ":") (x :: s)) as [[|i]|]; try reflexivity.
  rewrite H, andb_false_r. reflexivity.
Qed.

Lemma lstrip_head : forall p s x t, Str.lstrip p s = x :: t -> p x = false.
Proof.
  intros p. induction s as [|y s IH]; intros x t H; simpl in H; [discriminate|].
  destruct (p y) eqn:E; [apply (IH x t H)|]. injection H as <- _. exact E.
Qed.

Lemma cleaned_head : forall u x t, cleaned u = x :: t -> c0_control_or_space x = false.
Proof.
  intros u x t H. unfold cleaned in H.
  destruct (Str.lstrip c0_control_or_space u) as [|y s] eqn:E; [discriminate|].
  apply lstrip_head in E.
  assert (Hy : 32 < y) by (unfold c0_control_or_space in E; apply N.leb_gt in E; exact E).
  unfold unsafe_url_bytes_to_remove, Str.remove in H. cbn [fold_left filter] in H.
  assert (E9 : (y =? 9) = false) by (apply N.eqb_neq; lia).
  assert (E13 : (y =? 13) = false) by (apply N.eqb_neq; lia).
  assert (E10 : (y =? 10) = false) by (apply N.eqb_neq; lia).
  rewrite E9 in H. cbn [negb filter] in H. rewrite E13 in H. cbn [negb filter] in H.
  rewrite E10 in H. cbn [negb] in H. injection H as <- _. exact E.
Qed.

Lemma after_path_parts : forall q f, after_path (opt_part (ch "?") q ++ opt_part (ch "#") f).
Proof.
  intros q f. unfold opt_part. destruct q; cbn [nonempty app]; [|left; reflexivity].
  destruct f; cbn [nonempty]; [exact I|right; reflexivity].
Qed.

Lemma split_rest_tail : forall plat sch net rest sr,
  split_rest plat sch net rest = Ok sr ->
  exists tl, rest = split_path sr ++ tl /\ after_path tl.
Proof.
  intros plat sch net rest sr H. unfold split_rest in H.
  destruct (split_once (ch "#") rest) as [u3 f] eqn:E1.
  destruct (split_once (ch "?") u3) as [pf q] eqn:E2.
  destruct (checknetloc plat net) as [[]|]; [|discriminate].
  cbn [bind] in H. apply Ok_inj in H. subst sr. cbn [split_path].
  apply split_once_spec in E1, E2. destruct E1 as [_ E1], E2 as [_ E2].
  destruct E2 as [[_ ->]|[_ [-> _]]]; destruct E1 as [[_ ->]|[_ [-> _]]].
  - exists (ch "?" :: q ++ ch "#" :: f). split; [|left; reflexivity].
    rewrite <- app_assoc. reflexivity.
  - exists (ch "?" :: q). split; [reflexivity|left; reflexivity].
  - exists (ch "#" :: f). split; [reflexivity|right; reflexivity].
  - exists []. split; [symmetry; apply app_nil_r|exact I].
Qed.

(** What [urlsplit] guarantees about its result when the netloc is
    empty: either the text after the scheme starts with two slashes that
    a path or nothing follows, or it starts with the path. *)
Lemma urlsplit_inv_empty : forall plat u sr,
  urlsplit plat u = Ok sr -> split_netloc sr = [] ->
  scheme_ok (split_scheme sr) /\
  avoids ctl (split_path sr) = true /\ avoids ctl (split_fragment sr) = true /\
  avoids [ch "?"; ch "#"] (split_path sr) = true /\
  exists u1 tl,
    split_scheme_off (cleaned u) = (split_scheme sr, u1) /\ after_path tl /\
    ((u1 = ch "/" :: ch "/" :: split_path sr ++ tl /\
      (split_path sr = [] \/ exists t, split_path sr = ch "/" :: t))
     \/ (u1 = split_path sr ++ tl /\ Str.eqb (firstn 2 u1) (py "//") = false)).
Proof.
  intros plat u sr H Hnet. rewrite urlsplit_unfold in H.
  destruct (split_scheme_off (cleaned u)) as [sch u1] eqn:Es.
  pose proof Es as Es'.
  apply split_scheme_off_spec in Es. destruct Es as [Hsch [pre Hpre]].
  pose proof (cleaned_avoids u) as Hclean. rewrite Hpre, avoids_app in Hclean.
  apply andb_true_iff in Hclean. destruct Hclean as [_ Hclean].
  destruct (Str.eqb (firstn 2 u1) (py "//")) eqn:E2.
  - apply firstn_2_slashes in E2. destruct E2 as [w ->].
    rewrite splitnetloc_break in H.
    destruct (break is_delim w) as [net u2] eqn:Eb.
    apply break_spec in Eb. destruct Eb as (Ew & _ & Hu2).
    destruct (bracket_check plat net) as [[]|]; [|discriminate].
    cbn [bind] in H. pose proof (split_rest_tail _ _ _ _ _ H) as (tl & Htl & Hafter).
    apply split_rest_inv in H. destruct H as (H1 & H2 & _ & _ & H5 & H6).
    rewrite Hnet in H2. subst net. cbn [app] in Ew. subst w.
    rewrite !avoids_cons in Hclean.
    apply andb_true_iff in Hclean. destruct Hclean as [_ Hclean].
    apply andb_true_iff in Hclean. destruct Hclean as [_ Hclean].
    rewrite H1. split; [exact Hsch|]. split; [|split; [|split]].
    + rewrite Htl, avoids_app in Hclean. apply andb_true_iff in Hclean. tauto.
    + apply H6. exact Hclean.
    + exact H5.
    + exists (ch "/" :: ch "/" :: u2), tl. split; [reflexivity|]. split; [exact Hafter|].
      left. split; [rewrite Htl at 1; reflexivity|].
      destruct (split_path sr) as [|x t] eqn:Ep; [left; reflexivity|right].
      exists t. f_equal. rewrite Htl in Hu2. cbn [app] in Hu2.
      rewrite avoids_cons in H5. apply andb_true_iff in H5. destruct H5 as [H5 _].
      apply negb_true_iff in H5. unfold Str.elem in H5. cbn [existsb] in H5.
      rewrite orb_false_r in H5. apply orb_false_iff in H5. destruct H5 as [Hq Hh].
      unfold is_delim in Hu2. rewrite Hq, Hh in Hu2. rewrite !orb_false_r in Hu2.
      apply N.eqb_eq in Hu2. exact Hu2.
  - pose proof (split_rest_tail _ _ _ _ _ H) as (tl & Htl & Hafter).
    apply split_rest_inv in H. destruct H as (H1 & _ & _ & _ & H5 & H6).
    rewrite H1. split; [exact Hsch|]. split; [|split; [|split]].
    + rewrite Htl, avoids_app in Hclean. apply andb_true_iff in Hclean. tauto.
    + apply H6. exact Hclean.
    + exact H5.
    + exists u1, tl. split; [reflexivity|]. split; [exact Hafter|]. right.
      split; [exact Htl|exact E2].
Qed.

Lemma no_slashes_tail : forall url1 tl,
  Str.eqb (firstn 2 url1) (py "//") = false -> after_path tl ->
  Str.eqb (firstn 2 (url1 ++ tl)) (py "//") = false.
Proof.
  intros url1 tl H Ht. destruct url1 as [|x [|y url1]].
  - destruct tl as [|z tl]; [reflexivity|]. cbn [app]. cbn [after_path] in Ht.
    destruct Ht as [-> | ->]; destruct tl; reflexivity.
  - destruct tl as [|z tl]; [exact H|]. cbn [after_path] in Ht. cbn [app firstn].
    destruct Ht as [-> | ->]; simpl; rewrite andb_false_r; reflexivity.
  - exact H.
Qed.

(** The URL text without an authority part. *)
Lemma urlsplit_plain : forall plat sch url1 q f,
  scheme_ok sch ->
  avoids ctl url1 = true -> avoids ctl q = true -> avoids ctl f = true ->
  avoids [ch "?"; ch "#"] url1 = true ->
  Str.elem (ch "#") q = false ->
  Str.eqb (firstn 2 url1) (py "//") = false ->
  (sch = [] ->
   schemeless ((url1 ++ opt_part (ch "?") q) ++ opt_part (ch "#") f) = true /\
   match (url1 ++ opt_part (ch "?") q) ++ opt_part (ch "#") f with
   | [] => True
   | x :: _ => c0_control_or_space x = false
   end) ->
  urlsplit plat ((if nonempty sch then sch ++ [ch ":"] else []) ++
                 (url1 ++ opt_part (ch "?") q) ++ opt_part (ch "#") f)
  = Ok (mkSplit sch [] url1 q f).
Proof.
  intros plat sch url1 q f Hsch Cu Cq Cf Au Hq Hs Hno.
  set (rest := (url1 ++ opt_part (ch "?") q) ++ opt_part (ch "#") f) in *.
  assert (Crest : avoids ctl rest = true).
  { unfold rest. rewrite !avoids_app, Cu. cbn [andb].
    rewrite !opt_part_avoids by (try assumption; reflexivity). reflexivity. }
  assert (Hscheme : split_scheme_off ((if nonempty sch then sch ++ [ch ":"] else []) ++ rest)
                    = (sch, rest) /\
                    cleaned ((if nonempty sch then sch ++ [ch ":"] else []) ++ rest)
                    = (if nonempty sch then sch ++ [ch ":"] else []) ++ rest).
  { destruct sch as [|c0 t] eqn:Esch.
    - cbn [nonempty app]. destruct (Hno eq_refl) as [H1 H2]. split.
      + apply split_scheme_off_schemeless. exact H1.
      + destruct rest as [|x r]; [reflexivity|]. apply cleaned_id; assumption.
    - cbn [nonempty]. rewrite <- app_assoc. cbn [app]. split.
      + rewrite (app_comm_cons t). apply split_scheme_off_rebuild; [exact Hsch|discriminate].
      + apply cleaned_id.
        * destruct Hsch as [Hsch|((c & r & E & Ha) & _)]; [discriminate|].
          injection E as <- <-. apply alpha_range in Ha.
          unfold c0_control_or_space. apply N.leb_gt. lia.
        * apply scheme_ok_avoids in Hsch. rewrite avoids_cons in Hsch.
          apply andb_true_iff in Hsch. destruct Hsch as [H1 H2].
          rewrite avoids_cons, avoids_app, H1, H2. cbn [andb].
          rewrite avoids_cons. exact Crest. }
  destruct Hscheme as [Hscheme Hclean].
  rewrite urlsplit_unfold, Hclean, Hscheme.
  assert (E2 : Str.eqb (firstn 2 rest) (py "//") = false).
  { unfold rest. rewrite <- app_assoc. apply no_slashes_tail; [exact Hs|].
    apply after_path_parts. }
  rewrite E2. unfold split_rest, rest.
  assert (A1 : Str.elem (ch "?") url1 = false).
  { apply (avoids_elem _ _ _ Au). simpl. auto. }
  assert (A2 : Str.elem (ch "#") url1 = false).
  { apply (avoids_elem _ _ _ Au). simpl. auto. }
  rewrite split_once_part.
  - rewrite split_once_part by exact A1. reflexivity.
  - rewrite elem_app, A2. unfold opt_part. destruct q as [|y q]; [reflexivity|].
    cbn [nonempty orb]. exact Hq.
Qed.

Lemma urlunsplit_empty : forall sch url1 q f,
  urlunsplit sch [] url1 q f =
  (if nonempty sch then sch ++ [ch ":"] else []) ++
  (if writes_slashes sch url1
   then ch "/" :: ch "/" :: [] ++ (rooted url1 ++ opt_part (ch "?") q) ++ opt_part (ch "#") f
   else (url1 ++ opt_part (ch "?") q) ++ opt_part (ch "#") f).
Proof.
  intros sch url1 q f. unfold urlunsplit, writes_slashes, rooted, opt_part.
  cbn [nonempty orb].
  destruct (nonempty sch && Str.mem sch uses_netloc && negb (Str.eqb (firstn 2 url1) (py "//")));
    change (py "//") with [ch "/"; ch "/"];
    destruct sch; destruct q; destruct f; cbn [nonempty app];
    rewrite <- ?app_assoc; cbn [app]; rewrite ?app_nil_r, <- ?app_assoc; cbn [app];
    rewrite <- ?app_assoc; reflexivity.
Qed.

Lemma rooted_shape : forall url, rooted url = [] \/ exists t, rooted url = ch "/" :: t.
Proof.
  intro url. unfold rooted. destruct url as [|x t]; [left; reflexivity|right].
  cbn [nonempty andb firstn]. destruct (Str.eqb [x] (py "/")) eqn:E; cbn [negb].
  - apply eqb_eq in E. injection E as ->. exists t. reflexivity.
  - eexists. reflexivity.
Qed.

Lemma rooted_rooted : forall url, rooted (rooted url) = rooted url.
Proof.
  intro url. destruct (rooted_shape url) as [E|[t E]]; rewrite E; reflexivity.
Qed.

Lemma rooted_no_slashes : forall url,
  Str.eqb (firstn 2 url) (py "//") = false ->
  Str.eqb (firstn 2 (rooted url)) (py "//") = false.
Proof.
  intros url H. unfold rooted. destruct url as [|x t]; [reflexivity|].
  cbn [nonempty andb firstn]. destruct (Str.eqb [x] (py "/")) eqn:E; cbn [negb]; [exact H|].
  simpl in E. rewrite andb_true_r in E.
  destruct t as [|y t]; simpl; rewrite E; reflexivity.
Qed.

(** The text [urlunsplit] writes for [rooted url] is the one it writes
    for [url], when it writes the two slashes. *)
Lemma urlunsplit_rooted : forall sch url1 q f,
  writes_slashes sch url1 = true ->
  urlunsplit sch [] (rooted url1) q f = urlunsplit sch [] url1 q f.
Proof.
  intros sch url1 q f H. rewrite !urlunsplit_empty.
  assert (H' : writes_slashes sch (rooted url1) = true).
  { unfold writes_slashes in *. apply andb_true_iff in H. destruct H as [H1 H2].
    rewrite H1. cbn [andb]. apply negb_true_iff in H2. apply negb_true_iff.
    apply rooted_no_slashes. exact H2. }
  rewrite H, H', rooted_rooted. reflexivity.
Qed.

(** ** [_splitparams] after a slash *)

Lemma splitparams_slash : forall s a b,
  Str.elem (ch ";") s = true -> splitparams s = (a, b) ->
  splitparams (ch "/" :: s) = (ch "/" :: a, b).
Proof.
  intros s a b Hsc H. unfold splitparams in *.
  rewrite elem_cons. cbn [N.eqb orb]. change (Str.elem (ch "/") (ch "/" :: s)) with true.
  cbn [Str.rfind].
  destruct (Str.elem (ch "/") s) eqn:Hsl.
  - destruct (Str.rfind (ch "/") s) as [r|] eqn:Er.
    + unfold Str.find_from in *. cbn [skipn].
      destruct (Str.find (ch ";") (skipn r s)) as [i|].
      * apply pair_equal_spec in H. destruct H as [<- <-]. reflexivity.
      * apply pair_equal_spec in H. destruct H as [<- <-]. reflexivity.
    + apply rfind_none in Er. congruence.
  - assert (Er : Str.rfind (ch "/") s = None) by (apply rfind_none; exact Hsl).
    rewrite Er. change (ch "/" =? ch "/") with true. cbv iota.
    unfold Str.find_from. cbn [skipn]. rewrite find_cons_neq by discriminate.
    destruct (Str.find (ch ";") s) as [i|] eqn:Ef.
    + apply pair_equal_spec in H. destruct H as [<- <-]. reflexivity.
    + apply find_none in Ef. congruence.
Qed.

Lemma no_slashes_app : forall a tl,
  Str.eqb (firstn 2 a) (py "//") = false ->
  match tl with [] => True | x :: _ => x <> ch "/" end ->
  Str.eqb (firstn 2 (a ++ tl)) (py "//") = false.
Proof.
  intros a tl H Ht. destruct a as [|x [|y a]].
  - destruct tl as [|z tl]; [reflexivity|]. apply N.eqb_neq in Ht.
    destruct tl; simpl in Ht |- *; rewrite Ht; reflexivity.
  - destruct tl as [|z tl]; [exact H|]. apply N.eqb_neq in Ht.
    simpl in Ht |- *. rewrite Ht. cbn [andb]. apply andb_false_r.
  - exact H.
Qed.

Lemma resplit_rooted : forall (b : bool) url1 pth prm,
  (if b && Str.elem (ch ";") url1 then splitparams url1 else (url1, [])) = (pth, prm) ->
  url1 = pth ++ opt_part (ch ";") prm ->
  exists pth',
    (if b && Str.elem (ch ";") (rooted url1) then splitparams (rooted url1)
     else (rooted url1, [])) = (pth', prm) /\
    pth' ++ opt_part (ch ";") prm = rooted url1 /\
    (pth' = pth \/ pth' = ch "/" :: pth).
Proof.
  intros b url1 pth prm H E.
  unfold rooted.
  destruct (nonempty url1 && negb (Str.eqb (firstn 1 url1) (py "/"))) eqn:C.
  - rewrite elem_cons. change (ch ";" =? ch "/") with false. cbn [orb].
    destruct (b && Str.elem (ch ";") url1) eqn:B.
    + apply andb_true_iff in B. destruct B as [_ B].
      rewrite (splitparams_slash url1 pth prm B H).
      exists (ch "/" :: pth). split; [reflexivity|]. split; [rewrite E; reflexivity|].
      right. reflexivity.
    + apply pair_equal_spec in H. destruct H as [<- <-].
      exists (ch "/" :: url1). split; [reflexivity|]. split; [apply app_nil_r|].
      right. reflexivity.
  - exists pth. split; [exact H|]. split; [symmetry; exact E|]. left. reflexivity.
Qed.

(** Parsing the URL that [urlunparse] writes from the components of a
    parsed URL without an authority, whose path does not start with two
    slashes, with another query in the place of the original one: the
    components come back, but for the path, which may have got a leading
    slash, and [urlunparse] writes the same text from them. *)
Lemma urlparse_urlunparse_empty : forall plat u p q,
  urlparse plat u = Ok p -> netloc p = [] ->
  Str.eqb (firstn 2 (path p)) (py "//") = false ->
  avoids ctl q = true -> Str.elem (ch "#") q = false ->
  exists pth,
    urlparse plat (urlunparse (scheme p) (netloc p) (path p) (params p) q (fragment p))
    = Ok (mkParse (scheme p) (netloc p) pth (params p) q (fragment p)) /\
    (pth = path p \/ pth = ch "/" :: path p) /\
    forall q2,
      urlunparse (scheme p) (netloc p) pth (params p) q2 (fragment p)
      = urlunparse (scheme p) (netloc p) (path p) (params p) q2 (fragment p).
Proof.
  intros plat u p q H Hnet Hpp Cq Hq. unfold urlparse in H.
  destruct (urlsplit plat u) as [sr|] eqn:Es; [|discriminate]. cbn [bind] in H.
  destruct (if Str.mem (split_scheme sr) uses_params && Str.elem (ch ";") (split_path sr)
            then splitparams (split_path sr) else (split_path sr, [])) as [pth prm] eqn:Ep.
  apply Ok_inj in H. subst p. cbn [scheme netloc path params query fragment] in *.
  pose proof (urlsplit_inv_empty plat u sr Es Hnet)
    as (Hsch & Cp & Cf & Ap & u1 & tl & Eoff & Hafter & Hcase).
  assert (Hpre : (exists t, split_path sr = (pth ++ opt_part (ch ";") prm) ++ t) /\
                 (if Str.mem (split_scheme sr) uses_params
                     && Str.elem (ch ";") (pth ++ opt_part (ch ";") prm)
                  then splitparams (pth ++ opt_part (ch ";") prm)
                  else (pth ++ opt_part (ch ";") prm, [])) = (pth, prm)).
  { destruct (Str.mem (split_scheme sr) uses_params) eqn:Em; cbn [andb] in Ep |- *.
    - destruct (Str.elem (ch ";") (split_path sr)) eqn:Esc.
      + apply splitparams_rejoin; assumption.
      + apply pair_equal_spec in Ep. destruct Ep as [<- <-].
        unfold opt_part. cbn [nonempty]. rewrite app_nil_r, Esc. split; [|reflexivity].
        exists []. symmetry. apply app_nil_r.
    - apply pair_equal_spec in Ep. destruct Ep as [<- <-].
      unfold opt_part. cbn [nonempty]. rewrite app_nil_r. split; [|reflexivity].
      exists []. symmetry. apply app_nil_r. }
  destruct Hpre as [[t Ht] Hsplit].
  assert (Hns : Str.eqb (firstn 2 (pth ++ opt_part (ch ";") prm)) (py "//") = false).
  { apply no_slashes_app; [exact Hpp|]. unfold opt_part.
    destruct prm; cbn [nonempty]; [exact I|discriminate]. }
  set (url1 := pth ++ opt_part (ch ";") prm) in *.
  assert (Cu : avoids ctl url1 = true).
  { rewrite Ht, avoids_app in Cp. apply andb_true_iff in Cp. tauto. }
  assert (Au : avoids [ch "?"; ch "#"] url1 = true).
  { rewrite Ht, avoids_app in Ap. apply andb_true_iff in Ap. tauto. }
  rewrite Hnet, urlunparse_unsplit. fold url1. rewrite urlunsplit_empty.
  destruct (writes_slashes (split_scheme sr) url1) eqn:W.
  - (* the two slashes of an empty authority are written *)
    destruct (resplit_rooted (Str.mem (split_scheme sr) uses_params) url1 pth prm Hsplit eq_refl)
      as (pth' & Hre & Hjoin & Hpth).
    exists pth'. split; [|split; [exact Hpth|]].
    + unfold urlparse. rewrite urlsplit_slashes; try assumption; try reflexivity.
      * cbn [bind split_scheme split_netloc split_path split_query split_fragment].
        rewrite Hre. reflexivity.
      * unfold rooted. destruct (nonempty url1 && negb (Str.eqb (firstn 1 url1) (py "/")));
          [|exact Cu]. rewrite avoids_cons, Cu. reflexivity.
      * apply rooted_shape.
      * unfold rooted. destruct (nonempty url1 && negb (Str.eqb (firstn 1 url1) (py "/")));
          [|exact Au]. rewrite avoids_cons, Au. reflexivity.
    + intro q2. rewrite !urlunparse_unsplit. fold url1. rewrite Hjoin.
      apply urlunsplit_rooted. exact W.
  - (* the text starts with the path *)
    exists pth. split; [|split; [left; reflexivity|reflexivity]].
    unfold urlparse. rewrite urlsplit_plain; try assumption.
    + cbn [bind split_scheme split_netloc split_path split_query split_fragment].
      match goal with
      | |- context [if ?c then ?a else ?b] =>
          replace (if c then a else b) with (pth, prm) by (symmetry; exact Hsplit)
      end.
      reflexivity.
    + intro Hs. rewrite Hs in Eoff. apply schemeless_split in Eoff.
      destruct Eoff as [Hless Eu1]. rewrite <- app_assoc.
      pose proof (after_path_parts q (split_fragment sr)) as Hq2.
      set (tl' := opt_part (ch "?") q ++ opt_part (ch "#") (split_fragment sr)) in *.
      destruct url1 as [|x r] eqn:Eu.
      * cbn [app]. destruct tl' as [|y r']; [auto|]. cbn [after_path] in Hq2.
        destruct Hq2 as [-> | ->]; (split; [apply schemeless_head|]; reflexivity).
      * destruct Hcase as [[E1 Hp]|[E1 _]].
        -- destruct Hp as [Hp|[t0 Hp]]; rewrite Hp in Ht; [discriminate|].
           cbn [app] in Ht. injection Ht as <- _.
           split; [apply schemeless_head|]; reflexivity.
        -- rewrite Ht, <- app_assoc, Eu1 in E1. split.
           ++ apply (schemeless_tail (x :: r) (t ++ tl)); [rewrite <- E1; exact Hless|].
              destruct tl' as [|y r']; [exact I|]. cbn [after_path] in Hq2.
              destruct Hq2 as [-> | ->]; (split; [reflexivity|discriminate]).
           ++ cbn [app] in E1 |- *. apply (cleaned_head u x _ E1).
Qed.

(** ** The [try] block of [redact_url_parameters] *)

Lemma redact_try_inv : forall plat url P T out,
  redact_try plat url P T = Ok out ->
  exists p q',
    urlparse plat url = Ok p /\
    urlencode (redact_params P T (parse_qs (query p))) = Ok q' /\
    out = urlunparse (scheme p) (netloc p) (path p) (params p) q' (fragment p).
Proof.
  intros plat url P T out H. unfold redact_try in H.
  destruct (urlparse plat url) as [p|] eqn:Ep; [|discriminate]. cbn [bind] in H.
  destruct (urlencode (redact_params P T (parse_qs (query p)))) as [q'|] eqn:Eq; [|discriminate].
  cbn [bind] in H. apply Ok_inj in H. exists p, q'. auto.
Qed.

Lemma redact_ok : forall plat url P T out,
  redact_try plat url P T = Ok out -> redact_url_parameters plat url P T = out.
Proof.
  intros plat url P T out H. unfold redact_url_parameters, redact_url_parameters_logged.
  rewrite H. reflexivity.
Qed.

Lemma redact_raise : forall plat url P T e,
  redact_try plat url P T = Raise e -> redact_url_parameters plat url P T = url.
Proof.
  intros plat url P T e H. unfold redact_url_parameters, redact_url_parameters_logged.
  rewrite H. reflexivity.
Qed.

Lemma always_safe_range : forall b, always_safe b = true -> 45 <= b <= 126.
Proof.
  intros b H.
  unfold always_safe, Str.is_ascii_alpha, Str.is_upper, Str.is_lower, Str.is_digit in H.
  repeat (apply orb_true_iff in H; destruct H as [H|H]);
    try (apply andb_true_iff in H; destruct H as [H1 H2]; apply N.leb_le in H1, H2; lia);
    apply N.eqb_eq in H; subst; cbv; split; discriminate.
Qed.

(** An encoded query holds no control character and no [#]. *)
Lemma encoded_query_clean : forall d q,
  urlencode d = Ok q -> avoids ctl q = true /\ Str.elem (ch "#") q = false.
Proof.
  intros d q H. apply urlencode_parse_qsl in H. destruct H as (_ & _ & H).
  assert (Hx : forall x, urlenc_char x || (x =? ch "=") || (x =? ch "&") = true -> 37 <= x).
  { intros x Hx. unfold urlenc_char in Hx.
    apply orb_true_iff in Hx. destruct Hx as [Hx|Hx].
    2: { apply N.eqb_eq in Hx. subst. cbv. discriminate. }
    apply orb_true_iff in Hx. destruct Hx as [Hx|Hx].
    2: { apply N.eqb_eq in Hx. subst. cbv. discriminate. }
    apply orb_true_iff in Hx. destruct Hx as [Hx|Hx].
    2: { apply N.eqb_eq in Hx. subst. cbv. discriminate. }
    apply orb_true_iff in Hx. destruct Hx as [Hx|Hx].
    2: { apply N.eqb_eq in Hx. subst. cbv. discriminate. }
    apply always_safe_range in Hx. lia. }
  split.
  - revert H. apply forallb_impl. intros x Hx'. apply Hx in Hx'.
    apply negb_true_iff. apply elem_false. intros [E|[E|[E|[]]]]; subst x; lia.
  - apply (forallb_not_elem _ _ _ H). reflexivity.
Qed.

(** ** The pairs of a dictionary *)

Lemma filter_key_absent : forall k d,
  ~ In k (keys d) -> filter (fun kv => Str.eqb k (fst kv)) (flatten d) = [].
Proof.
  intros k. induction d as [|[k0 vs] d IH]; intro H; [reflexivity|].
  unfold flatten. cbn [flat_map fst snd]. rewrite filter_app. fold (flatten d).
  rewrite IH by (intro Hin; apply H; right; exact Hin). rewrite app_nil_r.
  assert (E : Str.eqb k k0 = false).
  { apply eqb_neq. intros ->. apply H. left. reflexivity. }
  clear -E. induction vs as [|v vs IHv]; [reflexivity|]. simpl. rewrite E. exact IHv.
Qed.

Lemma filter_key_flatten : forall k d,
  NoDup (keys d) ->
  filter (fun kv => Str.eqb k (fst kv)) (flatten d) =
  match dict_get k d with Some vs => map (pair k) vs | None => [] end.
Proof.
  intros k. induction d as [|[k0 vs] d IH]; intro Hnd; [reflexivity|].
  inversion Hnd as [|? ? Hk Hnd']; subst.
  unfold flatten. cbn [flat_map fst snd]. rewrite filter_app. fold (flatten d).
  cbn [dict_get]. destruct (Str.eqb k k0) eqn:E.
  - apply eqb_eq in E. subst k0. rewrite filter_key_absent by exact Hk. rewrite app_nil_r.
    apply filter_all. intros [a b] Hin. apply in_map_iff in Hin.
    destruct Hin as (v & Ev & _). assert (a = k) by congruence. subst a. apply eqb_refl.
  - rewrite IH by exact Hnd'.
    assert (F : filter (fun kv : str * str => Str.eqb k (fst kv)) (map (pair k0) vs) = []).
    { clear -E. induction vs as [|v vs IHv]; [reflexivity|]. simpl. rewrite E. exact IHv. }
    rewrite F. reflexivity.
Qed.

Lemma keys_flatten : forall d x, In x (map fst (flatten d)) -> In x (keys d).
Proof.
  intros d x H. apply in_map_iff in H. destruct H as ([a b] & <- & H).
  unfold flatten in H. apply in_flat_map in H. destruct H as ([k vs] & Hd & H).
  simpl in H. apply in_map_iff in H. destruct H as (v & E & _).
  assert (k = a) by congruence. subst a.
  unfold keys. apply in_map_iff. exists (k, vs). auto.
Qed.

Lemma first_occurrences_skip : forall k seen (vs : list str) l,
  first_occurrences_from (k :: seen) (map fst (map (pair k) vs) ++ l)
  = first_occurrences_from (k :: seen) l.
Proof.
  intros k seen. induction vs as [|v vs IH]; intro l; [reflexivity|].
  cbn [map fst app first_occurrences_from Str.mem existsb].
  rewrite eqb_refl. cbn [orb]. apply IH.
Qed.

Lemma first_occurrences_flatten : forall d seen,
  NoDup (keys d) -> Forall (fun kv => snd kv <> []) d ->
  (forall k, In k (keys d) -> Str.mem k seen = false) ->
  first_occurrences_from seen (map fst (flatten d)) = keys d.
Proof.
  induction d as [|[k vs] d IH]; intros seen Hnd Hne Hs; [reflexivity|].
  inversion Hnd as [|? ? Hk Hnd']; subst. inversion Hne as [|? ? Hv Hne']; subst.
  destruct vs as [|v vs]; [simpl in Hv; congruence|].
  unfold flatten. cbn [flat_map fst snd map app]. fold (flatten d).
  cbn [first_occurrences_from]. rewrite (Hs k) by (left; reflexivity).
  rewrite map_app, first_occurrences_skip. cbn [keys map fst]. f_equal.
  apply IH; try assumption. intros k' Hk'.
  change (Str.mem k' (k :: seen)) with (Str.eqb k' k || Str.mem k' seen).
  rewrite (Hs k') by (right; exact Hk'). rewrite orb_false_r.
  apply eqb_neq. intros ->. contradiction.
Qed.

Lemma redact_params_lists : forall P T d,
  Forall (fun kv => snd kv <> []) d ->
  Forall (fun kv : str * list str => snd kv <> []) (redact_params P T d).
Proof.
  unfold redact_params. induction P as [|p P IH]; intros T d H; cbn [fold_left]; [exact H|].
  apply IH. destruct (dict_mem p d); [|exact H].
  apply dict_set_Forall; [exact H|]. simpl. discriminate.
Qed.

Lemma wf_lists : forall d, well_formed d -> Forall (fun kv : str * list str => snd kv <> []) d.
Proof.
  intros d [_ H]. revert H. apply Forall_impl. intros kv [H _]. exact H.
Qed.

Lemma values_of_filter : forall k p prs,
  values_of k (filter (fun kv => p (snd kv)) prs) = filter p (values_of k prs).
Proof.
  intros k p. unfold values_of. induction prs as [|[a b] prs IH]; [reflexivity|].
  cbn [filter snd fst]. destruct (p b) eqn:Ep; destruct (Str.eqb k a) eqn:Ek;
    cbn [filter map snd fst]; rewrite ?Ep, ?Ek; cbn [map snd]; rewrite ?Ep; rewrite IH; reflexivity.
Qed.

Lemma values_of_flatten : forall k d,
  NoDup (keys d) ->
  values_of k (flatten d) = match dict_get k d with Some vs => vs | None => [] end.
Proof.
  intros k d H. unfold values_of. rewrite filter_key_flatten by exact H.
  destruct (dict_get k d) as [vs|]; [|reflexivity].
  rewrite map_map. simpl. apply map_id.
Qed.

(** ** The authority of a candidate *)

Lemma host_start_range : forall h,
  host_start h = true -> 45 <= h <= 122 /\ h <> 47 /\ h <> 63.
Proof.
  intros h H. unfold host_start, Re.in_ranges, host_chars in H. cbn [existsb] in H.
  repeat (apply orb_true_iff in H; destruct H as [H|H]);
    try discriminate;
    try (apply andb_true_iff in H; destruct H as [H1 H2]; apply N.leb_le in H1, H2; lia).
  apply N.eqb_eq in H. subst h. cbv. repeat split; discriminate.
Qed.

Lemma scheme_ok_http : forall sch,
  sch = py "http" \/ sch = py "https" -> scheme_ok sch /\ sch <> [].
Proof.
  intros sch [-> | ->]; (split; [right|discriminate]);
    (split; [eexists _, _; split; reflexivity|split; reflexivity]).
Qed.

Lemma cleaned_candidate : forall sch h rest,
  sch = py "http" \/ sch = py "https" -> host_start h = true ->
  exists rest', cleaned (sch ++ py "://" ++ h :: rest)
                = sch ++ ch ":" :: ch "/" :: ch "/" :: h :: rest'.
Proof.
  intros sch h rest Hs Hh. apply host_start_range in Hh.
  assert (E9 : (h =? 9) = false) by (apply N.eqb_neq; lia).
  assert (E13 : (h =? 13) = false) by (apply N.eqb_neq; lia).
  assert (E10 : (h =? 10) = false) by (apply N.eqb_neq; lia).
  exists (fold_left (fun u b => Str.remove b u) unsafe_url_bytes_to_remove rest).
  unfold cleaned, unsafe_url_bytes_to_remove, Str.remove.
  destruct Hs as [-> | ->]; cbn [py map list_ascii_of_string app Str.lstrip fold_left];
    simpl; repeat (rewrite ?E9, ?E13, ?E10; simpl); reflexivity.
Qed.

(** A candidate that parses has an authority. *)
Lemma candidate_netloc : forall plat sch h rest p,
  sch = py "http" \/ sch = py "https" -> host_start h = true ->
  urlparse plat (sch ++ py "://" ++ h :: rest) = Ok p -> netloc p <> [].
Proof.
  intros plat sch h rest p Hs Hh H. unfold urlparse in H.
  destruct (urlsplit plat (sch ++ py "://" ++ h :: rest)) as [sr|] eqn:E; [|discriminate].
  cbn [bind] in H.
  assert (Hn : netloc p = split_netloc sr).
  { destruct (if Str.mem (split_scheme sr) uses_params && Str.elem (ch ";") (split_path sr)
              then splitparams (split_path sr) else (split_path sr, [])) as [u prm].
    apply Ok_inj in H. subst p. reflexivity. }
  rewrite Hn. clear H Hn.
  rewrite urlsplit_unfold in E.
  destruct (cleaned_candidate sch h rest Hs Hh) as [rest' Hc]. rewrite Hc in E. clear Hc.
  destruct (scheme_ok_http sch Hs) as [Hok Hne].
  rewrite (split_scheme_off_rebuild sch _ Hok Hne) in E.
  change (Str.eqb (firstn 2 (ch "/" :: ch "/" :: h :: rest')) (py "//")) with true in E.
  cbv iota in E. rewrite splitnetloc_break in E.
  apply host_start_range in Hh.
  assert (Hd : is_delim h = false).
  { unfold is_delim. apply orb_false_iff. split; [apply orb_false_iff; split|];
      apply N.eqb_neq; cbv; lia. }
  cbn [break] in E. rewrite Hd in E.
  destruct (break is_delim rest') as [a b].
  destruct (bracket_check plat (h :: a)) as [[]|]; [|discriminate].
  cbn [bind] in E. apply split_rest_inv in E. destruct E as (_ & -> & _). discriminate.
Qed.

(** Every candidate of a line that [urlparse] accepts has an authority. *)
Lemma candidate_has_authority : forall plat line a b p,
  In (a, b) (candidates plat line) ->
  urlparse plat (firstn (b - a) (skipn a line)) = Ok p -> netloc p <> [].
Proof.
  intros plat line a b p Hin Hp.
  assert (Hs : scan_spans plat url_pattern line 0 (candidates plat line)).
  { apply finditer_scan. intros prev s n H. apply url_pattern_scheme in H. tauto. }
  apply (scan_spans_In _ _ _ _ _ _ _ Hs) in Hin. unfold match_at in Hin.
  apply url_pattern_host in Hin. destruct Hin as (sch & h & rest & Hsch & Hh & E).
  rewrite E in Hp. apply (candidate_netloc plat sch h rest p Hsch Hh Hp).
Qed.

(** ** Redacting twice: claim C3 *)

(** Redacting the URL that a first pass wrote changes nothing more, when
    the URL has an authority and the token is not empty. *)
Lemma redact_try_again : forall plat url P T out,
  T <> [] ->
  (forall p, urlparse plat url = Ok p -> netloc p <> []) ->
  redact_try plat url P T = Ok out ->
  redact_try plat out P T = Ok out.
Proof.
  intros plat url P T out HT Hnet H.
  apply redact_try_inv in H. destruct H as (p & q' & Hp & Hq & ->).
  pose proof (encoded_query_clean _ _ Hq) as [Cq Hq'].
  unfold redact_try.
  rewrite (urlparse_urlunparse plat url p q' Hp (Hnet p Hp) Cq Hq').
  cbn [bind scheme netloc path params query fragment].
  assert (Hwf : well_formed (redact_params P T (parse_qs (query p)))).
  { apply redact_params_wf; [exact HT|apply parse_qs_wf]. }
  rewrite (parse_qs_urlencode _ _ Hwf Hq), redact_params_idem, Hq. reflexivity.
Qed.

(** Redacting a candidate twice, with a token that is not empty, gives
    what redacting it once gives. *)
Lemma redact_candidate_twice : forall plat line a b params_to_redact redaction_string,
  redaction_string <> [] ->
  In (a, b) (candidates plat line) ->
  let url := firstn (b - a) (skipn a line) in
  redact_url_parameters plat
    (redact_url_parameters plat url params_to_redact redaction_string)
    params_to_redact redaction_string
  = redact_url_parameters plat url params_to_redact redaction_string.
Proof.
  intros plat line a b P T HT Hin url.
  destruct (redact_try plat url P T) as [out|e] eqn:E.
  - rewrite (redact_ok _ _ _ _ _ E). apply redact_ok.
    apply (redact_try_again plat url); [exact HT| |exact E].
    intros p Hp. apply (candidate_has_authority plat line a b p Hin Hp).
  - rewrite (redact_raise _ _ _ _ _ E). apply (redact_raise _ _ _ _ e). exact E.
Qed.

(** Redacting the URL that a first pass wrote changes nothing more, when
    the token is not empty and the URL has an authority or a path that
    does not start with two slashes. *)
Lemma redact_try_fixed : forall plat url P T out,
  T <> [] ->
  (forall p, urlparse plat url = Ok p ->
             netloc p <> [] \/ Str.eqb (firstn 2 (path p)) (py "//") = false) ->
  redact_try plat url P T = Ok out ->
  redact_try plat out P T = Ok out.
Proof.
  intros plat url P T out HT Hnet H.
  apply redact_try_inv in H. destruct H as (p & q' & Hp & Hq & ->).
  pose proof (encoded_query_clean _ _ Hq) as [Cq Hq'].
  assert (Hwf : well_formed (redact_params P T (parse_qs (query p)))).
  { apply redact_params_wf; [exact HT|apply parse_qs_wf]. }
  destruct (netloc p) as [|n0 nl] eqn:En.
  - destruct (Hnet p Hp) as [Hne|Hpp]; [congruence|].
    destruct (urlparse_urlunparse_empty plat url p q' Hp En Hpp Cq Hq') as (pth & Hre & _ & Hsame).
    rewrite En in Hre, Hsame. unfold redact_try. rewrite Hre.
    cbn [bind scheme netloc path params query fragment].
    rewrite (parse_qs_urlencode _ _ Hwf Hq), redact_params_idem, Hq. cbn [bind].
    rewrite Hsame. reflexivity.
  - rewrite <- En. apply (redact_try_again plat url); [exact HT| |].
    + intros p0 Hp0. assert (p0 = p) by congruence. subst p0. rewrite En. discriminate.
    + unfold redact_try. rewrite Hp. cbn [bind]. rewrite Hq. reflexivity.
Qed.

(** C3, as the code has it: for a token that is not empty, redacting twice
    gives what redacting once gives on every URL that fails to parse, or
    has an authority, or has a path that does not start with two
    slashes. *)
Theorem C3_redact_idempotent : forall plat url params_to_redact redaction_string,
  redaction_string <> [] ->
  (forall p, urlparse plat url = Ok p ->
             netloc p <> [] \/ Str.eqb (firstn 2 (path p)) (py "//") = false) ->
  redact_url_parameters plat
    (redact_url_parameters plat url params_to_redact redaction_string)
    params_to_redact redaction_string
  = redact_url_parameters plat url params_to_redact redaction_string.
Proof.
  intros plat url P T HT Hnet.
  destruct (redact_try plat url P T) as [out|e] eqn:E.
  - rewrite (redact_ok _ _ _ _ _ E). apply redact_ok.
    apply (redact_try_fixed plat url); assumption.
  - rewrite (redact_raise _ _ _ _ _ E). apply (redact_raise _ _ _ _ e). exact E.
Qed.

Lemma C3_witness :
  redact_url_parameters ascii_platform
    (redact_url_parameters ascii_platform
       (py "http:a;t?password=p1&password=p2&x=") [py "password"] (py "REDACTED"))
    [py "password"] (py "REDACTED")
  = redact_url_parameters ascii_platform
      (py "http:a;t?password=p1&password=p2&x=") [py "password"] (py "REDACTED").
Proof.
  apply (C3_redact_idempotent ascii_platform (py "http:a;t?password=p1&password=p2&x=")).
  - discriminate.
  - intros p H. vm_compute in H. apply Ok_inj in H. subst p. right. reflexivity.
Defined.

(** C3 as stated fails twice over.  With the empty token the first pass
    writes [a=], which the second pass reads as a blank value and drops;
    and a URL with an empty authority loses two slashes at each pass. *)
Lemma C3_not_idempotent :
  (redact_url_parameters ascii_platform
     (redact_url_parameters ascii_platform (py "http://h/?a=1") [py "a"] []) [py "a"] []
   <> redact_url_parameters ascii_platform (py "http://h/?a=1") [py "a"] []) /\
  redact_url_parameters ascii_platform (py "http://h/?a=1") [py "a"] [] = py "http://h/?a=" /\
  redact_url_parameters ascii_platform (py "http://h/?a=") [py "a"] [] = py "http://h/" /\
  (redact_url_parameters ascii_platform
     (redact_url_parameters ascii_platform (py "http://////x") [py "a"] (py "REDACTED"))
     [py "a"] (py "REDACTED")
   <> redact_url_parameters ascii_platform (py "http://////x") [py "a"] (py "REDACTED")) /\
  redact_url_parameters ascii_platform (py "http://////x") [py "a"] (py "REDACTED")
  = py "http:////x" /\
  redact_url_parameters ascii_platform (py "http:////x") [py "a"] (py "REDACTED")
  = py "http://x".
Proof.
  repeat match goal with |- _ /\ _ => split end;
    vm_compute; try reflexivity; intro H; discriminate H.
Qed.

(** ** The redacted value: claim C1 *)

Lemma Forall2_filter : forall (A B : Type) (R : A -> B -> Prop) (p : A -> bool) (p' : B -> bool) l l',
  Forall2 R l l' -> (forall a b, R a b -> p a = p' b) ->
  Forall2 R (filter p l) (filter p' l').
Proof.
  intros A B R p p' l l' H Hp. induction H as [|a b l l' Hab _ IH]; [constructor|].
  simpl. rewrite <- (Hp a b Hab). destruct (p a); [constructor; assumption|exact IH].
Qed.

Lemma Forall2_single : forall (A B : Type) (R : A -> B -> Prop) a l,
  Forall2 R [a] l -> exists b, l = [b] /\ R a b.
Proof.
  intros A B R a l H. inversion H as [|? b ? l' Hab Hl]; subst.
  inversion Hl; subst. exists b. auto.
Qed.

(** C1, as the code has it: when the [try] block completes (the URL parses
    and the query re-encodes), a parameter [k] of the list that the query
    holds comes out as one field, [k] then [=] then the token, both
    percent-encoded: the key is kept and its values are collapsed into the
    token.  Read back by [parse_qs], the output's query maps [k] to the
    token alone (for a token that is not empty). *)
Theorem C1_redacted_value : forall plat url params_to_redact redaction_string k p out,
  urlparse plat url = Ok p ->
  redact_try plat url params_to_redact redaction_string = Ok out ->
  In k params_to_redact ->
  dict_mem k (parse_qs (query p)) = true ->
  exists q' k' t',
    quote_plus k = Ok k' /\ quote_plus redaction_string = Ok t' /\
    redact_url_parameters plat url params_to_redact redaction_string
    = urlunparse (scheme p) (netloc p) (path p) (params p) q' (fragment p) /\
    filter (fun f => Str.eqb k (unquote_plus (field_name f))) (query_fields q')
    = [k' ++ ch "=" :: t'] /\
    (redaction_string <> [] -> dict_get k (parse_qs q') = Some [redaction_string]).
Proof.
  intros plat url P T k p out Hp Hok Hk Hmem.
  pose proof (redact_ok _ _ _ _ _ Hok) as Hout.
  apply redact_try_inv in Hok. destruct Hok as (p0 & q' & Hp0 & Hq & ->).
  assert (p0 = p) by congruence. subst p0.
  set (m' := redact_params P T (parse_qs (query p))) in *.
  assert (Hget : dict_get k m' = Some [T]).
  { unfold m'. rewrite redact_params_get. apply mem_In in Hk. rewrite Hk, Hmem. reflexivity. }
  assert (Hnd : NoDup (keys m')).
  { unfold m'. rewrite redact_params_keys. apply parse_qs_wf. }
  pose proof (urlencode_spec _ _ Hq) as (fields & Eq & HF).
  pose proof (Forall2_fields _ _ HF) as (_ & _ & F3 & F4).
  assert (Hfilter : Forall2 encoded_pair
            (filter (fun kv => Str.eqb k (fst kv)) (flatten m'))
            (filter (fun f => Str.eqb k (unquote_plus (field_name f))) fields)).
  { apply Forall2_filter; [exact HF|]. intros [a b] f Hf.
    apply encoded_pair_field in Hf. destruct Hf as (_ & Hn & _). rewrite Hn. reflexivity. }
  rewrite filter_key_flatten, Hget in Hfilter by exact Hnd. cbn [map] in Hfilter.
  apply Forall2_single in Hfilter. destruct Hfilter as (f & Ef & Hf).
  destruct Hf as (k' & t' & Hk' & Ht' & ->). cbn [fst snd] in Hk', Ht'.
  exists q', k', t'. split; [exact Hk'|]. split; [exact Ht'|]. split; [exact Hout|]. split.
  - rewrite Eq, query_fields_join by assumption. exact Ef.
  - intro HT. rewrite (parse_qs_urlencode m' q'); [exact Hget| |exact Hq].
    apply redact_params_wf; [exact HT|apply parse_qs_wf].
Qed.

Lemma C1_witness :
  exists q' k' t',
    quote_plus (py "password") = Ok k' /\ quote_plus (py "REDACTED") = Ok t' /\
    redact_url_parameters ascii_platform
      (py "https://example.com/a?password=p1&password=p2") [py "password"] (py "REDACTED")
    = urlunparse (py "https") (py "example.com") (py "/a") [] q' [] /\
    filter (fun f => Str.eqb (py "password") (unquote_plus (field_name f))) (query_fields q')
    = [k' ++ ch "=" :: t'] /\
    (py "REDACTED" <> [] -> dict_get (py "password") (parse_qs q') = Some [py "REDACTED"]).
Proof.
  apply (C1_redacted_value ascii_platform
           (py "https://example.com/a?password=p1&password=p2")
           [py "password"] (py "REDACTED") (py "password")
           (mkParse (py "https") (py "example.com") (py "/a") [] (py "password=p1&password=p2") [])
           (py "https://example.com/a?password=REDACTED")).
  - vm_compute. reflexivity.
  - vm_compute. reflexivity.
  - left. reflexivity.
  - vm_compute. reflexivity.
Defined.

(** C1 as stated fails when the query cannot be re-encoded: a lone
    surrogate (here U+DC80, what an undecodable byte becomes under
    [surrogateescape]) in any value makes [urlencode] raise; the [except]
    clause then returns the URL as it came, the value of [k] still in it. *)
Lemma C1_value_not_redacted :
  urlparse ascii_platform (py "http://h/?k=secret&z=" ++ [56448])
  = Ok (mkParse (py "http") (py "h") (py "/") [] (py "k=secret&z=" ++ [56448]) []) /\
  dict_get (py "k") (parse_qs (py "k=secret&z=" ++ [56448])) = Some [py "secret"] /\
  redact_url_parameters ascii_platform (py "http://h/?k=secret&z=" ++ [56448])
    [py "k"] (py "REDACTED")
  = py "http://h/?k=secret&z=" ++ [56448].
Proof. repeat split; vm_compute; reflexivity. Qed.

(** ** The loop of [redact_url_parameters], entry by entry *)

Lemma dict_set_map : forall k vs d,
  NoDup (keys d) ->
  dict_mem k d = true ->
  dict_set k vs d = map (fun kv => if Str.eqb (fst kv) k then (fst kv, vs) else kv) d.
Proof.
  intros k vs. induction d as [|[k' vs'] d IH]; intros Hnd Hm; [discriminate|].
  cbn [dict_set map fst]. rewrite (eqb_sym k' k).
  cbn [keys map fst] in Hnd. inversion Hnd as [|? ? Hnotin Hnd']; subst.
  destruct (Str.eqb k k') eqn:E.
  - apply eqb_eq in E. subst k'. f_equal.
    clear IH Hm Hnd Hnd'. induction d as [|[k2 v2] d IH]; [reflexivity|].
    cbn [map fst]. destruct (Str.eqb k2 k) eqn:E2.
    + apply eqb_eq in E2. subst k2. exfalso. apply Hnotin. left. reflexivity.
    + f_equal. apply IH. intro Hin. apply Hnotin. right. exact Hin.
  - f_equal. apply IH; [exact Hnd'|]. cbn [dict_mem] in Hm. rewrite E in Hm. exact Hm.
Qed.

Lemma map_no_key : forall k vs d,
  dict_mem k d = false ->
  map (fun kv : str * list str => if Str.eqb (fst kv) k then (fst kv, vs) else kv) d = d.
Proof.
  intros k vs. induction d as [|[k' vs'] d IH]; intro H; [reflexivity|].
  cbn [dict_mem] in H. apply orb_false_iff in H. destruct H as [H1 H2].
  cbn [map fst]. rewrite (eqb_sym k' k), H1, (IH H2). reflexivity.
Qed.

Lemma redact_params_map : forall P T d,
  NoDup (keys d) -> redact_params P T d = map (redact_entry P T) d.
Proof.
  unfold redact_params. induction P as [|p P IH]; intros T d Hnd.
  - cbn [fold_left]. unfold redact_entry. cbn [Str.mem existsb].
    symmetry. apply map_id.
  - cbn [fold_left].
    assert (Hstep : (if dict_mem p d then dict_set p [T] d else d)
                    = map (fun kv => if Str.eqb (fst kv) p then (fst kv, [T]) else kv) d).
    { destruct (dict_mem p d) eqn:E; [apply dict_set_map; assumption|].
      symmetry. apply map_no_key. exact E. }
    rewrite Hstep, IH.
    + rewrite map_map. apply map_ext. intros [k vs]. unfold redact_entry. cbn [fst].
      change (Str.mem k (p :: P)) with (Str.eqb k p || Str.mem k P).
      destruct (Str.eqb k p); cbn [fst orb]; destruct (Str.mem k P); reflexivity.
    + unfold keys. rewrite map_map.
      replace (map (fun x : str * list str =>
                      fst (if Str.eqb (fst x) p then (fst x, [T]) else x)) d)
        with (map fst d); [exact Hnd|].
      apply map_ext. intros [k vs]. cbn [fst]. destruct (Str.eqb k p); reflexivity.
Qed.

(** ** What redaction leaves alone: claim C4 *)

Lemma wf_get : forall d k vs,
  well_formed d -> dict_get k d = Some vs ->
  vs <> [] /\ filter nonempty vs = vs.
Proof.
  intros d k vs [_ Hg] H. apply dict_get_In in H.
  rewrite Forall_forall in Hg. apply Hg in H. destruct H as [H1 H2]. simpl in *.
  split; [exact H1|]. apply filter_all. intros v Hv.
  rewrite Forall_forall in H2. apply H2 in Hv. destruct v; [congruence|reflexivity].
Qed.

(** Read back, an encoded dictionary gives for a name the values of that
    name that are not blank. *)
Lemma parse_qs_urlencode_get : forall d q k,
  NoDup (keys d) -> urlencode d = Ok q ->
  dict_get k (parse_qs q) =
  match filter nonempty (match dict_get k d with Some vs => vs | None => [] end) with
  | [] => None
  | vals => Some vals
  end.
Proof.
  intros d q k Hnd H. apply urlencode_parse_qsl in H. destruct H as (H & _).
  rewrite parse_qs_get, H.
  rewrite (values_of_filter k nonempty), values_of_flatten by exact Hnd. reflexivity.
Qed.

(** C4, as the code has it.  For a URL that parses, either the query
    cannot be re-encoded and the URL is returned as it came, or the output
    is [urlunparse] of the parsed scheme, authority, path, parameters and
    fragment with the re-encoded query [q'].  Redaction acts on the
    mapping that [parse_qs] reads from the query, entry by entry: an
    entry whose name is in the list gets the token as its one value, any
    other entry is left as it is, name, place and values; and the query
    of the output, read by [parse_qs], gives the values of a name that is
    not in the list as the query of the input does, and the whole
    redacted mapping when the token is not empty.  When no name of the
    list is in the query, [q'] is the re-encoding of the parsed query
    itself and reads as it.  Parsing the output gives the components
    back when there is an authority; without one, when the path does not
    start with two slashes, it gives them back but for the path, which
    may have got a leading slash. *)
Theorem C4_only_listed_values_change : forall plat url params_to_redact redaction_string p,
  urlparse plat url = Ok p ->
  (exists e,
     urlencode (redact_params params_to_redact redaction_string (parse_qs (query p))) = Raise e /\
     redact_url_parameters plat url params_to_redact redaction_string = url)
  \/
  (exists q',
     urlencode (redact_params params_to_redact redaction_string (parse_qs (query p))) = Ok q' /\
     redact_url_parameters plat url params_to_redact redaction_string
     = urlunparse (scheme p) (netloc p) (path p) (params p) q' (fragment p) /\
     redact_params params_to_redact redaction_string (parse_qs (query p))
     = map (redact_entry params_to_redact redaction_string) (parse_qs (query p)) /\
     keys (redact_params params_to_redact redaction_string (parse_qs (query p)))
     = keys (parse_qs (query p)) /\
     (forall k, Str.mem k params_to_redact = false ->
        dict_get k (redact_params params_to_redact redaction_string (parse_qs (query p)))
        = dict_get k (parse_qs (query p)) /\
        dict_get k (parse_qs q') = dict_get k (parse_qs (query p))) /\
     (redaction_string <> [] ->
        parse_qs q' = redact_params params_to_redact redaction_string (parse_qs (query p))) /\
     ((forall k, In k params_to_redact -> dict_mem k (parse_qs (query p)) = false) ->
        urlencode (parse_qs (query p)) = Ok q' /\ parse_qs q' = parse_qs (query p)) /\
     (netloc p <> [] ->
        urlparse plat (redact_url_parameters plat url params_to_redact redaction_string)
        = Ok (mkParse (scheme p) (netloc p) (path p) (params p) q' (fragment p))) /\
     (netloc p = [] -> Str.eqb (firstn 2 (path p)) (py "//") = false ->
        exists pth,
          urlparse plat (redact_url_parameters plat url params_to_redact redaction_string)
          = Ok (mkParse (scheme p) (netloc p) pth (params p) q' (fragment p)) /\
          (pth = path p \/ pth = ch "/" :: path p))).
Proof.
  intros plat url P T p Hp.
  destruct (urlencode (redact_params P T (parse_qs (query p)))) as [q'|e] eqn:Hq.
  - right. exists q'.
    assert (Hok : redact_try plat url P T
                  = Ok (urlunparse (scheme p) (netloc p) (path p) (params p) q' (fragment p))).
    { unfold redact_try. rewrite Hp. cbn [bind]. rewrite Hq. reflexivity. }
    pose proof (redact_ok _ _ _ _ _ Hok) as Hout.
    pose proof (encoded_query_clean _ _ Hq) as [Cq Hq'].
    split; [reflexivity|]. split; [exact Hout|].
    split; [apply redact_params_map; apply parse_qs_wf|].
    split; [apply redact_params_keys|].
    split; [|split; [|split; [|split]]].
    + intros k Hk.
      assert (Hget : dict_get k (redact_params P T (parse_qs (query p)))
                     = dict_get k (parse_qs (query p))).
      { rewrite redact_params_get, Hk. reflexivity. }
      split; [exact Hget|].
      rewrite (parse_qs_urlencode_get (redact_params P T (parse_qs (query p))) q' k);
        [|rewrite redact_params_keys; apply parse_qs_wf|exact Hq].
      rewrite Hget. destruct (dict_get k (parse_qs (query p))) as [vs|] eqn:E; [|reflexivity].
      destruct (wf_get _ _ _ (parse_qs_wf (query p)) E) as [Hne Hf].
      rewrite Hf. destruct vs; [congruence|reflexivity].
    + intro HT. apply parse_qs_urlencode; [|exact Hq].
      apply redact_params_wf; [exact HT|apply parse_qs_wf].
    + intro Hnone. rewrite redact_params_none in Hq by exact Hnone.
      split; [exact Hq|]. apply parse_qs_urlencode; [apply parse_qs_wf|exact Hq].
    + intro Hne. rewrite Hout. apply (urlparse_urlunparse plat url p q' Hp Hne Cq Hq').
    + intros Hnet Hpp. rewrite Hout.
      destruct (urlparse_urlunparse_empty plat url p q' Hp Hnet Hpp Cq Hq')
        as (pth & Hre & Hpth & _).
      exists pth. split; assumption.
  - left. exists e. split; [reflexivity|].
    apply (redact_raise _ _ _ _ e). unfold redact_try. rewrite Hp. cbn [bind]. rewrite Hq.
    reflexivity.
Qed.

Lemma C4_witness :
  (exists e,
     urlencode (redact_params [py "api_key"] (py "REDACTED")
                  (parse_qs (py "api_key=S&x=1"))) = Raise e /\
     redact_url_parameters ascii_platform
       (py "https://example.com/p;t?api_key=S&x=1#frag") [py "api_key"] (py "REDACTED")
     = py "https://example.com/p;t?api_key=S&x=1#frag")
  \/
  (exists q',
     urlencode (redact_params [py "api_key"] (py "REDACTED")
                  (parse_qs (py "api_key=S&x=1"))) = Ok q' /\
     redact_url_parameters ascii_platform
       (py "https://example.com/p;t?api_key=S&x=1#frag") [py "api_key"] (py "REDACTED")
     = urlunparse (py "https") (py "example.com") (py "/p") (py "t") q' (py "frag") /\
     redact_params [py "api_key"] (py "REDACTED") (parse_qs (py "api_key=S&x=1"))
     = map (redact_entry [py "api_key"] (py "REDACTED")) (parse_qs (py "api_key=S&x=1")) /\
     keys (redact_params [py "api_key"] (py "REDACTED") (parse_qs (py "api_key=S&x=1")))
     = keys (parse_qs (py "api_key=S&x=1")) /\
     (forall k, Str.mem k [py "api_key"] = false ->
        dict_get k (redact_params [py "api_key"] (py "REDACTED")
                      (parse_qs (py "api_key=S&x=1")))
        = dict_get k (parse_qs (py "api_key=S&x=1")) /\
        dict_get k (parse_qs q') = dict_get k (parse_qs (py "api_key=S&x=1"))) /\
     (py "REDACTED" <> [] ->
        parse_qs q' = redact_params [py "api_key"] (py "REDACTED")
                        (parse_qs (py "api_key=S&x=1"))) /\
     ((forall k, In k [py "api_key"] -> dict_mem k (parse_qs (py "api_key=S&x=1")) = false) ->
        urlencode (parse_qs (py "api_key=S&x=1")) = Ok q' /\
        parse_qs q' = parse_qs (py "api_key=S&x=1")) /\
     (py "example.com" <> [] ->
        urlparse ascii_platform
          (redact_url_parameters ascii_platform
             (py "https://example.com/p;t?api_key=S&x=1#frag") [py "api_key"] (py "REDACTED"))
        = Ok (mkParse (py "https") (py "example.com") (py "/p") (py "t") q' (py "frag"))) /\
     (py "example.com" = [] -> Str.eqb (firstn 2 (py "/p")) (py "//") = false ->
        exists pth,
          urlparse ascii_platform
            (redact_url_parameters ascii_platform
               (py "https://example.com/p;t?api_key=S&x=1#frag") [py "api_key"] (py "REDACTED"))
          = Ok (mkParse (py "https") (py "example.com") pth (py "t") q' (py "frag")) /\
          (pth = py "/p" \/ pth = ch "/" :: py "/p"))).
Proof.
  apply (C4_only_listed_values_change ascii_platform
           (py "https://example.com/p;t?api_key=S&x=1#frag") [py "api_key"] (py "REDACTED")
           (mkParse (py "https") (py "example.com") (py "/p") (py "t")
                    (py "api_key=S&x=1") (py "frag"))).
  vm_compute. reflexivity.
Defined.

(** C4 as stated fails on "textually unchanged", on "preserved" for a URL
    without an authority, and on the names and values of the parameters
    that are not in the list.  [HTTP://example.com/?a=1] holds no listed
    parameter and its query re-encodes to itself, yet the output has the
    scheme in lower case.  [http:////x?a=1], whose authority is empty
    and whose path is [//x], comes out as [http://x?a=1], a URL whose
    authority is [x] and whose path is empty.  In [http://h/?x=&k=1] the
    parameter [x], not in the list, is dropped with its blank value; in
    [http://h/?name=%E9&x=1] the value of [name], no UTF-8, becomes
    U+FFFD; in [http://h/?a=&b=1&a=2] the name [a] comes after [b]. *)
Lemma C4_text_and_authority_change :
  urlparse ascii_platform (py "HTTP://example.com/?a=1")
  = Ok (mkParse (py "http") (py "example.com") (py "/") [] (py "a=1") []) /\
  dict_mem (py "password") (parse_qs (py "a=1")) = false /\
  urlencode (parse_qs (py "a=1")) = Ok (py "a=1") /\
  redact_url_parameters ascii_platform (py "HTTP://example.com/?a=1")
    [py "password"] (py "REDACTED")
  = py "http://example.com/?a=1" /\
  py "http://example.com/?a=1" <> py "HTTP://example.com/?a=1" /\
  urlparse ascii_platform (py "http:////x?a=1")
  = Ok (mkParse (py "http") [] (py "//x") [] (py "a=1") []) /\
  redact_url_parameters ascii_platform (py "http:////x?a=1") [py "password"] (py "REDACTED")
  = py "http://x?a=1" /\
  urlparse ascii_platform (py "http://x?a=1")
  = Ok (mkParse (py "http") (py "x") [] [] (py "a=1") []) /\
  redact_url_parameters ascii_platform (py "http://h/?x=&k=1") [py "k"] (py "REDACTED")
  = py "http://h/?k=REDACTED" /\
  redact_url_parameters ascii_platform (py "http://h/?name=%E9&x=1")
    [py "password"] (py "REDACTED")
  = py "http://h/?name=%EF%BF%BD&x=1" /\
  redact_url_parameters ascii_platform (py "http://h/?a=&b=1&a=2")
    [py "password"] (py "REDACTED")
  = py "http://h/?b=1&a=2".
Proof.
  repeat match goal with |- _ /\ _ => split end;
    vm_compute; try reflexivity; intro H; discriminate H.
Qed.

(** ** Blank values: claim C8 *)

Lemma parse_field_inv : forall f n v,
  In (n, v) (parse_field f) -> n = unquote_plus (field_name f) /\ nonempty (field_value f) = true.
Proof.
  intros f n v H. unfold parse_field in H. destruct f as [|x f]; [contradiction|].
  unfold field_name, field_value.
  destruct (Str.partition (ch "=") (x :: f)) as [[name b] value].
  destruct b; [|contradiction]. destruct value as [|y value]; [contradiction|].
  destruct H as [H|[]]. split; [|reflexivity]. unfold unquote_plus. congruence.
Qed.

Lemma first_occurrences_In : forall l seen x,
  In x (first_occurrences_from seen l) -> In x l.
Proof.
  induction l as [|y l IH]; intros seen x H; simpl in H; [contradiction|].
  destruct (Str.mem y seen).
  - right. apply (IH _ _ H).
  - destruct H as [->|H]; [left; reflexivity|right; apply (IH _ _ H)].
Qed.

Lemma blank_only_absent : forall k qs,
  blank_only k qs = true -> dict_mem k (parse_qs qs) = false.
Proof.
  intros k qs H. rewrite dict_mem_keys, parse_qs_keys. apply mem_false. intro Hin.
  apply first_occurrences_In in Hin. apply in_map_iff in Hin.
  destruct Hin as ([n v] & E & Hin). simpl in E. subst n.
  rewrite parse_qsl_fields in Hin. apply in_flat_map in Hin. destruct Hin as (f & Hf & Hin).
  apply parse_field_inv in Hin. destruct Hin as [Hn Hv].
  unfold blank_only in H. rewrite forallb_forall in H. apply H in Hf.
  rewrite <- Hn, eqb_refl, Hv in Hf. discriminate.
Qed.

Lemma first_occurrences_keep : forall l seen x,
  In x l -> Str.mem x seen = false -> In x (first_occurrences_from seen l).
Proof.
  induction l as [|y l IH]; intros seen x H Hs; [contradiction|].
  cbn [first_occurrences_from]. destruct (Str.mem y seen) eqn:E.
  - destruct H as [->|H]; [congruence|]. apply IH; assumption.
  - destruct (Str.eqb x y) eqn:Exy.
    + apply eqb_eq in Exy. subst. left. reflexivity.
    + right. destruct H as [->|H]; [rewrite eqb_refl in Exy; discriminate|].
      apply IH; [exact H|].
      change (Str.mem x (y :: seen)) with (Str.eqb x y || Str.mem x seen).
      rewrite Exy, Hs. reflexivity.
Qed.

Lemma forallb_false : forall (A : Type) (p : A -> bool) l,
  forallb p l = false -> exists x, In x l /\ p x = false.
Proof.
  intros A p. induction l as [|y l IH]; intro H; [discriminate|].
  cbn [forallb] in H. destruct (p y) eqn:E.
  - destruct (IH H) as (x & Hx & Px). exists x. split; [right; exact Hx|exact Px].
  - exists y. split; [left; reflexivity|exact E].
Qed.

Lemma parse_field_nonblank : forall f,
  nonempty (field_value f) = true ->
  exists v, In (unquote_plus (field_name f), v) (parse_field f).
Proof.
  intros f H. unfold parse_field, field_name, field_value in *.
  destruct f as [|x f]; [discriminate|].
  destruct (Str.partition (ch "=") (x :: f)) as [[name b] value] eqn:E.
  unfold Str.partition in E.
  destruct (Str.find (ch "=") (x :: f)) as [i|].
  - apply pair_equal_spec in E. destruct E as [E <-].
    apply pair_equal_spec in E. destruct E as [<- <-].
    destruct (skipn (S i) (x :: f)) as [|y value]; [discriminate|].
    eexists. left. reflexivity.
  - apply pair_equal_spec in E. destruct E as [_ <-]. discriminate.
Qed.

(** A name that has a field with a value is a key of [parse_qs]. *)
Lemma not_blank_only_present : forall k qs,
  blank_only k qs = false -> dict_mem k (parse_qs qs) = true.
Proof.
  intros k qs H. unfold blank_only in H. apply forallb_false in H.
  destruct H as (f & Hf & H). apply orb_false_iff in H. destruct H as [Hn Hv].
  apply negb_false_iff in Hn, Hv. apply eqb_eq in Hn.
  apply parse_field_nonblank in Hv. destruct Hv as [v Hv]. rewrite <- Hn in Hv.
  rewrite dict_mem_keys, parse_qs_keys. apply mem_In.
  apply first_occurrences_keep; [|reflexivity].
  apply in_map_iff. exists (k, v). split; [reflexivity|].
  rewrite parse_qsl_fields. apply in_flat_map. exists f. auto.
Qed.

Lemma flatten_keys : forall d x,
  Forall (fun kv : str * list str => snd kv <> []) d ->
  In x (keys d) -> In x (map fst (flatten d)).
Proof.
  intros d x Hne H. unfold keys in H. apply in_map_iff in H.
  destruct H as ([k vs] & <- & Hin).
  rewrite Forall_forall in Hne. pose proof (Hne _ Hin) as Hvs. cbn [snd] in Hvs.
  destruct vs as [|v vs]; [congruence|].
  apply in_map_iff. exists (k, v). split; [reflexivity|].
  unfold flatten. apply in_flat_map. exists (k, v :: vs). split; [exact Hin|].
  left. reflexivity.
Qed.

(** C8, as the code has it: when the [try] block completes, a name that
    the query carries with empty values only is in no field of the output's
    query, listed or not; and a name that the query carries with a value
    that is not empty is the name of a field of the output's query. *)
Theorem C8_blank_names_dropped : forall plat url params_to_redact redaction_string p out,
  urlparse plat url = Ok p ->
  redact_try plat url params_to_redact redaction_string = Ok out ->
  exists q',
    redact_url_parameters plat url params_to_redact redaction_string
    = urlunparse (scheme p) (netloc p) (path p) (params p) q' (fragment p) /\
    forall k,
      (blank_only k (query p) = true ->
         (forall f, In f (query_fields q') -> unquote_plus (field_name f) <> k) /\
         dict_mem k (parse_qs q') = false) /\
      (blank_only k (query p) = false ->
         exists f, In f (query_fields q') /\ unquote_plus (field_name f) = k).
Proof.
  intros plat url P T p out Hp Hok.
  pose proof (redact_ok _ _ _ _ _ Hok) as Hout.
  apply redact_try_inv in Hok. destruct Hok as (p0 & q' & Hp0 & Hq & ->).
  assert (p0 = p) by congruence. subst p0.
  pose proof (urlencode_parse_qsl _ _ Hq) as (H1 & H2 & _).
  exists q'. split; [exact Hout|]. intro k. split.
  - intro Hblank. apply blank_only_absent in Hblank.
    assert (Hk : ~ In k (keys (redact_params P T (parse_qs (query p))))).
    { rewrite redact_params_keys. apply mem_false. rewrite <- dict_mem_keys. exact Hblank. }
    split.
    + intros f Hf E. apply Hk. apply keys_flatten. rewrite <- H2.
      apply in_map_iff. exists f. auto.
    + rewrite dict_mem_keys, parse_qs_keys. apply mem_false. intro Hin.
      apply first_occurrences_In in Hin. rewrite H1 in Hin.
      apply in_map_iff in Hin. destruct Hin as (kv & E & Hin).
      apply filter_In in Hin. destruct Hin as [Hin _].
      apply Hk. apply keys_flatten. apply in_map_iff. exists kv. auto.
  - intro Hval. apply not_blank_only_present in Hval.
    assert (Hk : In k (map fst (flatten (redact_params P T (parse_qs (query p)))))).
    { apply flatten_keys.
      - apply redact_params_lists, wf_lists, parse_qs_wf.
      - rewrite redact_params_keys. apply mem_In. rewrite <- dict_mem_keys. exact Hval. }
    rewrite <- H2 in Hk. apply in_map_iff in Hk. destruct Hk as (f & E & Hf).
    exists f. auto.
Qed.

Lemma C8_witness :
  exists q',
    redact_url_parameters ascii_platform (py "http://h/?a=&b=1") [py "api_key"] (py "REDACTED")
    = urlunparse (py "http") (py "h") (py "/") [] q' [] /\
    ((forall f, In f (query_fields q') -> unquote_plus (field_name f) <> py "a") /\
     dict_mem (py "a") (parse_qs q') = false) /\
    (exists f, In f (query_fields q') /\ unquote_plus (field_name f) = py "b").
Proof.
  destruct (C8_blank_names_dropped ascii_platform (py "http://h/?a=&b=1")
              [py "api_key"] (py "REDACTED")
              (mkParse (py "http") (py "h") (py "/") [] (py "a=&b=1") [])
              (py "http://h/?b=1") eq_refl eq_refl) as (q' & E & H).
  exists q'. split; [exact E|]. split.
  - apply (H (py "a")). reflexivity.
  - apply (H (py "b")). reflexivity.
Defined.

(** C8 as stated fails for a name that has an empty value and another one:
    in [http://h/?a=&a=1] the parameter [a] has an empty value, and the
    output's query still holds [a], with the value [1].  It also fails when
    the query cannot be re-encoded: [http://h/?a=&z=] followed by the lone
    surrogate U+DC80 is returned as it came, the field [a=] in it. *)
Lemma C8_name_with_blank_value_kept :
  In (py "a=") (query_fields (py "a=&a=1")) /\
  field_value (py "a=") = [] /\
  redact_url_parameters ascii_platform (py "http://h/?a=&a=1") [py "api_key"] (py "REDACTED")
  = py "http://h/?a=1" /\
  dict_get (py "a") (parse_qs (py "a=1")) = Some [py "1"] /\
  redact_url_parameters ascii_platform (py "http://h/?a=&z=" ++ [56448])
    [py "api_key"] (py "REDACTED")
  = py "http://h/?a=&z=" ++ [56448].
Proof. repeat split; vm_compute; auto. Qed.

(** ** The order of the names: claim C10 *)

(** C10, as the code has it.  For a URL that parses, either the query
    cannot be re-encoded and the URL is returned as it came, or the
    distinct names of the output's query are, in order, the distinct names
    of the fields of the input's query that have a value that is not
    empty, each at the place of its first such field. *)
Theorem C10_names_keep_first_value_order : forall plat url params_to_redact redaction_string p,
  urlparse plat url = Ok p ->
  (exists e,
     urlencode (redact_params params_to_redact redaction_string (parse_qs (query p))) = Raise e /\
     redact_url_parameters plat url params_to_redact redaction_string = url)
  \/
  (exists q',
     redact_url_parameters plat url params_to_redact redaction_string
     = urlunparse (scheme p) (netloc p) (path p) (params p) q' (fragment p) /\
     first_occurrences (map (fun f => unquote_plus (field_name f)) (query_fields q'))
     = first_occurrences (map fst (parse_qsl (query p)))).
Proof.
  intros plat url P T p Hp.
  destruct (urlencode (redact_params P T (parse_qs (query p)))) as [q'|e] eqn:Hq.
  - right. exists q'. split.
    + apply redact_ok. unfold redact_try. rewrite Hp. cbn [bind]. rewrite Hq. reflexivity.
    + pose proof (urlencode_parse_qsl _ _ Hq) as (_ & H2 & _). rewrite H2.
      unfold first_occurrences at 1. rewrite first_occurrences_flatten.
      * rewrite redact_params_keys. apply parse_qs_keys.
      * rewrite redact_params_keys. apply parse_qs_wf.
      * apply redact_params_lists, wf_lists, parse_qs_wf.
      * reflexivity.
  - left. exists e. split; [reflexivity|].
    apply (redact_raise _ _ _ _ e). unfold redact_try. rewrite Hp. cbn [bind]. rewrite Hq.
    reflexivity.
Qed.

Lemma C10_witness :
  (exists e,
     urlencode (redact_params [py "b"] (py "REDACTED") (parse_qs (py "b=1&a=2&b=3"))) = Raise e /\
     redact_url_parameters ascii_platform (py "http://h/?b=1&a=2&b=3") [py "b"] (py "REDACTED")
     = py "http://h/?b=1&a=2&b=3")
  \/
  (exists q',
     redact_url_parameters ascii_platform (py "http://h/?b=1&a=2&b=3") [py "b"] (py "REDACTED")
     = urlunparse (py "http") (py "h") (py "/") [] q' [] /\
     first_occurrences (map (fun f => unquote_plus (field_name f)) (query_fields q'))
     = first_occurrences (map fst (parse_qsl (py "b=1&a=2&b=3")))).
Proof.
  apply (C10_names_keep_first_value_order ascii_platform (py "http://h/?b=1&a=2&b=3")
           [py "b"] (py "REDACTED")
           (mkParse (py "http") (py "h") (py "/") [] (py "b=1&a=2&b=3") [])).
  vm_compute. reflexivity.
Defined.

(** C10 as stated fails when the first occurrence of a name has an empty
    value: in [http://h/?a=&b=1&a=2] the names occur first in the order
    [a], [b], and the output is [http://h/?b=1&a=2]. *)
Lemma C10_first_occurrence_blank :
  first_occurrences (map field_name (query_fields (py "a=&b=1&a=2"))) = [py "a"; py "b"] /\
  redact_url_parameters ascii_platform (py "http://h/?a=&b=1&a=2") [] (py "REDACTED")
  = py "http://h/?b=1&a=2" /\
  first_occurrences (map field_name (query_fields (py "b=1&a=2"))) = [py "b"; py "a"].
Proof. repeat split; vm_compute; reflexivity. Qed.

(** * Lemmas for the further properties *)

(** ** What the matcher reads *)

Lemma last_app_cons : forall (a : str) y b d, last (a ++ y :: b) d = last (y :: b) d.
Proof.
  induction a as [|x a IH]; intros y b d; [reflexivity|].
  change ((x :: a) ++ y :: b) with (x :: (a ++ y :: b)).
  cbn [last]. destruct (a ++ y :: b) eqn:E; [destruct a; discriminate|].
  rewrite <- E. apply IH.
Qed.

Lemma prev_after_app : forall prev a b,
  prev_after (prev_after prev a) b = prev_after prev (a ++ b).
Proof.
  intros prev a b. destruct b as [|y b].
  - rewrite app_nil_r. reflexivity.
  - destruct a as [|x a]; [reflexivity|].
    change (Some (last (y :: b) 0) = Some (last ((x :: a) ++ y :: b) 0)).
    rewrite last_app_cons. reflexivity.
Qed.

Lemma star_loop_prefix : forall (A : Type) P (body : Re.matcher A),
  reads P body ->
  forall fuel k prev s a,
    Re.star_loop body fuel k prev s = Some a ->
    exists pre s', s = pre ++ s' /\ forallb P pre = true /\
                   k (prev_after prev pre) s' = Some a.
Proof.
  intros A P body Hb. induction fuel as [|fuel IH]; intros k prev s a H; simpl in H.
  - exists [], s. auto.
  - apply orelse_some in H. destruct H as [H|[_ H]].
    + apply Hb in H. destruct H as (pre1 & s1 & -> & P1 & H).
      destruct (List.length s1 <? List.length (pre1 ++ s1))%nat; [|discriminate].
      apply IH in H. destruct H as (pre2 & s2 & -> & P2 & H).
      exists (pre1 ++ pre2), s2. rewrite app_assoc, forallb_app, P1, P2, <- prev_after_app.
      auto.
    + exists [], s. auto.
Qed.

Lemma forallb_weaken : forall (P Q : char -> bool) l,
  (forall x, P x = true -> Q x = true) -> forallb P l = true -> forallb Q l = true.
Proof.
  intros P Q l H. rewrite !forallb_forall. intros Hl x Hx. apply H, Hl, Hx.
Qed.

Lemma reads_weaken : forall (A : Type) (P Q : char -> bool) (m : Re.matcher A),
  (forall x, P x = true -> Q x = true) -> reads P m -> reads Q m.
Proof.
  intros A P Q m HPQ Hm prev s k a H. apply Hm in H.
  destruct H as (pre & s' & E & HP & H). exists pre, s'.
  split; [exact E|]. split; [|exact H]. revert HP. apply forallb_weaken. exact HPQ.
Qed.

Lemma run_reads : forall (A : Type) plat (r : Re.regex), reads (takes r) (@Re.run A plat r).
Proof.
  intros A plat. induction r; cbn [takes].
  - intros prev s k a H. exists [], s. auto.
  - intros prev s k a H. cbn [Re.run] in H. destruct s as [|x s']; [discriminate|].
    destruct (x =? c) eqn:E; [|discriminate].
    exists [x], s'. cbn. rewrite E. auto.
  - intros prev s k a H. cbn [Re.run] in H. destruct s as [|x s']; [discriminate|].
    destruct (Re.in_ranges ranges x) eqn:E; [|discriminate].
    exists [x], s'. cbn. rewrite E. auto.
  - intros prev s k a H. cbn [Re.run] in H. destruct s as [|x s']; [discriminate|].
    destruct (x =? 10) eqn:E; [discriminate|].
    exists [x], s'. cbn. rewrite E. auto.
  - intros prev s k a H. cbn [Re.run] in H.
    destruct (Re.at_boundary plat prev s); [|discriminate]. exists [], s. auto.
  - intros prev s k a H. cbn [Re.run] in H. destruct s; [|discriminate]. exists [], []. auto.
  - intros prev s k a H. cbn [Re.run] in H.
    apply IHr1 in H. destruct H as (pre1 & s1 & -> & P1 & H).
    apply IHr2 in H. destruct H as (pre2 & s2 & -> & P2 & H).
    exists (pre1 ++ pre2), s2. rewrite app_assoc, forallb_app, <- prev_after_app.
    split; [reflexivity|]. split; [|exact H]. apply andb_true_iff. split.
    + revert P1. apply forallb_weaken. intros x Hx. rewrite Hx. reflexivity.
    + revert P2. apply forallb_weaken. intros x Hx. rewrite Hx. apply orb_true_r.
  - intros prev s k a H. cbn [Re.run] in H. apply orelse_some in H.
    destruct H as [H|[_ H]].
    + revert prev s k a H. apply (reads_weaken _ (takes r1)); [|exact IHr1].
      intros x Hx. rewrite Hx. reflexivity.
    + revert prev s k a H. apply (reads_weaken _ (takes r2)); [|exact IHr2].
      intros x Hx. rewrite Hx. apply orb_true_r.
  - intros prev s k a H. cbn [Re.run] in H.
    apply (star_loop_prefix _ _ _ IHr) in H. exact H.
  - intros prev s k a H. cbn [Re.run] in H.
    apply IHr in H. destruct H as (pre1 & s1 & -> & P1 & H).
    apply (star_loop_prefix _ _ _ IHr) in H. destruct H as (pre2 & s2 & -> & P2 & H).
    exists (pre1 ++ pre2), s2. split; [apply app_assoc|].
    split; [|rewrite <- prev_after_app; exact H].
    rewrite forallb_app. apply andb_true_iff. split; assumption.
  - intros prev s k a H. cbn [Re.run] in H. apply orelse_some in H.
    destruct H as [H|[_ H]]; [apply IHr in H; exact H|]. exists [], s. auto.
Qed.

Lemma orelse_eq : forall (A : Type) (a a' b b' : option A),
  a = a' -> b = b' -> Re.orelse a b = Re.orelse a' b'.
Proof. intros A a a' b b' -> ->. reflexivity. Qed.

Section Related.

Variable plat : Platform.
Variable R : option char -> option char -> Prop.
Hypothesis R_refl : forall p, R p p.
Hypothesis R_boundary : forall p p' s,
  R p p' -> Re.at_boundary plat p s = Re.at_boundary plat p' s.

Lemma star_loop_related : forall (A : Type) (body : Re.matcher A),
  related R body -> forall fuel, related R (fun p s k => Re.star_loop body fuel k p s).
Proof.
  intros A body Hb. induction fuel as [|fuel IH]; intros p p' s k k' Hp Hk; cbn [Re.star_loop].
  - apply Hk. exact Hp.
  - apply orelse_eq; [|apply Hk; exact Hp].
    apply Hb; [exact Hp|]. intros q q' s' Hq.
    destruct (List.length s' <? List.length s)%nat; [|reflexivity].
    apply IH; assumption.
Qed.

Lemma run_related : forall (A : Type) (r : Re.regex), related R (@Re.run A plat r).
Proof.
  intros A. induction r; intros p p' s k k' Hp Hk; cbn [Re.run].
  - apply Hk. exact Hp.
  - destruct s as [|x s']; [reflexivity|]. destruct (x =? c); [|reflexivity].
    apply Hk. apply R_refl.
  - destruct s as [|x s']; [reflexivity|]. destruct (Re.in_ranges ranges x); [|reflexivity].
    apply Hk. apply R_refl.
  - destruct s as [|x s']; [reflexivity|]. destruct (x =? 10); [reflexivity|].
    apply Hk. apply R_refl.
  - rewrite (R_boundary p p' s Hp).
    destruct (Re.at_boundary plat p' s); [|reflexivity]. apply Hk. exact Hp.
  - destruct s; [|reflexivity]. apply Hk. exact Hp.
  - apply IHr1; [exact Hp|]. intros q q' s' Hq. apply IHr2; assumption.
  - apply orelse_eq; [apply IHr1|apply IHr2]; assumption.
  - apply (star_loop_related _ _ IHr); assumption.
  - apply IHr; [exact Hp|]. intros q q' s' Hq.
    apply (star_loop_related _ _ IHr); assumption.
  - apply orelse_eq; [apply IHr; assumption|apply Hk; exact Hp].
Qed.

End Related.

(** Continuations that agree give the same result. *)
Lemma run_ext : forall (A : Type) plat r p s (k k' : Re.cont A),
  (forall q s', k q s' = k' q s') -> Re.run plat r p s k = Re.run plat r p s k'.
Proof.
  intros A plat r p s k k' H.
  apply (run_related plat eq); [reflexivity|intros ? ? ? ->; reflexivity|reflexivity|].
  intros q q' s' ->. apply H.
Qed.

(** After a line feed the matcher does what it does at the start of the
    text. *)
Lemma match_here_after_newline : forall plat r s,
  Re.match_here plat r (Some 10) s = Re.match_here plat r None s.
Proof.
  intros plat r s. unfold Re.match_here.
  apply (run_related plat same_prev).
  - intro p. left. reflexivity.
  - intros p p' s0 [->|[-> ->]]; reflexivity.
  - right. auto.
  - intros q q' s' _. reflexivity.
Qed.

Lemma is_word_newline : forall plat, Re.is_word plat 10 = false.
Proof. reflexivity. Qed.

Lemma at_boundary_newline : forall plat p s t,
  Re.at_boundary plat p (s ++ 10 :: t) = Re.at_boundary plat p s.
Proof. intros plat p [|x s] t; reflexivity. Qed.

Lemma ltb_cut : forall (s' s : str) x t,
  (List.length (s' ++ x :: t) <? List.length (s ++ x :: t))%nat
  = (List.length s' <? List.length s)%nat.
Proof.
  intros s' s x t. rewrite !length_app.
  destruct (Nat.ltb_spec (List.length s' + List.length (x :: t))
                         (List.length s + List.length (x :: t)));
    destruct (Nat.ltb_spec (List.length s') (List.length s)); try reflexivity; lia.
Qed.

Lemma star_loop_cut : forall (A : Type) t (body : Re.matcher A),
  cut t body ->
  forall n s fuel fuel' p (k k' : Re.cont A),
    (List.length s <= n)%nat ->
    (List.length s < fuel)%nat -> (List.length s < fuel')%nat ->
    (forall q s', k q (s' ++ 10 :: t) = k' q s') ->
    Re.star_loop body fuel k p (s ++ 10 :: t) = Re.star_loop body fuel' k' p s.
Proof.
  intros A t body Hb. induction n as [|n IH]; intros s fuel fuel' p k k' Hn Hf Hf' Hk;
    (destruct fuel as [|fuel]; [lia|]); (destruct fuel' as [|fuel']; [lia|]);
    cbn [Re.star_loop]; (apply orelse_eq; [|apply Hk]);
    apply Hb; intros q s'; rewrite ltb_cut;
    match goal with
    | |- context [(?a <? ?b)%nat] => destruct (Nat.ltb_spec a b) as [Hlt|Hge]
    end; try reflexivity; unfold char in *.
  - lia.
  - apply IH; [lia|lia|lia|exact Hk].
Qed.

Lemma run_cut : forall (A : Type) plat t (r : Re.regex),
  takes r 10 = false -> no_at_end r = true -> cut t (@Re.run A plat r).
Proof.
  intros A plat t. induction r; cbn [takes no_at_end]; intros Ht He p s k k' Hk; cbn [Re.run].
  - apply Hk.
  - destruct s as [|x s']; cbn [app].
    + rewrite Ht. reflexivity.
    + destruct (x =? c); [apply Hk|reflexivity].
  - destruct s as [|x s']; cbn [app].
    + rewrite Ht. reflexivity.
    + destruct (Re.in_ranges ranges x); [apply Hk|reflexivity].
  - destruct s as [|x s']; cbn [app].
    + reflexivity.
    + destruct (x =? 10); [reflexivity|apply Hk].
  - rewrite at_boundary_newline. destruct (Re.at_boundary plat p s); [apply Hk|reflexivity].
  - discriminate.
  - apply orb_false_iff in Ht. apply andb_true_iff in He.
    apply IHr1; [tauto|tauto|]. intros q s'. apply IHr2; [tauto|tauto|exact Hk].
  - apply orb_false_iff in Ht. apply andb_true_iff in He.
    apply orelse_eq; [apply IHr1|apply IHr2]; tauto.
  - apply (star_loop_cut _ t _ (IHr Ht He) (List.length s)); try exact Hk;
      unfold char in *; rewrite ?length_app; cbn [List.length]; lia.
  - apply (IHr Ht He). intros q s'.
    apply (star_loop_cut _ t _ (IHr Ht He) (List.length s')); try exact Hk;
      unfold char in *; rewrite ?length_app; cbn [List.length]; lia.
  - apply orelse_eq; [apply (IHr Ht He); exact Hk|apply Hk].
Qed.

Lemma match_here_cut : forall plat r p s t,
  takes r 10 = false -> no_at_end r = true ->
  Re.match_here plat r p (s ++ 10 :: t) = Re.match_here plat r p s.
Proof.
  intros plat r p s t Ht He. unfold Re.match_here.
  apply (run_cut _ plat t r Ht He). intros q s'. f_equal.
  unfold str, char in *. rewrite !length_app. cbn [List.length]. lia.
Qed.

Lemma sub_from_after_newline : forall plat r repl s,
  Re.sub_from plat r repl O (Some 10) s = Re.sub_from plat r repl O None s.
Proof.
  intros plat r repl s. destruct s as [|c s]; cbn [Re.sub_from];
    rewrite match_here_after_newline; reflexivity.
Qed.

(** [sub] works line by line. *)
Lemma sub_from_cut : forall plat r repl t,
  takes r 10 = false -> no_at_end r = true ->
  forall s skip prev,
    (skip <= List.length s)%nat ->
    Re.sub_from plat r repl skip prev (s ++ 10 :: t)
    = Re.sub_from plat r repl skip prev s ++ 10 :: Re.sub_from plat r repl O None t.
Proof.
  intros plat r repl t Ht He. induction s as [|c s IH]; intros skip prev Hs.
  - destruct skip; [|simpl in Hs; lia].
    pose proof (match_here_cut plat r prev [] t Ht He) as E. cbn [app] in E.
    cbn [app Re.sub_from]. rewrite E.
    match goal with
    | |- context [Re.match_here ?a ?b ?c ?d] =>
        destruct (Re.match_here a b c d) as [n|] eqn:Hm
    end.
    + apply match_here_le in Hm. destruct n; [|simpl in Hm; lia].
      cbn [firstn]. rewrite sub_from_after_newline, app_nil_r. reflexivity.
    + rewrite sub_from_after_newline. reflexivity.
  - destruct skip as [|skip].
    + pose proof (match_here_cut plat r prev (c :: s) t Ht He) as E.
      cbn [Re.sub_from]. change ((c :: s) ++ 10 :: t) with (c :: s ++ 10 :: t) in *.
      cbn [Re.sub_from]. rewrite E.
      match goal with
      | |- context [Re.match_here ?a ?b ?c ?d] =>
          destruct (Re.match_here a b c d) as [n|] eqn:Hm
      end.
      * apply match_here_le in Hm.
        change (c :: s ++ 10 :: t) with ((c :: s) ++ 10 :: t).
        rewrite firstn_app_le by exact Hm. rewrite <- app_assoc. f_equal.
        destruct n as [|n].
        -- rewrite IH by (unfold char in *; lia). reflexivity.
        -- rewrite IH by (simpl in Hm; unfold char in *; lia). reflexivity.
      * rewrite IH by (unfold char in *; lia). reflexivity.
    + change ((c :: s) ++ 10 :: t) with (c :: s ++ 10 :: t).
      cbn [Re.sub_from]. apply IH. simpl in Hs. unfold char in *. lia.
Qed.

Lemma sub_cut : forall plat r repl s t,
  takes r 10 = false -> no_at_end r = true ->
  Re.sub plat r repl (s ++ 10 :: t) = Re.sub plat r repl s ++ 10 :: Re.sub plat r repl t.
Proof.
  intros plat r repl s t Ht He. unfold Re.sub. apply sub_from_cut; [exact Ht|exact He|lia].
Qed.

Lemma process_line_cut : forall plat l1 l2 params_to_redact redaction_string,
  process_line plat (l1 ++ 10 :: l2) params_to_redact redaction_string
  = process_line plat l1 params_to_redact redaction_string
    ++ 10 :: process_line plat l2 params_to_redact redaction_string.
Proof.
  intros plat l1 l2 P T. unfold process_line. apply sub_cut; reflexivity.
Qed.

Lemma process_line_nil : forall plat P T, process_line plat [] P T = [].
Proof. intros plat P T. reflexivity. Qed.

Lemma readlines_line : forall l,
  Str.elem 10 l = false -> readlines l = match l with [] => [] | _ => [l] end.
Proof.
  induction l as [|c l IH]; intro H; [reflexivity|].
  unfold Str.elem in H. cbn [existsb] in H. apply orb_false_iff in H. destruct H as [Hc Hl].
  cbn [readlines]. rewrite N.eqb_sym, Hc. rewrite (IH Hl). destruct l; reflexivity.
Qed.

Lemma readlines_app : forall l t,
  Str.elem 10 l = false -> readlines (l ++ 10 :: t) = (l ++ [10]) :: readlines t.
Proof.
  induction l as [|c l IH]; intros t H; [reflexivity|].
  unfold Str.elem in H. cbn [existsb] in H. apply orb_false_iff in H. destruct H as [Hc Hl].
  cbn [readlines app]. rewrite N.eqb_sym, Hc. rewrite (IH t Hl). reflexivity.
Qed.

Lemma readlines_concat : forall text, concat (readlines text) = text.
Proof.
  induction text as [|c text IH]; [reflexivity|]. cbn [readlines].
  destruct (c =? 10) eqn:E.
  - apply N.eqb_eq in E. subst c. cbn [concat app]. rewrite IH. reflexivity.
  - destruct (readlines text) as [|l ls]; cbn [concat app] in *; rewrite <- IH; reflexivity.
Qed.

(** ** The parameter list of [main] *)

Lemma lstrip_snoc : forall p a x,
  p x = false -> Str.lstrip p (a ++ [x]) = Str.lstrip p a ++ [x].
Proof.
  intros p. induction a as [|y a IH]; intros x H; simpl.
  - rewrite H. reflexivity.
  - destruct (p y); [apply IH; exact H|reflexivity].
Qed.

Lemma lstrip_In : forall p s x, In x (Str.lstrip p s) -> In x s.
Proof.
  intros p. induction s as [|y s IH]; intros x H; simpl in H; [contradiction|].
  destruct (p y); [right; apply IH; exact H|exact H].
Qed.

Lemma strip_In : forall s x, In x (Str.strip s) -> In x s.
Proof.
  intros s x H. unfold Str.strip in H.
  apply in_rev, lstrip_In, in_rev, lstrip_In in H. exact H.
Qed.

Lemma strip_cases : forall s,
  Str.strip s = [] \/
  exists x w, Str.strip s = x :: rev (Str.lstrip Str.isspace (rev w)) /\ Str.isspace x = false.
Proof.
  intro s. unfold Str.strip. destruct (Str.lstrip Str.isspace s) as [|x w] eqn:E.
  - left. reflexivity.
  - right. exists x, w. apply lstrip_head in E. split; [|exact E].
    cbn [rev]. rewrite lstrip_snoc by exact E. rewrite rev_app_distr. reflexivity.
Qed.

Lemma last_rev_cons : forall (w : str) y d, last (rev (y :: w)) d = y.
Proof. intros w y d. cbn [rev]. apply last_last. Qed.

Lemma strip_stripped : forall s, stripped (Str.strip s) = true.
Proof.
  intro s. destruct (strip_cases s) as [->|(x & w & -> & Hx)]; [reflexivity|].
  unfold stripped. rewrite Hx. cbn [negb andb].
  destruct (Str.lstrip Str.isspace (rev w)) as [|y v] eqn:E.
  - cbn [rev last]. rewrite Hx. reflexivity.
  - apply lstrip_head in E.
    change (x :: rev (y :: v)) with ([x] ++ rev (y :: v)).
    cbn [rev]. rewrite app_assoc, last_last, E. reflexivity.
Qed.

Lemma lstrip_stripped : forall s, stripped s = true -> Str.lstrip Str.isspace s = s.
Proof.
  intros [|c s] H; [reflexivity|]. unfold stripped in H.
  apply andb_true_iff in H. destruct H as [H _]. apply negb_true_iff in H.
  simpl. rewrite H. reflexivity.
Qed.

Lemma strip_id : forall s, stripped s = true -> Str.strip s = s.
Proof.
  intros s H. unfold Str.strip. rewrite (lstrip_stripped s H).
  destruct s as [|c s]; [reflexivity|].
  unfold stripped in H. apply andb_true_iff in H. destruct H as [_ H].
  apply negb_true_iff in H.
  destruct (rev (c :: s)) as [|y v] eqn:E.
  - apply (f_equal (@rev char)) in E. rewrite rev_involutive in E. discriminate.
  - assert (Hy : last (c :: s) 0 = y).
    { rewrite <- (rev_involutive (c :: s)), E. apply last_rev_cons. }
    rewrite Hy in H. simpl. rewrite H. rewrite <- E. apply rev_involutive.
Qed.

Lemma split_pieces : forall c s, Forall (fun p => Str.elem c p = false) (Str.split c s).
Proof.
  intros c. induction s as [|x s IH]; simpl.
  - constructor; [reflexivity|constructor].
  - destruct (x =? c) eqn:E.
    + constructor; [reflexivity|exact IH].
    + destruct (Str.split c s) as [|p ps]; [repeat constructor; simpl; rewrite N.eqb_sym, E; reflexivity|].
      inversion IH as [|? ? Hp Hps]; subst. constructor; [|exact Hps].
      rewrite elem_cons, N.eqb_sym, E, Hp. reflexivity.
Qed.

Lemma split_length : forall c s, List.length (Str.split c s) = S (count c s).
Proof.
  intros c. unfold count. induction s as [|x s IH]; [reflexivity|].
  cbn [Str.split filter]. rewrite (N.eqb_sym c x). destruct (x =? c).
  - cbn [List.length]. rewrite IH. reflexivity.
  - destruct (Str.split c s) as [|p ps]; [simpl in IH; discriminate|]. exact IH.
Qed.

(** ** The loop of [main] *)

Lemma concat_readlines_process : forall plat P T n text,
  (List.length text <= n)%nat ->
  concat (map (fun line => process_line plat line P T) (readlines text))
  = process_line plat text P T.
Proof.
  intros plat P T. induction n as [|n IH]; intros text Hn.
  - destruct text; [reflexivity|simpl in Hn; lia].
  - destruct (break (fun c => c =? 10) text) as [l rest] eqn:B.
    apply break_spec in B. destruct B as (-> & Hl & Hrest).
    assert (El : Str.elem 10 l = false).
    { apply elem_false. intro Hin. rewrite forallb_forall in Hl. apply Hl in Hin.
      rewrite N.eqb_refl in Hin. discriminate. }
    destruct rest as [|x t].
    + rewrite app_nil_r. rewrite (readlines_line l El).
      destruct l; [reflexivity|]. cbn [map concat]. apply app_nil_r.
    + apply N.eqb_eq in Hrest. subst x.
      pose proof (readlines_app l t El) as R.
      pose proof (process_line_cut plat l t P T) as E1.
      pose proof (process_line_cut plat l [] P T) as E2.
      rewrite process_line_nil in E2.
      assert (Ht : (List.length t <= n)%nat).
      { rewrite length_app in Hn. cbn [List.length] in Hn. unfold char in *. lia. }
      specialize (IH t Ht). unfold str, char in *.
      rewrite R. cbn [map concat]. rewrite IH, E1, E2, <- app_assoc. reflexivity.
Qed.

Lemma main_loop_spec : forall plat write input_stream written P T out err,
  main_loop plat write written input_stream P T = (out, err) ->
  exists n,
    (n <= List.length (lines_read input_stream))%nat /\
    out = written ++ map (fun line => process_line plat line P T)
                         (firstn n (lines_read input_stream)) /\
    (err = None -> n = List.length input_stream) /\
    (forall e, err = Some e -> (n < List.length input_stream)%nat).
Proof.
  intros plat write. induction input_stream as [|[line|e] rest IH];
    intros written P T out err H; cbn [main_loop] in H.
  - injection H as <- <-. exists O. rewrite app_nil_r.
    split; [simpl; lia|]. split; [reflexivity|]. split; [reflexivity|discriminate].
  - destruct (write written (process_line plat line P T)) as [[]|e] eqn:W.
    + apply IH in H. destruct H as (n & Hle & -> & Hn & He). exists (S n).
      cbn [lines_read firstn map List.length]. rewrite <- app_assoc.
      split; [lia|]. split; [reflexivity|]. split.
      * intro E. rewrite (Hn E). reflexivity.
      * intros e E. specialize (He e E). lia.
    + injection H as <- <-. exists O. rewrite app_nil_r. cbn [List.length].
      split; [lia|]. split; [reflexivity|]. split; [discriminate|]. intros; lia.
  - injection H as <- <-. exists O. rewrite app_nil_r. cbn [List.length].
    split; [lia|]. split; [reflexivity|]. split; [discriminate|]. intros; lia.
Qed.

Lemma lines_read_length : forall input_stream,
  (List.length (lines_read input_stream) <= List.length input_stream)%nat.
Proof.
  induction input_stream as [|[l|e] rest IH]; simpl; lia.
Qed.

Lemma lines_read_Ok : forall lines, lines_read (map (@Ok str) lines) = lines.
Proof. induction lines as [|l lines IH]; [reflexivity|]. simpl. rewrite IH. reflexivity. Qed.

Lemma main_loop_all : forall plat write lines written P T,
  (forall w s, write w s = Ok tt) ->
  main_loop plat write written (map (@Ok str) lines) P T
  = (written ++ map (fun line => process_line plat line P T) lines, None).
Proof.
  intros plat write. induction lines as [|l lines IH]; intros written P T Hw; cbn [map main_loop].
  - rewrite app_nil_r. reflexivity.
  - rewrite Hw, IH by exact Hw. rewrite <- app_assoc. reflexivity.
Qed.

(** ** The ends of a candidate *)

Lemma run_split_last : forall (A : Type) plat r p s (k : Re.cont A),
  Re.run plat r p s k =
  Re.run plat (fst (split_last r)) p s
         (fun p' s' => Re.run plat (snd (split_last r)) p' s' k).
Proof.
  intros A plat. induction r; intros p s k; try reflexivity.
  cbn [split_last]. destruct (split_last r2) as [i l] eqn:E. cbn [fst snd Re.run] in *.
  apply run_ext. intros q s'. apply IHr2.
Qed.

Lemma skipn_skipn_add : forall (A : Type) (l : list A) a n,
  skipn n (skipn a l) = skipn (a + n) l.
Proof.
  intros A l a n. revert l. induction a as [|a IH]; intro l; [reflexivity|].
  destruct l as [|x l]; [rewrite !skipn_nil; reflexivity|]. apply IH.
Qed.

Lemma prev_at_skipn : forall (line : str) a prev pre rest,
  prev = prev_at line a -> skipn a line = pre ++ rest ->
  prev_at line (a + List.length pre) = prev_after prev pre.
Proof.
  intros line a prev pre. revert line a prev.
  induction pre as [|x pre IH]; intros line a prev rest Hp Hs.
  - rewrite Nat.add_0_r. exact (eq_sym Hp).
  - cbn [app] in Hs. apply skipn_cons_inv in Hs. destruct Hs as (Hs & Hn & _).
    replace (a + List.length (x :: pre))%nat with (S a + List.length pre)%nat
      by (simpl; lia).
    rewrite (IH line (S a) (Some x) rest); [|simpl; auto|exact Hs].
    destruct pre as [|y pre]; reflexivity.
Qed.

(** What a match of [url_pattern] is: text without a line feed between two
    word boundaries. *)
Lemma url_pattern_match : forall plat prev s n,
  Re.match_here plat url_pattern prev s = Some n ->
  Re.at_boundary plat prev s = true /\
  exists pre rest, s = pre ++ rest /\ n = List.length pre /\
    Str.elem 10 pre = false /\
    Re.at_boundary plat (prev_after prev pre) rest = true.
Proof.
  intros plat prev s n H. split.
  - unfold Re.match_here, url_pattern in H.
    rewrite run_seq_cons in H. cbn [Re.run] in H.
    destruct (Re.at_boundary plat prev s); [reflexivity|discriminate].
  - unfold Re.match_here in H. rewrite run_split_last in H.
    apply run_reads in H. destruct H as (pre & rest & -> & Hpre & H).
    change (snd (split_last url_pattern)) with Re.WordBoundary in H.
    cbn [Re.run] in H.
    destruct (Re.at_boundary plat (prev_after prev pre) rest) eqn:B; [|discriminate].
    exists pre, rest. split; [reflexivity|]. split; [|split; [|exact B]].
    + injection H as <-. unfold str, char in *. rewrite length_app. lia.
    + apply elem_false. intro Hin. rewrite forallb_forall in Hpre. apply Hpre in Hin.
      vm_compute in Hin. discriminate.
Qed.

(** ** The scheme of a candidate *)

Lemma candidate_scheme : forall plat sch h rest p,
  sch = py "http" \/ sch = py "https" -> host_start h = true ->
  urlparse plat (sch ++ py "://" ++ h :: rest) = Ok p -> scheme p = sch.
Proof.
  intros plat sch h rest p Hs Hh H. unfold urlparse in H.
  destruct (urlsplit plat (sch ++ py "://" ++ h :: rest)) as [sr|] eqn:E; [|discriminate].
  cbn [bind] in H.
  assert (Hn : scheme p = split_scheme sr).
  { destruct (if Str.mem (split_scheme sr) uses_params && Str.elem (ch ";") (split_path sr)
              then splitparams (split_path sr) else (split_path sr, [])) as [u prm].
    apply Ok_inj in H. subst p. reflexivity. }
  rewrite Hn. clear H Hn.
  rewrite urlsplit_unfold in E.
  destruct (cleaned_candidate sch h rest Hs Hh) as [rest' Hc]. rewrite Hc in E. clear Hc.
  destruct (scheme_ok_http sch Hs) as [Hok Hne].
  rewrite (split_scheme_off_rebuild sch _ Hok Hne) in E.
  change (Str.eqb (firstn 2 (ch "/" :: ch "/" :: h :: rest')) (py "//")) with true in E.
  cbv iota in E.
  destruct (splitnetloc (ch "/" :: ch "/" :: h :: rest') 2) as [net u2].
  destruct (bracket_check plat net) as [[]|]; [|discriminate].
  cbn [bind] in E. apply split_rest_inv in E. destruct E as (-> & _). reflexivity.
Qed.

(** ** When the query can be encoded *)

Lemma scalar_spec : forall c,
  scalar c = true <-> c < 1114112 /\ (c < 55296 \/ 57343 < c).
Proof.
  intro c. unfold scalar, Utf8.is_surrogate.
  rewrite andb_true_iff, negb_true_iff, andb_false_iff, N.ltb_lt, !N.leb_gt. lia.
Qed.

Lemma encode_char_ok : forall c, scalar c = true -> exists bs, Utf8.encode_char c = Ok bs.
Proof.
  intros c H. unfold scalar in H. apply andb_true_iff in H. destruct H as [H1 H2].
  apply negb_true_iff in H2. unfold Utf8.encode_char. rewrite H1, H2.
  destruct (c <? 128); [eauto|]. destruct (c <? 2048); [eauto|].
  destruct (c <? 65536); eauto.
Qed.

Lemma encode_char_raise : forall c e,
  Utf8.encode_char c = Raise e -> e = UnicodeEncodeError c /\ scalar c = false.
Proof.
  intros c e H. unfold Utf8.encode_char in H. unfold scalar.
  destruct (c <? 128) eqn:E1; [discriminate|].
  destruct (c <? 2048) eqn:E2; [discriminate|].
  destruct (c <? 65536) eqn:E3.
  - destruct (Utf8.is_surrogate c); [|discriminate].
    injection H as <-. rewrite andb_false_r. auto.
  - destruct (c <? 1114112); [discriminate|]. injection H as <-. auto.
Qed.

Lemma encode_ok : forall s, forallb scalar s = true -> exists bs, Utf8.encode s = Ok bs.
Proof.
  induction s as [|c s IH]; intro H; [exists []; reflexivity|].
  cbn [forallb] in H. apply andb_true_iff in H. destruct H as [Hc Hs].
  destruct (encode_char_ok c Hc) as [b Hb]. destruct (IH Hs) as [bs Hbs].
  exists (b ++ bs). cbn [Utf8.encode]. rewrite Hb. cbn [bind]. rewrite Hbs. reflexivity.
Qed.

Lemma encode_raise : forall s e,
  Utf8.encode s = Raise e ->
  exists c, In c s /\ e = UnicodeEncodeError c /\ scalar c = false.
Proof.
  induction s as [|c s IH]; intros e H; [discriminate|].
  cbn [Utf8.encode] in H. destruct (Utf8.encode_char c) as [b|e'] eqn:Ec.
  - cbn [bind] in H. destruct (Utf8.encode s) as [bs|e''] eqn:Es; [discriminate|].
    cbn [bind] in H. injection H as <-. destruct (IH e'' eq_refl) as (c' & Hin & He).
    exists c'. split; [right; exact Hin|exact He].
  - cbn [bind] in H. injection H as <-. apply encode_char_raise in Ec.
    exists c. split; [left; reflexivity|exact Ec].
Qed.

Lemma quote_ok : forall safe s,
  forallb scalar s = true -> exists q, quote safe s = Ok q.
Proof.
  intros safe s H. unfold quote. destruct s as [|c s]; [eauto|].
  destruct (encode_ok _ H) as [bs ->]. cbn [bind]. eauto.
Qed.

Lemma quote_raise : forall safe s e,
  quote safe s = Raise e ->
  exists c, In c s /\ e = UnicodeEncodeError c /\ scalar c = false.
Proof.
  intros safe s e H. unfold quote in H. destruct s as [|c s]; [discriminate|].
  destruct (Utf8.encode (c :: s)) as [bs|e'] eqn:E; [discriminate|].
  cbn [bind] in H. injection H as <-. apply encode_raise. exact E.
Qed.

Lemma quote_plus_ok : forall s,
  forallb scalar s = true -> exists q, quote_plus s = Ok q.
Proof.
  intros s H. unfold quote_plus. destruct (negb (Str.elem (ch " ") s)).
  - apply quote_ok. exact H.
  - destruct (quote_ok (fun c => c =? ch " ") s H) as [q ->]. cbn [bind]. eauto.
Qed.

Lemma quote_plus_raise : forall s e,
  quote_plus s = Raise e ->
  exists c, In c s /\ e = UnicodeEncodeError c /\ scalar c = false.
Proof.
  intros s e H. unfold quote_plus in H. destruct (negb (Str.elem (ch " ") s)).
  - apply quote_raise in H. exact H.
  - destruct (quote (fun c => c =? ch " ") s) as [q|e'] eqn:E; [discriminate|].
    cbn [bind] in H. injection H as <-. apply quote_raise in E. exact E.
Qed.

Lemma mapM_ok : forall (A B : Type) (f : A -> result B) l,
  (forall a, In a l -> exists b, f a = Ok b) -> exists bs, mapM f l = Ok bs.
Proof.
  intros A B f. induction l as [|a l IH]; intro H; [exists []; reflexivity|].
  destruct (H a (or_introl eq_refl)) as [b Hb].
  destruct (IH (fun x Hx => H x (or_intror Hx))) as [bs Hbs].
  exists (b :: bs). cbn [mapM]. rewrite Hb. cbn [bind]. rewrite Hbs. reflexivity.
Qed.

Lemma mapM_raise : forall (A B : Type) (f : A -> result B) l e,
  mapM f l = Raise e -> exists a, In a l /\ f a = Raise e.
Proof.
  intros A B f. induction l as [|a l IH]; intros e H; [discriminate|].
  cbn [mapM] in H. destruct (f a) as [b|e'] eqn:Ea.
  - cbn [bind] in H. destruct (mapM f l) as [bs|e''] eqn:El; [discriminate|].
    cbn [bind] in H. injection H as <-. destruct (IH e'' eq_refl) as (x & Hx & Hf).
    exists x. split; [right; exact Hx|exact Hf].
  - cbn [bind] in H. injection H as <-. exists a. split; [left; reflexivity|exact Ea].
Qed.

Lemma urlencode_ok : forall d,
  dict_all (fun s => forallb scalar s = true) d -> exists q, urlencode d = Ok q.
Proof.
  intros d H. unfold urlencode.
  assert (Hm : exists l, mapM encode_item d = Ok l).
  { apply mapM_ok. intros [k vs] Hin. unfold dict_all in H. rewrite Forall_forall in H.
    destruct (H _ Hin) as [Hk Hvs]. cbn [fst snd] in Hk, Hvs.
    unfold encode_item. destruct (quote_plus_ok k Hk) as [k' ->]. cbn [bind].
    apply mapM_ok. intros v Hv. rewrite Forall_forall in Hvs.
    destruct (quote_plus_ok v (Hvs v Hv)) as [v' ->]. cbn [bind]. eauto. }
  destruct Hm as [l ->]. cbn [bind]. eauto.
Qed.

Lemma urlencode_raise : forall d e,
  urlencode d = Raise e -> exists c, e = UnicodeEncodeError c /\ scalar c = false.
Proof.
  intros d e H. unfold urlencode in H.
  destruct (mapM encode_item d) as [l|e'] eqn:E; [discriminate|].
  cbn [bind] in H. injection H as <-. apply mapM_raise in E.
  destruct E as ([k vs] & _ & E). unfold encode_item in E.
  destruct (quote_plus k) as [k'|e''] eqn:Ek.
  - cbn [bind] in E. apply mapM_raise in E. destruct E as (v & _ & E).
    destruct (quote_plus v) as [v'|e3] eqn:Ev; [discriminate|].
    cbn [bind] in E. injection E as <-. apply quote_plus_raise in Ev.
    destruct Ev as (c & _ & Hc). exists c. exact Hc.
  - cbn [bind] in E. injection E as <-. apply quote_plus_raise in Ek.
    destruct Ek as (c & _ & Hc). exists c. exact Hc.
Qed.

Lemma is_cont_spec : forall b, Utf8.is_cont b = true <-> 128 <= b < 192.
Proof.
  intro b. unfold Utf8.is_cont. rewrite andb_true_iff, N.leb_le, N.ltb_lt. tauto.
Qed.

(** [decode] never gives a surrogate. *)
Lemma decode_scalar : forall n bs,
  (List.length bs <= n)%nat -> forallb scalar (Utf8.decode bs) = true.
Proof.
  induction n as [|n IH]; intros bs Hn.
  { destruct bs; [reflexivity|simpl in Hn; lia]. }
  assert (Hrep : forall l, (List.length l <= n)%nat ->
            forallb scalar (Utf8.replacement :: Utf8.decode l) = true).
  { intros l Hl. cbn [forallb]. rewrite (IH l Hl). reflexivity. }
  assert (Hval : forall v l, v < 1114112 -> (v < 55296 \/ 57343 < v) ->
            (List.length l <= n)%nat ->
            forallb scalar (v :: Utf8.decode l) = true).
  { intros v l H1 H2 Hl. cbn [forallb]. rewrite (IH l Hl), andb_true_r.
    apply scalar_spec. auto. }
  destruct bs as [|b0 r]; [reflexivity|]. cbn [List.length] in Hn.
  cbn [Utf8.decode].
  destruct (N.ltb_spec b0 128); [apply Hval; lia|].
  destruct (N.ltb_spec b0 194); [apply Hrep; lia|].
  destruct (N.ltb_spec b0 224).
  { destruct r as [|b1 r1]; [reflexivity|]. cbn [List.length] in Hn.
    destruct (Utf8.is_cont b1) eqn:C1.
    - apply is_cont_spec in C1. apply Hval; lia.
    - apply Hrep. simpl. lia. }
  destruct (N.ltb_spec b0 240).
  { destruct r as [|b1 r1]; [reflexivity|]. cbn [List.length] in Hn.
    destruct (negb (Utf8.is_cont b1) || (if b1 <? 160 then b0 =? 224 else b0 =? 237)) eqn:T.
    - apply Hrep. simpl. lia.
    - apply orb_false_iff in T. destruct T as [C1 T]. apply negb_false_iff in C1.
      apply is_cont_spec in C1.
      destruct r1 as [|b2 r2]; [reflexivity|]. cbn [List.length] in Hn.
      destruct (Utf8.is_cont b2) eqn:C2.
      + apply is_cont_spec in C2.
        destruct (N.ltb_spec b1 160); apply N.eqb_neq in T; apply Hval; lia.
      + apply Hrep. simpl. lia. }
  destruct (N.ltb_spec b0 245); [|apply Hrep; lia].
  destruct r as [|b1 r1]; [reflexivity|]. cbn [List.length] in Hn.
  destruct (negb (Utf8.is_cont b1) || (if b1 <? 144 then b0 =? 240 else b0 =? 244)) eqn:T.
  - apply Hrep. simpl. lia.
  - apply orb_false_iff in T. destruct T as [C1 T]. apply negb_false_iff in C1.
    apply is_cont_spec in C1.
    destruct r1 as [|b2 r2]; [reflexivity|]. cbn [List.length] in Hn.
    destruct (negb (Utf8.is_cont b2)) eqn:C2.
    + apply Hrep. simpl. lia.
    + apply negb_false_iff in C2. apply is_cont_spec in C2.
      destruct r2 as [|b3 r3]; [reflexivity|]. cbn [List.length] in Hn.
      destruct (Utf8.is_cont b3) eqn:C3.
      * apply is_cont_spec in C3.
        destruct (N.ltb_spec b1 144); apply N.eqb_neq in T; apply Hval; lia.
      * apply Hrep. simpl. lia.
Qed.

Lemma forallb_scalar_app : forall a b,
  forallb scalar (a ++ b) = forallb scalar a && forallb scalar b.
Proof. intros a b. apply forallb_app. Qed.

Lemma unquote_runs_scalar : forall s run,
  forallb scalar s = true -> forallb scalar (unquote_runs run s) = true.
Proof.
  induction s as [|c s IH]; intros run H; cbn [unquote_runs].
  - apply (decode_scalar _ _ (Nat.le_refl _)).
  - cbn [forallb] in H. apply andb_true_iff in H. destruct H as [Hc Hs].
    destruct (Str.is_ascii c); [apply IH; exact Hs|].
    rewrite forallb_app. cbn [forallb]. rewrite Hc, (IH [] Hs).
    rewrite (decode_scalar _ _ (Nat.le_refl _)). reflexivity.
Qed.

Lemma unquote_scalar : forall s,
  forallb scalar s = true -> forallb scalar (unquote s) = true.
Proof.
  intros s H. unfold unquote. destruct (negb (Str.elem (ch "%") s)); [exact H|].
  apply unquote_runs_scalar. exact H.
Qed.

Lemma forallb_sub : forall (P : char -> bool) (a b : str),
  (forall x, In x a -> In x b) -> forallb P b = true -> forallb P a = true.
Proof.
  intros P a b H Hb. rewrite forallb_forall in *. intros x Hx. apply Hb, H, Hx.
Qed.

Lemma unquote_plus_scalar : forall s,
  forallb scalar s = true -> forallb scalar (unquote_plus s) = true.
Proof.
  intros s H. unfold unquote_plus. apply unquote_scalar.
  unfold Str.replace. rewrite forallb_forall in *. intros x Hx.
  apply in_map_iff in Hx. destruct Hx as (y & <- & Hy).
  destruct (y =? ch "+"); [reflexivity|apply H, Hy].
Qed.

Lemma In_firstn : forall (A : Type) n (l : list A) x, In x (firstn n l) -> In x l.
Proof.
  intros A. induction n as [|n IH]; intros l x H; [contradiction|].
  destruct l as [|y l]; [contradiction|]. destruct H as [->|H]; [left; reflexivity|].
  right. apply (IH _ _ H).
Qed.

Lemma In_skipn : forall (A : Type) n (l : list A) x, In x (skipn n l) -> In x l.
Proof.
  intros A. induction n as [|n IH]; intros l x H; [exact H|].
  destruct l as [|y l]; [contradiction|]. right. apply (IH _ _ H).
Qed.

Lemma split_In : forall c s p x, In p (Str.split c s) -> In x p -> In x s.
Proof.
  intros c. induction s as [|y s IH]; intros p x Hp Hx; cbn [Str.split] in Hp.
  - destruct Hp as [<-|[]]. contradiction.
  - destruct (y =? c).
    + destruct Hp as [<-|Hp]; [contradiction|]. right. apply (IH p x Hp Hx).
    + destruct (Str.split c s) as [|q qs] eqn:E.
      * destruct Hp as [<-|[]]. destruct Hx as [->|[]]. left. reflexivity.
      * destruct Hp as [<-|Hp].
        -- destruct Hx as [->|Hx]; [left; reflexivity|].
           right. apply (IH q x); [left; reflexivity|exact Hx].
        -- right. apply (IH p x); [right; exact Hp|exact Hx].
Qed.

Lemma parse_field_scalar : forall f n v,
  forallb scalar f = true -> In (n, v) (parse_field f) ->
  forallb scalar n = true /\ forallb scalar v = true.
Proof.
  intros f n v Hf H. unfold parse_field in H. destruct f as [|x f]; [contradiction|].
  unfold Str.partition in H.
  destruct (Str.find (ch "=") (x :: f)) as [i|]; [|contradiction].
  destruct (skipn (S i) (x :: f)) as [|y value] eqn:E; [contradiction|].
  destruct H as [H|[]]. apply pair_equal_spec in H. destruct H as [<- <-]. split.
  - apply (unquote_plus_scalar (firstn i (x :: f))).
    apply (forallb_sub _ _ (x :: f)); [|exact Hf].
    intros z Hz. apply (In_firstn _ _ _ _ Hz).
  - apply (unquote_plus_scalar (y :: value)).
    apply (forallb_sub _ _ (x :: f)); [|exact Hf].
    intros z Hz. rewrite <- E in Hz. apply (In_skipn _ _ _ _ Hz).
Qed.

Lemma parse_qsl_scalar : forall qs n v,
  forallb scalar qs = true -> In (n, v) (parse_qsl qs) ->
  forallb scalar n = true /\ forallb scalar v = true.
Proof.
  intros qs n v Hq H. rewrite parse_qsl_fields in H. apply in_flat_map in H.
  destruct H as (f & Hf & H). apply (parse_field_scalar f n v); [|exact H].
  apply (forallb_sub _ _ qs); [|exact Hq]. intros x Hx.
  unfold query_fields in Hf. destruct qs as [|c qs]; [contradiction|].
  apply (split_In _ _ _ _ Hf Hx).
Qed.

Section DictAll.

Variable P : str -> Prop.

Lemma dict_all_get : forall d k vs,
  dict_all P d -> dict_get k d = Some vs -> Forall P vs.
Proof.
  intros d k vs H Hg. apply dict_get_In in Hg. unfold dict_all in H.
  rewrite Forall_forall in H. apply H in Hg. tauto.
Qed.

Lemma dict_all_set : forall k vs d,
  dict_all P d -> Forall P vs -> (dict_mem k d = false -> P k) ->
  dict_all P (dict_set k vs d).
Proof.
  intros k vs. induction d as [|[k' vs'] d IH]; intros H Hvs Hk; cbn [dict_set].
  - constructor; [|constructor]. split; [apply Hk; reflexivity|exact Hvs].
  - inversion H as [|? ? [Hk' Hvs'] Hd]; subst. cbn [fst snd] in *.
    destruct (Str.eqb k k') eqn:E.
    + constructor; [split; assumption|exact Hd].
    + constructor; [split; assumption|]. apply IH; [exact Hd|exact Hvs|].
      intro Hm. apply Hk. cbn [dict_mem]. rewrite E, Hm. reflexivity.
Qed.

Lemma dict_all_add : forall d k v,
  dict_all P d -> P k -> P v -> dict_all P (dict_add d (k, v)).
Proof.
  intros d k v H Hk Hv. unfold dict_add. destruct (dict_get k d) as [vs|] eqn:E.
  - apply dict_all_set; [exact H| |intros; exact Hk].
    apply Forall_app. split; [apply (dict_all_get d k vs H E)|repeat constructor; exact Hv].
  - apply dict_all_set; [exact H|repeat constructor; exact Hv|intros; exact Hk].
Qed.

Lemma dict_all_fold : forall prs d,
  dict_all P d -> (forall k v, In (k, v) prs -> P k /\ P v) ->
  dict_all P (fold_left dict_add prs d).
Proof.
  induction prs as [|[k v] prs IH]; intros d H Hp; cbn [fold_left]; [exact H|].
  apply IH.
  - destruct (Hp k v (or_introl eq_refl)). apply dict_all_add; assumption.
  - intros k' v' Hin. apply Hp. right. exact Hin.
Qed.

Lemma dict_all_redact : forall params_to_redact redaction_string d,
  dict_all P d -> P redaction_string ->
  dict_all P (redact_params params_to_redact redaction_string d).
Proof.
  unfold redact_params. induction params_to_redact as [|p l IH]; intros T d H HT;
    cbn [fold_left]; [exact H|].
  apply IH; [|exact HT]. destruct (dict_mem p d) eqn:E; [|exact H].
  apply dict_all_set; [exact H|repeat constructor; exact HT|]. congruence.
Qed.

End DictAll.

Lemma parse_qs_scalar : forall qs,
  forallb scalar qs = true -> dict_all (fun s => forallb scalar s = true) (parse_qs qs).
Proof.
  intros qs H. unfold parse_qs. apply dict_all_fold; [constructor|].
  intros k v Hin. apply (parse_qsl_scalar qs k v H Hin).
Qed.

(** ** What [urlparse] raises *)

Lemma check_bracketed_host_raise : forall plat h e,
  check_bracketed_host plat h = Raise e -> exists msg, e = ValueError msg.
Proof.
  intros plat h e H. unfold check_bracketed_host in H.
  destruct (Str.startswith (ch "v") h).
  - destruct (Re.fullmatch plat ipvfuture h); [discriminate|]. injection H as <-. eauto.
  - destruct (ip_address plat h) as [[|]|]; try discriminate; injection H as <-; eauto.
Qed.

Lemma check_bracketed_netloc_raise : forall plat net e,
  check_bracketed_netloc plat net = Raise e -> exists msg, e = ValueError msg.
Proof.
  intros plat net e H. unfold check_bracketed_netloc in H.
  destruct (Str.partition (ch "[") (Str.rpartition_tail (ch "@") net)) as [[bb hb] br].
  destruct hb.
  - destruct (nonempty bb); [injection H as <-; eauto|].
    destruct (Str.partition (ch "]") br) as [[hn ?] port].
    destruct (nonempty port && negb (Str.startswith (ch ":") port));
      [injection H as <-; eauto|]. apply check_bracketed_host_raise in H. exact H.
  - destruct (Str.partition (ch ":") (Str.rpartition_tail (ch "@") net)) as [[hn ?] ?].
    apply check_bracketed_host_raise in H. exact H.
Qed.

Lemma bracket_check_raise : forall plat net e,
  bracket_check plat net = Raise e -> exists msg, e = ValueError msg.
Proof.
  intros plat net e H. unfold bracket_check in H.
  destruct ((Str.elem (ch "[") net && negb (Str.elem (ch "]") net))
            || (Str.elem (ch "]") net && negb (Str.elem (ch "[") net)));
    [injection H as <-; eauto|].
  destruct (Str.elem (ch "[") net && Str.elem (ch "]") net); [|discriminate].
  apply check_bracketed_netloc_raise in H. exact H.
Qed.

Lemma checknetloc_raise : forall plat net e,
  checknetloc plat net = Raise e -> exists msg, e = ValueError msg.
Proof.
  intros plat net e H. unfold checknetloc in H.
  destruct (negb (nonempty net) || Str.isascii net); [discriminate|].
  match type of H with
  | (if ?c then _ else _) = _ => destruct c; [discriminate|]
  end.
  match type of H with
  | (if ?c then _ else _) = _ => destruct c; [|discriminate]
  end.
  injection H as <-. eauto.
Qed.

Lemma split_rest_raise : forall plat sch net rest e,
  split_rest plat sch net rest = Raise e -> exists msg, e = ValueError msg.
Proof.
  intros plat sch net rest e H. unfold split_rest in H.
  destruct (split_once (ch "#") rest) as [u3 f].
  destruct (split_once (ch "?") u3) as [pf q].
  destruct (checknetloc plat net) as [[]|e'] eqn:E; [discriminate|].
  cbn [bind] in H. injection H as <-. apply checknetloc_raise in E. exact E.
Qed.

Lemma urlparse_raise : forall plat url e,
  urlparse plat url = Raise e -> exists msg, e = ValueError msg.
Proof.
  intros plat url e H. unfold urlparse in H.
  destruct (urlsplit plat url) as [sr|e'] eqn:E.
  - cbn [bind] in H.
    destruct (if Str.mem (split_scheme sr) uses_params && Str.elem (ch ";") (split_path sr)
              then splitparams (split_path sr) else (split_path sr, [])); discriminate.
  - cbn [bind] in H. injection H as <-. rewrite urlsplit_unfold in E.
    destruct (split_scheme_off (cleaned url)) as [sch u1].
    destruct (Str.eqb (firstn 2 u1) (py "//")).
    + destruct (splitnetloc u1 2) as [net u2].
      destruct (bracket_check plat net) as [[]|e''] eqn:B.
      * cbn [bind] in E. apply split_rest_raise in E. exact E.
      * cbn [bind] in E. injection E as <-. apply bracket_check_raise in B. exact B.
    + apply split_rest_raise in E. exact E.
Qed.

(** ** The [except] clause of [redact_url_parameters]: claim C9 *)

(** What leaves the [try] block is an instance of [Exception]. *)
Lemma redact_try_raises_Exception : forall plat url P T e,
  redact_try plat url P T = Raise e -> is_Exception e = true.
Proof.
  intros plat url P T e H. unfold redact_try in H.
  destruct (urlparse plat url) as [p|e1] eqn:Ep; cbn [bind] in H.
  - destruct (urlencode (redact_params P T (parse_qs (query p)))) as [q'|e2] eqn:Eq;
      cbn [bind] in H; [discriminate|].
    injection H as <-. apply urlencode_raise in Eq. destruct Eq as (c & -> & _). reflexivity.
  - injection H as <-. apply urlparse_raise in Ep. destruct Ep as [msg ->]. reflexivity.
Qed.

(** C9: [redact_url_parameters] returns a string on every input and never
    raises.  Whatever leaves the [try] block (a [ValueError] of [urlparse]
    or a [UnicodeEncodeError] of [urlencode], nothing else) is an instance
    of [Exception], so the [except Exception] clause takes it: the [try]
    statement as Python runs it always returns, and it returns the result
    of the block when the block completes and the original [url], with
    one logged record, when the block raises. *)
Theorem C9_redact_total : forall plat url params_to_redact redaction_string,
  (forall e, redact_try plat url params_to_redact redaction_string = Raise e ->
             is_Exception e = true) /\
  exists out log,
    redact_url_parameters_result plat url params_to_redact redaction_string = Ok (out, log) /\
    redact_url_parameters_logged plat url params_to_redact redaction_string = (out, log) /\
    redact_url_parameters plat url params_to_redact redaction_string = out /\
    ((redact_try plat url params_to_redact redaction_string = Ok out /\ log = []) \/
     (exists e, redact_try plat url params_to_redact redaction_string = Raise e /\
                out = url /\ log = [mkLog ERROR url e])).
Proof.
  intros plat url P T. split; [apply redact_try_raises_Exception|].
  unfold redact_url_parameters, redact_url_parameters_logged,
    redact_url_parameters_result, try_except_Exception.
  destruct (redact_try plat url P T) as [out|e] eqn:E; cbn [bind].
  - exists out, []. repeat split. left. split; reflexivity.
  - rewrite (redact_try_raises_Exception plat url P T e E).
    exists url, [mkLog ERROR url e]. repeat split. right. exists e. repeat split.
Qed.

(** ** A candidate with a domain name parses *)

(** After the authority a match either ends or goes on with a delimiter. *)
Lemma run_after_authority : forall (A : Type) plat p s (k : Re.cont A) a,
  Re.run plat (Re.seq [path_item; query_item; fragment_item; Re.WordBoundary]) p s k = Some a ->
  k p s = Some a \/
  exists c r p' s', s = c :: r /\ is_delim c = true /\
                    k p' s' = Some a /\ (List.length s' <= List.length s)%nat.
Proof.
  intros A plat p s k a H.
  assert (Hgo : forall c r, s = c :: r -> is_delim c = true ->
            exists c r p' s', s = c :: r /\ is_delim c = true /\
                              k p' s' = Some a /\ (List.length s' <= List.length s)%nat).
  { intros c r E Hc. apply run_consuming in H. destruct H as (p' & s' & H & L).
    exists c, r, p', s'. auto. }
  pose proof H as H0.
  rewrite run_seq_cons in H0. unfold path_item in H0. cbn [Re.run Re.star_loop] in H0.
  apply orelse_some in H0. destruct H0 as [H0|[_ H0]].
  { right. rewrite run_seq_cons in H0. cbn [Re.run] in H0.
    destruct s as [|x s']; [discriminate|]. destruct (N.eqb_spec x (ch "/")); [|discriminate].
    subst x. apply (Hgo (ch "/") s'); reflexivity. }
  rewrite run_seq_cons in H0. unfold query_item in H0. cbn [Re.run] in H0.
  apply orelse_some in H0. destruct H0 as [H0|[_ H0]].
  { right. rewrite run_seq_cons in H0. cbn [Re.run] in H0.
    destruct s as [|x s']; [discriminate|]. destruct (N.eqb_spec x (ch "?")); [|discriminate].
    subst x. apply (Hgo (ch "?") s'); reflexivity. }
  rewrite run_seq_cons in H0. unfold fragment_item in H0. cbn [Re.run] in H0.
  apply orelse_some in H0. destruct H0 as [H0|[_ H0]].
  { right. rewrite run_seq_cons in H0. cbn [Re.run] in H0.
    destruct s as [|x s']; [discriminate|]. destruct (N.eqb_spec x (ch "#")); [|discriminate].
    subst x. apply (Hgo (ch "#") s'); reflexivity. }
  left. cbn [Re.seq Re.run] in H0.
  destruct (Re.at_boundary plat p s); [exact H0|discriminate].
Qed.

Lemma host_chars_range : forall c,
  Re.in_ranges host_chars c = true -> 45 <= c <= 122 /\ c <> 47 /\ c <> 63 /\ c <> 91 /\ c <> 93.
Proof.
  intros c H. unfold Re.in_ranges, host_chars in H. cbn [existsb] in H.
  repeat (apply orb_true_iff in H; destruct H as [H|H]);
    try discriminate;
    apply andb_true_iff in H; destruct H as [H1 H2]; apply N.leb_le in H1, H2; lia.
Qed.

Lemma port_chars_range : forall c,
  takes port_item c = true -> 48 <= c <= 58.
Proof.
  intros c H. unfold port_item in H. cbn [takes Re.seq] in H.
  unfold Re.in_ranges, digit_chars in H. cbn [existsb] in H.
  apply orb_true_iff in H. destruct H as [H|H].
  - apply N.eqb_eq in H. subst c. cbv. split; discriminate.
  - rewrite orb_false_r in H. apply andb_true_iff in H. destruct H as [H1 H2].
    apply N.leb_le in H1, H2. lia.
Qed.

Lemma firstn_app_length : forall (a b : str) n,
  (n <= List.length b)%nat ->
  firstn (List.length (a ++ b) - (List.length b - n)) (a ++ b) = a ++ firstn n b.
Proof.
  intros a b n H. unfold str, char in *. rewrite length_app.
  replace (List.length a + List.length b - (List.length b - n))%nat
    with (List.length a + n)%nat by lia.
  rewrite firstn_app. replace (List.length a + n - List.length a)%nat with n by lia.
  rewrite firstn_all2 by lia. reflexivity.
Qed.

Lemma final_span : forall (whole before after s' : str) n,
  whole = before ++ after ->
  (List.length s' <= List.length after)%nat ->
  Some (List.length whole - List.length s')%nat = Some n ->
  firstn n whole = before ++ firstn (List.length after - List.length s') after.
Proof.
  intros whole before after s' n -> L E. injection E as <-.
  rewrite <- (firstn_app_length before after (List.length after - List.length s')) by lia.
  f_equal. unfold str, char in *. lia.
Qed.

Lemma run_domain : forall plat whole sch p s2 n,
  whole = sch ++ s2 ->
  Re.run plat (Re.seq (Re.lits (py "://") ::
     Re.Alt (Re.Plus (Re.Class host_chars))
         (Re.seq [Re.Lit (ch "["); Re.Plus (Re.Class ipv6_chars); Re.Lit (ch "]")]) ::
     port_item :: path_item :: query_item :: fragment_item ::
     [Re.WordBoundary])) p s2
    (fun (_ : option char) (s' : str) =>
       Some (List.length whole - List.length s')%nat) = Some n ->
  (exists rest, firstn n whole = sch ++ py "://[" ++ rest) \/
  exists host port rest,
    firstn n whole = sch ++ py "://" ++ host ++ port ++ rest /\
    host <> [] /\
    forallb (Re.in_ranges host_chars) host = true /\
    forallb (takes port_item) port = true /\
    (rest = [] \/ exists c r, rest = c :: r /\ is_delim c = true).
Proof.
  intros plat whole sch p s2 n Ew H2. rewrite run_seq_cons in H2.
  apply run_lits in H2; [|discriminate]. destruct H2 as (s3 & -> & H2).
  rewrite run_seq_cons in H2. cbn [Re.run] in H2.
  apply orelse_some in H2. destruct H2 as [H2|[_ H2]].
  - right. cbn [Re.run] in H2.
    destruct s3 as [|x s3]; [discriminate|].
    destruct (Re.in_ranges host_chars x) eqn:Hx; [|discriminate].
    apply (star_loop_prefix _ _ _ (run_reads _ plat (Re.Class host_chars))) in H2.
    destruct H2 as (host & s4 & -> & Hhost & H2). cbn [takes] in Hhost.
    rewrite run_seq_cons in H2.
    apply (run_reads _ plat port_item) in H2.
    destruct H2 as (port & s5 & -> & Hport & H2).
    apply run_after_authority in H2.
    exists (x :: host), port.
    assert (Ew' : whole = (sch ++ py "://" ++ (x :: host) ++ port) ++ s5).
    { rewrite Ew. rewrite <- !app_assoc. reflexivity. }
    destruct H2 as [H2|(c & r & p' & s' & -> & Hc & H2 & L)].
    + exists []. rewrite (final_span whole _ s5 s5 n Ew' (Nat.le_refl _) H2).
      rewrite Nat.sub_diag, <- !app_assoc. cbn [firstn].
      split; [reflexivity|]. split; [discriminate|]. split; [|split; [exact Hport|left; reflexivity]].
      cbn [forallb]. apply andb_true_iff. split; [exact Hx|exact Hhost].
    + exists (firstn (List.length (c :: r) - List.length s') (c :: r)).
      rewrite (final_span whole _ (c :: r) s' n Ew' L H2). rewrite <- !app_assoc.
      split; [reflexivity|]. split; [discriminate|]. split; [|split; [exact Hport|]].
      * cbn [forallb]. apply andb_true_iff. split; [exact Hx|exact Hhost].
      * destruct (List.length (c :: r) - List.length s')%nat; [left; reflexivity|].
        right. cbn [firstn]. eauto.
  - left. rewrite run_seq_cons in H2. cbn [Re.run] in H2.
    destruct s3 as [|x s3]; [discriminate|].
    destruct (N.eqb_spec x (ch "[")) as [->|]; [|discriminate].
    apply run_consuming in H2. destruct H2 as (p1 & t1 & H2 & L1).
    apply run_consuming in H2. destruct H2 as (p2 & t2 & H2 & L2).
    assert (Ew' : whole = (sch ++ py "://[") ++ s3).
    { rewrite Ew. rewrite <- !app_assoc. reflexivity. }
    assert (L : (List.length t2 <= List.length s3)%nat) by lia.
    rewrite (final_span whole _ s3 t2 n Ew' L H2). rewrite <- app_assoc. eauto.
Qed.

(** What a match of [url_pattern] whose host is no bracketed literal is
    made of: the scheme, [://], characters of the domain class, those of
    a port and a rest that is empty or starts with a delimiter. *)
Lemma url_pattern_domain : forall plat prev s n,
  Re.match_here plat url_pattern prev s = Some n ->
  bracketed_host (firstn n s) = false ->
  exists sch host port rest,
    firstn n s = sch ++ py "://" ++ host ++ port ++ rest /\
    (sch = py "http" \/ sch = py "https") /\
    host <> [] /\
    forallb (Re.in_ranges host_chars) host = true /\
    forallb (takes port_item) port = true /\
    (rest = [] \/ exists c r, rest = c :: r /\ is_delim c = true).
Proof.
  intros plat prev s n H Hb.
  unfold Re.match_here in H.
  change url_pattern with
    (Re.seq (Re.WordBoundary :: Re.lits (py "http") :: Re.Opt (Re.Lit (ch "s")) ::
             Re.lits (py "://") ::
             Re.Alt (Re.Plus (Re.Class host_chars))
                    (Re.seq [Re.Lit (ch "["); Re.Plus (Re.Class ipv6_chars); Re.Lit (ch "]")]) ::
             port_item :: path_item :: query_item :: fragment_item ::
             [Re.WordBoundary])) in H.
  rewrite run_seq_cons in H. cbn [Re.run] in H.
  destruct (Re.at_boundary plat prev s); [|discriminate].
  rewrite run_seq_cons in H.
  apply run_lits in H; [|discriminate]. destruct H as (s1 & Es & H).
  rewrite run_seq_cons in H. cbn [Re.run] in H.
  assert (Hfin : forall sch,
    (sch = py "http" \/ sch = py "https") ->
    ((exists rest, firstn n s = sch ++ py "://[" ++ rest) \/
     exists host port rest,
       firstn n s = sch ++ py "://" ++ host ++ port ++ rest /\
       host <> [] /\
       forallb (Re.in_ranges host_chars) host = true /\
       forallb (takes port_item) port = true /\
       (rest = [] \/ exists c r, rest = c :: r /\ is_delim c = true)) ->
    exists sch host port rest,
      firstn n s = sch ++ py "://" ++ host ++ port ++ rest /\
      (sch = py "http" \/ sch = py "https") /\
      host <> [] /\
      forallb (Re.in_ranges host_chars) host = true /\
      forallb (takes port_item) port = true /\
      (rest = [] \/ exists c r, rest = c :: r /\ is_delim c = true)).
  { intros sch Hsch [(rest & E)|(host & port & rest & E & Hrest)].
    - exfalso. rewrite E in Hb. unfold bracketed_host in Hb.
      destruct Hsch as [-> | ->]; vm_compute in Hb; discriminate.
    - exists sch, host, port, rest. tauto. }
  apply orelse_some in H. destruct H as [H|[_ H]].
  - destruct s1 as [|x s2]; [discriminate|].
    destruct (N.eqb_spec x (ch "s")) as [->|]; [|discriminate].
    apply (Hfin (py "https")); [right; reflexivity|].
    apply (run_domain plat s (py "https") (Some (ch "s")) s2 n); [exact Es|exact H].
  - apply (Hfin (py "http")); [left; reflexivity|].
    apply (run_domain plat s (py "http") (Some (last (py "http") 0)) s1 n); [exact Es|exact H].
Qed.

Lemma strip_ctl_app : forall a b, strip_ctl (a ++ b) = strip_ctl a ++ strip_ctl b.
Proof.
  intros a b. unfold strip_ctl, unsafe_url_bytes_to_remove, Str.remove. cbn [fold_left].
  rewrite !filter_app. reflexivity.
Qed.

Lemma strip_ctl_id : forall a, avoids ctl a = true -> strip_ctl a = a.
Proof.
  intros a H. unfold strip_ctl, unsafe_url_bytes_to_remove. cbn [fold_left].
  assert (E : forall c, In c ctl -> Str.remove c a = a).
  { intros c Hc. apply remove_id. apply (avoids_elem ctl); assumption. }
  rewrite (E 9), (E 13), (E 10); try reflexivity;
    unfold ctl, unsafe_url_bytes_to_remove; simpl; auto.
Qed.

Lemma avoids_range : forall cs (P : char -> bool) s,
  (forall c, P c = true -> Str.elem c cs = false) ->
  forallb P s = true -> avoids cs s = true.
Proof.
  intros cs P s H. unfold avoids. apply forallb_impl. intros x Hx.
  rewrite (H x Hx). reflexivity.
Qed.

Lemma elem_three : forall c a b d,
  c <> a -> c <> b -> c <> d -> Str.elem c [a; b; d] = false.
Proof.
  intros c a b d H1 H2 H3. unfold Str.elem. cbn [existsb].
  apply N.eqb_neq in H1, H2, H3. rewrite H1, H2, H3. reflexivity.
Qed.

Lemma elem_two : forall c a b, c <> a -> c <> b -> Str.elem c [a; b] = false.
Proof.
  intros c a b H1 H2. unfold Str.elem. cbn [existsb].
  apply N.eqb_neq in H1, H2. rewrite H1, H2. reflexivity.
Qed.

Lemma net_char_spec : forall x,
  net_char x = true -> 45 <= x <= 122 /\ x <> 47 /\ x <> 63 /\ x <> 91 /\ x <> 93.
Proof.
  intros x Hx. unfold net_char in Hx. apply orb_true_iff in Hx. destruct Hx as [Hx|Hx].
  - apply host_chars_range. exact Hx.
  - apply N.eqb_eq in Hx. subst x. cbv. repeat split; discriminate.
Qed.

Lemma port_char_spec : forall x, takes port_item x = true -> port_char x = true.
Proof.
  intros x H. apply port_chars_range in H. unfold port_char.
  destruct (N.eq_dec x 58) as [->|Hn]; [reflexivity|].
  apply orb_true_iff. right. unfold Re.in_ranges, digit_chars. cbn [existsb].
  rewrite orb_false_r. apply andb_true_iff. split; apply N.leb_le; lia.
Qed.

Lemma net_char_host : forall x, Re.in_ranges host_chars x = true -> net_char x = true.
Proof. intros x H. unfold net_char. rewrite H. reflexivity. Qed.

Lemma net_char_port : forall x, takes port_item x = true -> net_char x = true.
Proof.
  intros x H. apply port_char_spec in H. unfold port_char in H. unfold net_char.
  apply orb_true_iff in H. destruct H as [H|H]; [rewrite H; apply orb_true_r|].
  apply orb_true_iff. left. unfold Re.in_ranges, digit_chars in H. cbn [existsb] in H.
  rewrite orb_false_r in H. unfold Re.in_ranges, host_chars. cbn [existsb].
  rewrite H. rewrite !orb_true_r. reflexivity.
Qed.

Lemma domain_url_parses : forall plat sch host port rest,
  sch = py "http" \/ sch = py "https" ->
  host <> [] ->
  forallb (Re.in_ranges host_chars) host = true ->
  forallb (takes port_item) port = true ->
  (rest = [] \/ exists c r, rest = c :: r /\ is_delim c = true) ->
  exists p, urlparse plat (sch ++ py "://" ++ host ++ port ++ rest) = Ok p /\
            scheme p = sch /\ netloc p = host ++ port.
Proof.
  intros plat sch host port rest Hsch Hne Hhost Hport Hrest.
  set (net := host ++ port).
  assert (Hnet : forallb net_char net = true).
  { unfold net. rewrite forallb_app. apply andb_true_iff. split.
    - revert Hhost. apply forallb_impl. apply net_char_host.
    - revert Hport. apply forallb_impl. apply net_char_port. }
  pose proof net_char_spec as Hr.
  assert (Nctl : avoids ctl net = true).
  { apply (avoids_range ctl net_char net); [|exact Hnet]. intros c Hc. apply Hr in Hc.
    apply elem_three; lia. }
  assert (Ndel : forallb (fun x => negb (is_delim x)) net = true).
  { revert Hnet. apply forallb_impl. intros x Hx. apply Hr in Hx.
    unfold is_delim. apply negb_true_iff.
    apply orb_false_iff; split; [apply orb_false_iff; split|]; apply N.eqb_neq; cbv; lia. }
  assert (Nbr : Str.elem (ch "[") net = false /\ Str.elem (ch "]") net = false).
  { split; apply (forallb_not_elem _ _ _ Hnet); reflexivity. }
  assert (Nasc : Str.isascii net = true).
  { unfold Str.isascii. revert Hnet. apply forallb_impl. intros x Hx. apply Hr in Hx.
    unfold Str.is_ascii. apply N.ltb_lt. lia. }
  assert (Hrest' : strip_ctl rest = [] \/
                   exists c r, strip_ctl rest = c :: r /\ is_delim c = true).
  { destruct Hrest as [->|(c & r & -> & Hc)]; [left; reflexivity|right].
    exists c, (strip_ctl r). split; [|exact Hc].
    change (c :: r) with ([c] ++ r). rewrite strip_ctl_app, (strip_ctl_id [c]);
      [reflexivity|]. unfold is_delim in Hc.
    repeat (apply orb_true_iff in Hc; destruct Hc as [Hc|Hc]);
      apply N.eqb_eq in Hc; subst c; reflexivity. }
  destruct (scheme_ok_http sch Hsch) as [Hok Hsne].
  assert (Hc : cleaned (sch ++ py "://" ++ host ++ port ++ rest)
               = sch ++ ch ":" :: ch "/" :: ch "/" :: net ++ strip_ctl rest).
  { unfold cleaned. fold (strip_ctl (Str.lstrip c0_control_or_space
                                       (sch ++ py "://" ++ host ++ port ++ rest))).
    assert (El : Str.lstrip c0_control_or_space (sch ++ py "://" ++ host ++ port ++ rest)
                 = sch ++ py "://" ++ host ++ port ++ rest).
    { destruct Hsch as [-> | ->]; reflexivity. }
    rewrite El. rewrite !strip_ctl_app.
    rewrite (strip_ctl_id sch) by (apply scheme_ok_avoids; exact Hok).
    change (strip_ctl (py "://")) with (py "://").
    unfold net in Nctl. rewrite avoids_app in Nctl. apply andb_true_iff in Nctl.
    destruct Nctl as [N1 N2]. rewrite (strip_ctl_id host N1), (strip_ctl_id port N2).
    unfold net. rewrite <- !app_assoc. reflexivity. }
  assert (Hsplit : urlsplit plat (sch ++ py "://" ++ host ++ port ++ rest)
                   = split_rest plat sch net (strip_ctl rest)).
  { rewrite urlsplit_unfold, Hc. rewrite (split_scheme_off_rebuild sch _ Hok Hsne).
    change (Str.eqb (firstn 2 (ch "/" :: ch "/" :: net ++ strip_ctl rest)) (py "//"))
      with true. cbv iota.
    rewrite splitnetloc_break, (break_app is_delim net (strip_ctl rest) Ndel).
    - unfold bracket_check. destruct Nbr as [-> ->]. reflexivity.
    - destruct Hrest' as [->|(c & r & -> & Hd)]; [exact I|exact Hd]. }
  unfold urlparse. rewrite Hsplit. unfold split_rest.
  destruct (split_once (ch "#") (strip_ctl rest)) as [u3 f].
  destruct (split_once (ch "?") u3) as [pf q].
  unfold checknetloc. rewrite Nasc, orb_true_r. cbn [bind split_scheme split_path].
  destruct (if Str.mem sch uses_params && Str.elem (ch ";") pf
            then splitparams pf else (pf, [])) as [u prm].
  eexists. split; [reflexivity|]. split; reflexivity.
Qed.

Lemma remove_In : forall c s x, In x (Str.remove c s) -> In x s.
Proof. intros c s x H. unfold Str.remove in H. apply filter_In in H. tauto. Qed.

Lemma cleaned_In : forall url x, In x (cleaned url) -> In x url.
Proof.
  intros url x H. unfold cleaned, unsafe_url_bytes_to_remove in H. cbn [fold_left] in H.
  apply remove_In, remove_In, remove_In, lstrip_In in H. exact H.
Qed.

Lemma split_once_In : forall c s a b x,
  split_once c s = (a, b) -> In x a \/ In x b -> In x s.
Proof.
  intros c s a b x H Hx. apply split_once_spec in H.
  destruct H as [_ [[_ ->]|[_ [-> ->]]]].
  - apply in_or_app. destruct Hx as [Hx|Hx]; [left; exact Hx|right; right; exact Hx].
  - destruct Hx as [Hx|[]]. exact Hx.
Qed.

(** The query [urlparse] returns is made of characters of the URL. *)
Lemma urlparse_query_In : forall plat url p x,
  urlparse plat url = Ok p -> In x (query p) -> In x url.
Proof.
  intros plat url p x H Hx. unfold urlparse in H.
  destruct (urlsplit plat url) as [sr|] eqn:E; [|discriminate]. cbn [bind] in H.
  assert (Hq : query p = split_query sr).
  { destruct (if Str.mem (split_scheme sr) uses_params && Str.elem (ch ";") (split_path sr)
              then splitparams (split_path sr) else (split_path sr, [])) as [u prm].
    apply Ok_inj in H. subst p. reflexivity. }
  rewrite Hq in Hx. clear H Hq. apply cleaned_In.
  rewrite urlsplit_unfold in E.
  destruct (split_scheme_off (cleaned url)) as [sch u1] eqn:Es.
  apply split_scheme_off_spec in Es. destruct Es as [_ [pre Epre]].
  rewrite Epre. apply in_or_app. right.
  assert (Hrest : forall net rest, split_rest plat sch net rest = Ok sr -> In x rest).
  { intros net rest Hr. unfold split_rest in Hr.
    destruct (split_once (ch "#") rest) as [u3 f] eqn:E1.
    destruct (split_once (ch "?") u3) as [pf q] eqn:E2.
    destruct (checknetloc plat net) as [[]|]; [|discriminate].
    cbn [bind] in Hr. apply Ok_inj in Hr. subst sr. cbn [split_query] in Hx.
    apply (split_once_In _ _ _ _ _ E1). left.
    apply (split_once_In _ _ _ _ _ E2). right. exact Hx. }
  destruct (Str.eqb (firstn 2 u1) (py "//")).
  - destruct (splitnetloc u1 2) as [net u2] eqn:Esn.
    destruct (bracket_check plat net) as [[]|]; [|discriminate].
    cbn [bind] in E. apply Hrest in E.
    unfold splitnetloc in Esn. apply pair_equal_spec in Esn. destruct Esn as [_ <-].
    apply (In_skipn _ _ _ _ E).
  - apply (Hrest _ _ E).
Qed.

(** * Further properties *)

(** ** The locator: [url_pattern] and [process_line] *)

(** X1: every candidate is [http] or [https], then [://], then a
    character of the domain class or an opening bracket; and when
    [urlparse] accepts it, the parsed scheme is that scheme and the
    authority is not empty. *)
Theorem X1_candidate_shape : forall plat line a b,
  In (a, b) (candidates plat line) ->
  exists sch h rest,
    firstn (b - a) (skipn a line) = sch ++ py "://" ++ h :: rest /\
    (sch = py "http" \/ sch = py "https") /\ host_start h = true /\
    forall p, urlparse plat (firstn (b - a) (skipn a line)) = Ok p ->
              scheme p = sch /\ netloc p <> [].
Proof.
  intros plat line a b Hin.
  assert (Hs : scan_spans plat url_pattern line 0 (candidates plat line)).
  { apply finditer_scan. intros prev s n H. apply url_pattern_scheme in H. tauto. }
  apply (scan_spans_In _ _ _ _ _ _ _ Hs) in Hin. unfold match_at in Hin.
  apply url_pattern_host in Hin. destruct Hin as (sch & h & rest & Hsch & Hh & E).
  exists sch, h, rest. split; [exact E|]. split; [exact Hsch|]. split; [exact Hh|].
  intros p Hp. rewrite E in Hp. split.
  - apply (candidate_scheme plat sch h rest p Hsch Hh Hp).
  - apply (candidate_netloc plat sch h rest p Hsch Hh Hp).
Qed.

Lemma X1_witness :
  exists sch h rest,
    firstn (44 - 4) (skipn 4 example_line) = sch ++ py "://" ++ h :: rest /\
    (sch = py "http" \/ sch = py "https") /\ host_start h = true /\
    forall p, urlparse ascii_platform (firstn (44 - 4) (skipn 4 example_line)) = Ok p ->
              scheme p = sch /\ netloc p <> [].
Proof.
  apply (X1_candidate_shape ascii_platform example_line).
  vm_compute. left. reflexivity.
Defined.

(** X2: both ends of a candidate are word boundaries of the line (so a
    URL glued to a word before it is no candidate), and a candidate holds
    no line feed. *)
Theorem X2_candidate_between_boundaries : forall plat line a b,
  In (a, b) (candidates plat line) ->
  Re.at_boundary plat (prev_at line a) (skipn a line) = true /\
  Re.at_boundary plat (prev_at line b) (skipn b line) = true /\
  Str.elem 10 (firstn (b - a) (skipn a line)) = false.
Proof.
  intros plat line a b Hin.
  assert (Hs : scan_spans plat url_pattern line 0 (candidates plat line)).
  { apply finditer_scan. intros prev s n H. apply url_pattern_scheme in H. tauto. }
  pose proof (scan_spans_In _ _ _ _ _ _ _ Hs Hin) as Hm. unfold match_at in Hm.
  apply url_pattern_match in Hm. destruct Hm as (B1 & pre & rest & E & Hn & Hnl & B2).
  split; [exact B1|].
  assert (Hb : b = (a + List.length pre)%nat).
  { assert (a <= b)%nat; [|lia].
    clear - Hs Hin. revert Hs Hin. generalize (candidates plat line) O.
    induction l as [|[a' b'] l IH]; intros pos Hs Hin; [contradiction|].
    cbn [scan_spans] in Hs. destruct Hs as (Hr & _ & _ & Hrest).
    destruct Hin as [Ex|Hin]; [injection Ex as <- <-; lia|apply (IH _ Hrest Hin)]. }
  split.
  - rewrite Hb, (prev_at_skipn line a (prev_at line a) pre rest eq_refl E).
    rewrite <- skipn_skipn_add, E, skipn_length_app. exact B2.
  - rewrite Hn, E, firstn_length_app. exact Hnl.
Qed.

Lemma X2_witness :
  Re.at_boundary ascii_platform (prev_at example_line 4) (skipn 4 example_line) = true /\
  Re.at_boundary ascii_platform (prev_at example_line 44) (skipn 44 example_line) = true /\
  Str.elem 10 (firstn (44 - 4) (skipn 4 example_line)) = false.
Proof.
  apply (X2_candidate_between_boundaries ascii_platform example_line 4 44).
  vm_compute. left. reflexivity.
Defined.

(** X3: [process_line] works line by line: a line feed separates what is
    before it from what is after it, and processing the lines that a
    text stream yields, one by one, is processing the text as the stream
    delivers it (with universal newlines, the text in which every
    carriage return, with the line feed after it if there is one, has
    become a line feed). *)
Theorem X3_process_line_by_lines :
  forall plat l1 l2 nl text params_to_redact redaction_string,
  process_line plat (l1 ++ 10 :: l2) params_to_redact redaction_string
  = process_line plat l1 params_to_redact redaction_string
    ++ 10 :: process_line plat l2 params_to_redact redaction_string /\
  concat (map (fun line => process_line plat line params_to_redact redaction_string)
              (stream_lines nl text))
  = process_line plat (delivered nl text) params_to_redact redaction_string.
Proof.
  intros plat l1 l2 nl text P T. split.
  - apply process_line_cut.
  - unfold stream_lines.
    apply (concat_readlines_process plat P T (List.length (delivered nl text))). lia.
Qed.

(** X19: the candidates of a line are the spans a left-to-right scan
    finds (each starts at the first index from the end of the previous
    one where the matcher succeeds and covers the match the backtracking
    matcher returns there, so they are not empty, in order and do not
    overlap), and [process_line] copies the text outside the spans and
    puts [redact_url_parameters] of each candidate in its place. *)
Theorem X19_candidates_replaced_in_place :
  forall plat line params_to_redact redaction_string,
  scan_spans plat url_pattern line 0 (candidates plat line) /\
  process_line plat line params_to_redact redaction_string =
  splice (fun url => redact_url_parameters plat url params_to_redact redaction_string)
         line 0 (candidates plat line).
Proof.
  intros plat line P T. split.
  - apply finditer_scan. intros prev s n H. apply url_pattern_scheme in H. tauto.
  - unfold process_line. rewrite sub_splice. reflexivity.
Qed.

(** X4: a candidate whose host is not a bracketed literal parses on every
    platform: [urlparse] returns scheme [http] or [https] and a netloc
    that is a domain, one or more of [[a-zA-Z0-9.-]], followed by a port
    part made of colons and digits (it may be empty); so every character
    of the netloc is one of [[a-zA-Z0-9.-]] or the colon. *)
Theorem X4_domain_candidate_parses : forall plat line a b,
  In (a, b) (candidates plat line) ->
  bracketed_host (firstn (b - a) (skipn a line)) = false ->
  exists p host port,
    urlparse plat (firstn (b - a) (skipn a line)) = Ok p /\
    (scheme p = py "http" \/ scheme p = py "https") /\
    netloc p = host ++ port /\ host <> [] /\
    forallb (Re.in_ranges host_chars) host = true /\
    forallb port_char port = true /\
    forallb net_char (netloc p) = true.
Proof.
  intros plat line a b Hin Hb.
  assert (Hs : scan_spans plat url_pattern line 0 (candidates plat line)).
  { apply finditer_scan. intros prev s n H. apply url_pattern_scheme in H. tauto. }
  apply (scan_spans_In _ _ _ _ _ _ _ Hs) in Hin. unfold match_at in Hin.
  apply url_pattern_domain in Hin; [|exact Hb].
  destruct Hin as (sch & host & port & rest & E & Hsch & Hne & Hhost & Hport & Hrest).
  destruct (domain_url_parses plat sch host port rest Hsch Hne Hhost Hport Hrest)
    as (p & Hp & Hscheme & Hnet).
  exists p, host, port. rewrite E. split; [exact Hp|]. split; [rewrite Hscheme; exact Hsch|].
  split; [exact Hnet|]. split; [exact Hne|]. split; [exact Hhost|]. split.
  - revert Hport. apply forallb_impl. apply port_char_spec.
  - rewrite Hnet, forallb_app. apply andb_true_iff. split.
    + revert Hhost. apply forallb_impl. apply net_char_host.
    + revert Hport. apply forallb_impl. apply net_char_port.
Qed.

Lemma X4_witness :
  exists p host port,
    urlparse ascii_platform (firstn (44 - 4) (skipn 4 example_line)) = Ok p /\
    (scheme p = py "http" \/ scheme p = py "https") /\
    netloc p = host ++ port /\ host <> [] /\
    forallb (Re.in_ranges host_chars) host = true /\
    forallb port_char port = true /\
    forallb net_char (netloc p) = true.
Proof.
  apply (X4_domain_candidate_parses ascii_platform example_line 4 44).
  - vm_compute. left. reflexivity.
  - vm_compute. reflexivity.
Defined.

(** X5: for such a candidate, when it and the token hold only code points
    that UTF-8 encodes (none above U+10FFFF, no lone surrogate), the
    [try] block completes and nothing is logged. *)
Theorem X5_candidate_no_fallback :
  forall plat line a b params_to_redact redaction_string,
  In (a, b) (candidates plat line) ->
  bracketed_host (firstn (b - a) (skipn a line)) = false ->
  forallb scalar (firstn (b - a) (skipn a line)) = true ->
  forallb scalar redaction_string = true ->
  exists out,
    redact_url_parameters_logged plat (firstn (b - a) (skipn a line))
      params_to_redact redaction_string = (out, []).
Proof.
  intros plat line a b P T Hin Hb Hsc HT.
  assert (Hs : scan_spans plat url_pattern line 0 (candidates plat line)).
  { apply finditer_scan. intros prev s n H. apply url_pattern_scheme in H. tauto. }
  apply (scan_spans_In _ _ _ _ _ _ _ Hs) in Hin. unfold match_at in Hin.
  apply url_pattern_domain in Hin; [|exact Hb].
  destruct Hin as (sch & host & port & rest & E & Hsch & Hne & Hhost & Hport & Hrest).
  destruct (domain_url_parses plat sch host port rest Hsch Hne Hhost Hport Hrest)
    as (p & Hp & _). rewrite <- E in Hp.
  assert (Hq : forallb scalar (query p) = true).
  { apply (forallb_sub scalar _ (firstn (b - a) (skipn a line))); [|exact Hsc].
    intros x Hx. apply (urlparse_query_In plat _ p x Hp Hx). }
  destruct (urlencode_ok (redact_params P T (parse_qs (query p)))) as [q' Hq'].
  { apply dict_all_redact; [apply parse_qs_scalar; exact Hq|exact HT]. }
  eexists. unfold redact_url_parameters_logged, redact_try.
  rewrite Hp. cbn [bind]. rewrite Hq'. cbn [bind]. reflexivity.
Qed.

Lemma X5_witness :
  exists out,
    redact_url_parameters_logged ascii_platform (firstn (44 - 4) (skipn 4 example_line))
      [py "api_key"] (py "REDACTED") = (out, []).
Proof.
  apply (X5_candidate_no_fallback ascii_platform example_line 4 44).
  - vm_compute. left. reflexivity.
  - vm_compute. reflexivity.
  - vm_compute. reflexivity.
  - vm_compute. reflexivity.
Defined.

(** X6: redacting a candidate a second time, with the same names and a
    token that is not empty, changes nothing more. *)
Theorem X6_candidate_redacted_once :
  forall plat line a b params_to_redact redaction_string,
  redaction_string <> [] ->
  In (a, b) (candidates plat line) ->
  redact_url_parameters plat
    (redact_url_parameters plat (firstn (b - a) (skipn a line))
       params_to_redact redaction_string)
    params_to_redact redaction_string
  = redact_url_parameters plat (firstn (b - a) (skipn a line))
      params_to_redact redaction_string.
Proof.
  intros plat line a b P T HT Hin.
  destruct (redact_try plat (firstn (b - a) (skipn a line)) P T) as [out|e] eqn:E.
  - rewrite (redact_ok _ _ _ _ _ E). apply redact_ok.
    apply (redact_try_again plat (firstn (b - a) (skipn a line))); [exact HT| |exact E].
    intros p Hp. apply (candidate_has_authority plat line a b p Hin Hp).
  - rewrite (redact_raise _ _ _ _ _ E). apply (redact_raise _ _ _ _ e). exact E.
Qed.

Lemma X6_witness :
  redact_url_parameters ascii_platform
    (redact_url_parameters ascii_platform (firstn (44 - 4) (skipn 4 example_line))
       [py "api_key"] (py "REDACTED"))
    [py "api_key"] (py "REDACTED")
  = redact_url_parameters ascii_platform (firstn (44 - 4) (skipn 4 example_line))
      [py "api_key"] (py "REDACTED").
Proof.
  apply (X6_candidate_redacted_once ascii_platform example_line 4 44).
  - discriminate.
  - vm_compute. left. reflexivity.
Defined.

(** ** The redactor: [redact_url_parameters] *)

(** X7: the result depends on the list of names only through the keys of
    the query it holds: order, repetitions and names that are not in the
    query make no difference. *)
Theorem X7_names_as_set :
  forall plat url params_to_redact params_to_redact' redaction_string,
  (forall p k, urlparse plat url = Ok p -> dict_mem k (parse_qs (query p)) = true ->
               Str.mem k params_to_redact = Str.mem k params_to_redact') ->
  redact_url_parameters plat url params_to_redact redaction_string
  = redact_url_parameters plat url params_to_redact' redaction_string.
Proof.
  intros plat url P P' T H.
  assert (E : redact_try plat url P T = redact_try plat url P' T).
  { unfold redact_try. destruct (urlparse plat url) as [p|e] eqn:Ep; [|reflexivity].
    cbn [bind].
    assert (Ed : redact_params P T (parse_qs (query p))
                 = redact_params P' T (parse_qs (query p))).
    { rewrite !redact_params_map by apply parse_qs_wf.
      apply map_ext_in. intros [k vs] Hin. unfold redact_entry. cbn [fst].
      rewrite (H p k eq_refl); [reflexivity|].
      rewrite dict_mem_keys. apply mem_In. apply in_map_iff. exists (k, vs). auto. }
    rewrite Ed. reflexivity. }
  unfold redact_url_parameters, redact_url_parameters_logged. rewrite E. reflexivity.
Qed.

Lemma X7_witness :
  redact_url_parameters ascii_platform (py "http://h/?a=1&b=2")
    [py "zz"; py "b"; py "a"; py "b"] (py "REDACTED")
  = redact_url_parameters ascii_platform (py "http://h/?a=1&b=2")
      [py "a"; py "b"] (py "REDACTED").
Proof.
  apply (X7_names_as_set ascii_platform (py "http://h/?a=1&b=2")).
  intros p k Hp Hk. vm_compute in Hp. apply Ok_inj in Hp. subst p.
  cbn [query] in Hk.
  change (parse_qs (py "a=1&b=2")) with [(py "a", [py "1"]); (py "b", [py "2"])] in Hk.
  cbn [dict_mem] in Hk. apply orb_true_iff in Hk. destruct Hk as [Hk|Hk].
  - apply eqb_eq in Hk. subst k. reflexivity.
  - apply orb_true_iff in Hk. destruct Hk as [Hk|Hk]; [|discriminate].
    apply eqb_eq in Hk. subst k. reflexivity.
Defined.

(** X8: redacting in two steps.  When a first pass over a URL with an
    authority completes, with a token that is not empty, the [try] block
    of a second pass with more names does what one pass with all the
    names does; so when that one completes, the two results are equal. *)
Theorem X8_redact_in_two_steps :
  forall plat url params_to_redact more redaction_string p out,
  redaction_string <> [] ->
  urlparse plat url = Ok p -> netloc p <> [] ->
  redact_try plat url params_to_redact redaction_string = Ok out ->
  redact_try plat out more redaction_string
  = redact_try plat url (params_to_redact ++ more) redaction_string /\
  (forall out2,
     redact_try plat url (params_to_redact ++ more) redaction_string = Ok out2 ->
     redact_url_parameters plat
       (redact_url_parameters plat url params_to_redact redaction_string)
       more redaction_string
     = redact_url_parameters plat url (params_to_redact ++ more) redaction_string).
Proof.
  intros plat url P Q T p out HT Hp Hne Hok.
  pose proof (redact_ok _ _ _ _ _ Hok) as Hout.
  apply redact_try_inv in Hok. destruct Hok as (p0 & q' & Hp0 & Hq & ->).
  assert (p0 = p) by congruence. subst p0.
  pose proof (encoded_query_clean _ _ Hq) as [Cq Hq'].
  assert (E : redact_try plat
                (urlunparse (scheme p) (netloc p) (path p) (params p) q' (fragment p)) Q T
              = redact_try plat url (P ++ Q) T).
  { unfold redact_try.
    rewrite (urlparse_urlunparse plat url p q' Hp Hne Cq Hq'), Hp.
    cbn [bind scheme netloc path params query fragment].
    rewrite (parse_qs_urlencode (redact_params P T (parse_qs (query p))) q');
      [|apply redact_params_wf; [exact HT|apply parse_qs_wf]|exact Hq].
    unfold redact_params. rewrite fold_left_app. reflexivity. }
  split; [exact E|]. intros out2 H2. rewrite Hout.
  rewrite (redact_ok _ _ _ _ _ H2). apply redact_ok. rewrite E. exact H2.
Qed.

Lemma X8_witness :
  redact_try ascii_platform (py "http://h/?a=REDACTED&b=2") [py "b"] (py "REDACTED")
  = redact_try ascii_platform (py "HTTP://h/?a=1&b=2") ([py "a"] ++ [py "b"]) (py "REDACTED") /\
  (forall out2,
     redact_try ascii_platform (py "HTTP://h/?a=1&b=2") ([py "a"] ++ [py "b"]) (py "REDACTED")
     = Ok out2 ->
     redact_url_parameters ascii_platform
       (redact_url_parameters ascii_platform (py "HTTP://h/?a=1&b=2") [py "a"] (py "REDACTED"))
       [py "b"] (py "REDACTED")
     = redact_url_parameters ascii_platform (py "HTTP://h/?a=1&b=2") ([py "a"] ++ [py "b"])
         (py "REDACTED")).
Proof.
  apply (X8_redact_in_two_steps ascii_platform (py "HTTP://h/?a=1&b=2")
           [py "a"] [py "b"] (py "REDACTED")
           (mkParse (py "http") (py "h") (py "/") [] (py "a=1&b=2") [])
           (py "http://h/?a=REDACTED&b=2")).
  - discriminate.
  - vm_compute. reflexivity.
  - discriminate.
  - vm_compute. reflexivity.
Defined.

(** X9: the output read back.  When the [try] block completes on a URL
    with an authority, with a token that is not empty, [urlparse] of the
    output gives the scheme, authority, path, parameters and fragment of
    the input; [parse_qs] of its query gives the mapping of the input with
    [[token]] at every listed name; and that query is made of letters,
    digits and [_.-~+%=&] only. *)
Theorem X9_output_reads_back :
  forall plat url params_to_redact redaction_string p out,
  redaction_string <> [] ->
  urlparse plat url = Ok p -> netloc p <> [] ->
  redact_try plat url params_to_redact redaction_string = Ok out ->
  exists q',
    urlparse plat out
    = Ok (mkParse (scheme p) (netloc p) (path p) (params p) q' (fragment p)) /\
    parse_qs q' = map (redact_entry params_to_redact redaction_string) (parse_qs (query p)) /\
    forallb (fun x => urlenc_char x || (x =? ch "=") || (x =? ch "&")) q' = true.
Proof.
  intros plat url P T p out HT Hp Hne Hok.
  apply redact_try_inv in Hok. destruct Hok as (p0 & q' & Hp0 & Hq & ->).
  assert (p0 = p) by congruence. subst p0.
  pose proof (encoded_query_clean _ _ Hq) as [Cq Hq'].
  exists q'. split; [apply (urlparse_urlunparse plat url p q' Hp Hne Cq Hq')|]. split.
  - rewrite (parse_qs_urlencode (redact_params P T (parse_qs (query p))) q');
      [|apply redact_params_wf; [exact HT|apply parse_qs_wf]|exact Hq].
    apply redact_params_map. apply parse_qs_wf.
  - apply urlencode_parse_qsl in Hq. tauto.
Qed.

Lemma X9_witness :
  exists q',
    urlparse ascii_platform (py "https://example.com/a?password=REDACTED&x=1")
    = Ok (mkParse (py "https") (py "example.com") (py "/a") [] q' []) /\
    parse_qs q' = map (redact_entry [py "password"] (py "REDACTED"))
                      (parse_qs (py "password=p1&x=1&password=p2")) /\
    forallb (fun x => urlenc_char x || (x =? ch "=") || (x =? ch "&")) q' = true.
Proof.
  apply (X9_output_reads_back ascii_platform
           (py "https://example.com/a?password=p1&x=1&password=p2")
           [py "password"] (py "REDACTED")
           (mkParse (py "https") (py "example.com") (py "/a") []
                    (py "password=p1&x=1&password=p2") [])
           (py "https://example.com/a?password=REDACTED&x=1")).
  - discriminate.
  - vm_compute. reflexivity.
  - discriminate.
  - vm_compute. reflexivity.
Defined.

(** X10: why the fallback is taken.  When the [try] block raises, either
    [urlparse] raised, and then a [ValueError], or the URL parsed and
    [urlencode] raised a [UnicodeEncodeError] on a code point that UTF-8
    does not encode; the URL is returned and that exception is logged. *)
Theorem X10_fallback_causes :
  forall plat url params_to_redact redaction_string e,
  redact_try plat url params_to_redact redaction_string = Raise e ->
  redact_url_parameters_logged plat url params_to_redact redaction_string
  = (url, [mkLog ERROR url e]) /\
  ((urlparse plat url = Raise e /\ exists msg, e = ValueError msg) \/
   (exists p c, urlparse plat url = Ok p /\ e = UnicodeEncodeError c /\ scalar c = false)).
Proof.
  intros plat url P T e H. split.
  - unfold redact_url_parameters_logged. rewrite H. reflexivity.
  - unfold redact_try in H. destruct (urlparse plat url) as [p|e'] eqn:Ep.
    + right. cbn [bind] in H.
      destruct (urlencode (redact_params P T (parse_qs (query p)))) as [q|e''] eqn:Eq;
        [discriminate|].
      cbn [bind] in H. injection H as <-. apply urlencode_raise in Eq.
      destruct Eq as (c & Hc). exists p, c. tauto.
    + left. cbn [bind] in H. injection H as <-. split; [reflexivity|].
      apply (urlparse_raise plat url e' Ep).
Qed.

Lemma X10_witness :
  redact_url_parameters_logged ascii_platform (py "https://bad]url?api_key=x")
    [py "api_key"] (py "REDACTED")
  = (py "https://bad]url?api_key=x",
     [mkLog ERROR (py "https://bad]url?api_key=x") (ValueError "Invalid IPv6 URL")]) /\
  ((urlparse ascii_platform (py "https://bad]url?api_key=x")
    = Raise (ValueError "Invalid IPv6 URL") /\
    exists msg, ValueError "Invalid IPv6 URL" = ValueError msg) \/
   (exists p c, urlparse ascii_platform (py "https://bad]url?api_key=x") = Ok p /\
                ValueError "Invalid IPv6 URL" = UnicodeEncodeError c /\ scalar c = false)).
Proof.
  apply (X10_fallback_causes ascii_platform (py "https://bad]url?api_key=x")
           [py "api_key"] (py "REDACTED")).
  vm_compute. reflexivity.
Defined.

(** X11: when the URL parses and its query and the token hold only code
    points that UTF-8 encodes, the [try] block completes: a result is
    returned and nothing is logged. *)
Theorem X11_no_fallback :
  forall plat url params_to_redact redaction_string p,
  urlparse plat url = Ok p ->
  forallb scalar (query p) = true -> forallb scalar redaction_string = true ->
  exists out,
    redact_try plat url params_to_redact redaction_string = Ok out /\
    redact_url_parameters_logged plat url params_to_redact redaction_string = (out, []).
Proof.
  intros plat url P T p Hp Hq HT.
  destruct (urlencode_ok (redact_params P T (parse_qs (query p)))) as [q' Hq'].
  { apply dict_all_redact; [apply parse_qs_scalar; exact Hq|exact HT]. }
  eexists. unfold redact_url_parameters_logged, redact_try.
  rewrite Hp. cbn [bind]. rewrite Hq'. cbn [bind]. split; reflexivity.
Qed.

Lemma X11_witness :
  exists out,
    redact_try ascii_platform (py "http://h/?k=%ED%A0%80&z=1") [py "z"] (py "REDACTED") = Ok out /\
    redact_url_parameters_logged ascii_platform (py "http://h/?k=%ED%A0%80&z=1")
      [py "z"] (py "REDACTED") = (out, []).
Proof.
  apply (X11_no_fallback ascii_platform (py "http://h/?k=%ED%A0%80&z=1")
           [py "z"] (py "REDACTED")
           (mkParse (py "http") (py "h") (py "/") [] (py "k=%ED%A0%80&z=1") [])).
  - vm_compute. reflexivity.
  - vm_compute. reflexivity.
  - vm_compute. reflexivity.
Defined.

(** ** [main]: the parameter list and the loop *)

(** X12: the list of names [main] builds has one name more than the
    option has commas (so it is never empty), and no name holds a comma
    or starts or ends with white space. *)
Theorem X12_params_shape : forall parameters,
  List.length (main_params_to_redact parameters) = S (count (ch ",") parameters) /\
  Forall (fun name => Str.elem (ch ",") name = false /\ stripped name = true)
         (main_params_to_redact parameters).
Proof.
  intro parameters. unfold main_params_to_redact. split.
  - rewrite length_map. apply split_length.
  - apply Forall_map. pose proof (split_pieces (ch ",") parameters) as H.
    revert H. apply Forall_impl. intros p Hp. split; [|apply strip_stripped].
    apply elem_false. intro Hin. apply strip_In in Hin.
    apply elem_false in Hp. contradiction.
Qed.

(** X13: names without a comma and without white space at their ends,
    joined with commas, are read back as they are. *)
Theorem X13_params_roundtrip : forall names,
  names <> [] ->
  Forall (fun name => Str.elem (ch ",") name = false /\ stripped name = true) names ->
  main_params_to_redact (Str.join [ch ","] names) = names.
Proof.
  intros names Hne H. unfold main_params_to_redact.
  rewrite split_join; [|exact Hne|revert H; apply Forall_impl; tauto].
  induction H as [|n l [_ Hn] _ IH]; [reflexivity|].
  cbn [map]. rewrite (strip_id n Hn). f_equal.
  destruct l; [reflexivity|]. apply IH. discriminate.
Qed.

Lemma X13_witness :
  main_params_to_redact
    (Str.join [ch ","] [py "api_key"; py "password"; py "session_id"; py "auth_token"])
  = [py "api_key"; py "password"; py "session_id"; py "auth_token"].
Proof.
  apply (X13_params_roundtrip [py "api_key"; py "password"; py "session_id"; py "auth_token"]).
  - discriminate.
  - repeat constructor.
Defined.

(** X14: what the loop of [main] has written when it ends is
    [process_line] of the first [n] lines of the input, in order: of all
    of them when no exception ended the loop, of fewer when one did (the
    lines after a failure are not processed). *)
Theorem X14_main_loop_writes_prefix :
  forall plat write input_stream params_to_redact redaction_string out err,
  main_loop plat write [] input_stream params_to_redact redaction_string = (out, err) ->
  exists n,
    (n <= List.length (lines_read input_stream))%nat /\
    out = map (fun line => process_line plat line params_to_redact redaction_string)
              (firstn n (lines_read input_stream)) /\
    (err = None -> n = List.length input_stream) /\
    (forall e, err = Some e -> (n < List.length input_stream)%nat).
Proof.
  intros plat write input P T out err H. apply main_loop_spec in H. exact H.
Qed.

Lemma X14_witness :
  exists n,
    (n <= List.length (lines_read [Ok (py "a"); Ok (py "b"); Ok (py "c")]))%nat /\
    [py "a"]
    = map (fun line => process_line ascii_platform line [py "k"] (py "REDACTED"))
          (firstn n (lines_read [Ok (py "a"); Ok (py "b"); Ok (py "c")])) /\
    (Some (ValueError "I/O operation on closed file.") = None ->
     n = List.length [Ok (py "a"); Ok (py "b"); Ok (py "c")]) /\
    (forall e, Some (ValueError "I/O operation on closed file.") = Some e ->
               (n < List.length [Ok (py "a"); Ok (py "b"); Ok (py "c")])%nat).
Proof.
  apply (X14_main_loop_writes_prefix ascii_platform
           (fun written _ => match written with
                             | [] => Ok tt
                             | _ :: _ => Raise (ValueError "I/O operation on closed file.")
                             end)
           [Ok (py "a"); Ok (py "b"); Ok (py "c")] [py "k"] (py "REDACTED")).
  vm_compute. reflexivity.
Defined.

(** X15: when the stream reads its text without an error and every write
    succeeds, what the loop writes is, put together, [process_line] of
    the text as the stream delivers it: of the text itself for a stream
    with [newline='\n'], of the text with its carriage returns
    translated for the file branch.  There a carriage return inside a
    URL ends the line, and the candidate with it. *)
Theorem X15_main_loop_whole_text :
  forall plat write nl text params_to_redact redaction_string,
  (forall written s, write written s = Ok tt) ->
  exists out,
    main_loop plat write [] (map (@Ok str) (stream_lines nl text))
              params_to_redact redaction_string
    = (out, None) /\
    concat out = process_line plat (delivered nl text) params_to_redact redaction_string.
Proof.
  intros plat write nl text P T Hw. eexists. split.
  - apply main_loop_all. exact Hw.
  - cbn [app]. unfold stream_lines.
    apply (concat_readlines_process plat P T (List.length (delivered nl text))). lia.
Qed.

Lemma X15_witness :
  exists out,
    main_loop ascii_platform (fun _ _ => Ok tt) []
      (map (@Ok str)
           (stream_lines newline_None
              (py "a http://h/?k=v" ++ [13; 10] ++ py "http://h/" ++ 13 :: py "?k=v")))
      [py "k"] (py "REDACTED")
    = (out, None) /\
    concat out
    = process_line ascii_platform
        (delivered newline_None
           (py "a http://h/?k=v" ++ [13; 10] ++ py "http://h/" ++ 13 :: py "?k=v"))
        [py "k"] (py "REDACTED").
Proof.
  apply (X15_main_loop_whole_text ascii_platform (fun _ _ => Ok tt) newline_None
           (py "a http://h/?k=v" ++ [13; 10] ++ py "http://h/" ++ 13 :: py "?k=v")
           [py "k"] (py "REDACTED")).
  intros written s. reflexivity.
Defined.

(** ** The library calls of [redact_url_parameters] *)

(** X16: percent-coding.  What [quote_plus] writes for a name or a value
    is made of letters, digits and [_.-~+%] only, and the decoding that
    [parse_qs] applies gives the name or value back. *)
Theorem X16_quote_plus_roundtrip : forall s q,
  quote_plus s = Ok q ->
  unquote_plus q = s /\ forallb urlenc_char q = true /\ (q = [] <-> s = []).
Proof. intros s q H. apply quote_plus_spec. exact H. Qed.

Lemma X16_witness :
  unquote_plus (py "a+b%26c%3Dd%2F%C3%A9") = py "a b&c=d/" ++ [233] /\
  forallb urlenc_char (py "a+b%26c%3Dd%2F%C3%A9") = true /\
  (py "a+b%26c%3Dd%2F%C3%A9" = [] <-> py "a b&c=d/" ++ [233] = []).
Proof.
  apply (X16_quote_plus_roundtrip (py "a b&c=d/" ++ [233]) (py "a+b%26c%3Dd%2F%C3%A9")).
  vm_compute. reflexivity.
Defined.

(** X17: the query round trip.  A mapping as [parse_qs] builds it (no
    name twice, no name without a value, no empty value), written by
    [urlencode] and read by [parse_qs], comes back as it was. *)
Theorem X17_query_roundtrip : forall d q,
  well_formed d -> urlencode d = Ok q -> parse_qs q = d.
Proof. intros d q Hd Hq. apply (parse_qs_urlencode d q Hd Hq). Qed.

Lemma X17_witness :
  parse_qs (py "a=1&a=2&b+c=x%26y")
  = [(py "a", [py "1"; py "2"]); (py "b c", [py "x&y"])].
Proof.
  apply (X17_query_roundtrip [(py "a", [py "1"; py "2"]); (py "b c", [py "x&y"])]
           (py "a=1&a=2&b+c=x%26y")).
  - split.
    + unfold keys. cbn [map fst].
      apply NoDup_cons; [intros [H|[]]; discriminate|].
      apply NoDup_cons; [intros []|apply NoDup_nil].
    + repeat constructor; discriminate.
  - vm_compute. reflexivity.
Defined.

(** X18: UTF-8.  Decoding what [encode] wrote gives the text back; and
    decoding with [errors='replace'] never gives a lone surrogate or a
    code point above U+10FFFF, whatever the bytes. *)
Theorem X18_utf8_roundtrip : forall s bs bs',
  (Utf8.encode s = Ok bs -> Utf8.decode bs = s) /\
  forallb scalar (Utf8.decode bs') = true.
Proof.
  intros s bs bs'. split; [apply decode_encode|].
  apply (decode_scalar _ _ (Nat.le_refl _)).
Qed.

Lemma X18_witness :
  Utf8.decode [195; 169; 240; 159; 152; 128] = [233; 128512] /\
  forallb scalar (Utf8.decode [237; 160; 128; 65]) = true.
Proof.
  split.
  - apply (proj1 (X18_utf8_roundtrip [233; 128512] [195; 169; 240; 159; 152; 128] [])).
    vm_compute. reflexivity.
  - apply (proj2 (X18_utf8_roundtrip [] [] [237; 160; 128; 65])).
Defined.
